(** * Host driver of the OpenCL homography estimator

    Shallow embedding of [opencl::kernel::computeH]
    (src/backend/opencl/kernel/homography.hpp): the host function that
    enqueues the five homography kernels, the sort / reduce / ireduce
    primitives and the buffer transfers, for the two estimator kinds
    RANSAC and LMedS.

    The host code is embedded command by command in a state-and-error
    monad over the device memory and the log of enqueued commands.  The
    OpenCL kernels (homography.cl) and the primitives of kernel/sort.hpp,
    kernel/reduce.hpp and kernel/ireduce.hpp are not part of this file of
    the repository; their behaviour is modelled from the specification and
    every such definition says so in its comment. *)

From stdpp Require Import base numbers functions list sorting strings.
From Stdlib Require Import NArith ZArith Lia.

(** ** Host-side constants and integer arithmetic *)

Inductive af_homography_type := AF_HOMOGRAPHY_RANSAC | AF_HOMOGRAPHY_LMEDS.

Definition HG_THREADS_X : N := 16.
Definition HG_THREADS_Y : N := 16.
Definition HG_THREADS : N := 256.

(** [unsigned] arithmetic of the host wraps modulo 2^32. *)
Definition wrap32 (n : N) : N := (n mod 2 ^ 32)%N.

(** [divup(a, b)] is the macro of dispatch.hpp, [((a)+(b)-1)/(b)]; its
    first argument is an [unsigned] at every use in [computeH], so the sum
    is an [unsigned] sum. *)
Definition divup (a b : N) : N := (wrap32 (a + b - 1) / b)%N.

(** The final [(int)inliersH] conversion of an [unsigned]. *)
Definition cast_int (u : N) : Z :=
  if (u <? 2 ^ 31)%N then Z.of_N u else (Z.of_N u - 2 ^ 32)%Z.

(** Scalar types of the template parameter [T]. *)
Inductive dtype := f32 | f64.

Definition sizeof (d : dtype) : N := match d with f32 => 4 | f64 => 8 end.
Definition sizeof_float : N := sizeof f32.
Definition sizeof_unsigned : N := 4.

(** The [Param] layout built by hand for the one-dimensional temporaries:
    [dims[0] = d0], [strides[0] = 1], and for [k = 1..3]
    [dims[k] = 1], [strides[k] = dims[k-1] * strides[k-1]]. *)
Record KParam := { dims : list N; strides : list N }.

Fixpoint fill_info (k : nat) (dprev sprev : N) : list N * list N :=
  match k with
  | O => ([], [])
  | S k' =>
      let s := (dprev * sprev)%N in
      let r := fill_info k' 1%N s in
      (1%N :: r.1, s :: r.2)
  end.

Definition param_1d (d0 : N) : KParam :=
  let r := fill_info 3 d0 1%N in
  {| dims := d0 :: r.1; strides := 1%N :: r.2 |}.

(** [info.dims[3] * info.strides[3]], the element count handed to
    [bufferAlloc]. *)
Definition elements (p : KParam) : N :=
  (default 0 (dims p !! 3%nat) * default 0 (strides p !! 3%nat))%N.

(** ** The text of a streamed floating-point constant

    [options << DBL_EPSILON] and [options << FLT_EPSILON] send the constant
    through a [std::ostringstream] with its default flags, which prints it
    as [printf("%g")] does: six significant decimal digits, rounded to
    nearest, trailing zeros removed, in scientific notation when the
    decimal exponent is below -4 or at least 6. *)

(** A positive rational [numer / denom]. *)
Record ratio := { numer : Z; denom : Z }.

Definition ratio_eq (a b : ratio) : Prop := (numer a * denom b = numer b * denom a)%Z.
Definition ratio_lt (a b : ratio) : Prop := (numer a * denom b < numer b * denom a)%Z.
Definition ratio_scale (k : Z) (q : ratio) : ratio :=
  {| numer := k * numer q; denom := denom q |}.

(** The machine epsilon [2^(1-p)] of a binary format with [p] significand
    bits; <cfloat> defines [FLT_EPSILON] and [DBL_EPSILON] as those of
    [float] (24 bits) and [double] (53 bits). *)
Definition machine_epsilon (p : Z) : ratio := {| numer := 1; denom := 2 ^ (p - 1) |}.
Definition FLT_EPSILON : ratio := machine_epsilon 24.
Definition DBL_EPSILON : ratio := machine_epsilon 53.

(** The decimal exponent [x] of [n / d]: [10^x <= n / d < 10^(x+1)]. *)
Fixpoint exponent_up (fuel : nat) (n d x : Z) : Z :=
  match fuel with
  | O => x
  | S fuel' => if (d * 10 <=? n)%Z then exponent_up fuel' n (d * 10) (x + 1) else x
  end.

Fixpoint exponent_down (fuel : nat) (n d x : Z) : Z :=
  match fuel with
  | O => x
  | S fuel' => if (n <? d)%Z then exponent_down fuel' (n * 10) d (x - 1) else x
  end.

Definition decimal_exponent (q : ratio) : Z :=
  let fuel := S (Z.to_nat (Z.log2 (numer q) + Z.log2 (denom q))) in
  if (denom q <=? numer q)%Z
  then exponent_up fuel (numer q) (denom q) 0
  else exponent_down fuel (numer q) (denom q) 0.

(** [a / b] rounded to the nearest integer, ties to even. *)
Definition round_half_even (a b : Z) : Z :=
  let q := (a / b)%Z in
  let r := (a mod b)%Z in
  if (2 * r <? b)%Z then q
  else if (b <? 2 * r)%Z then (q + 1)%Z
  else if Z.even q then q else (q + 1)%Z.

(** The six significant digits of [q], as an integer of six digits, and
    the decimal exponent of the rounded value. *)
Definition significant (q : ratio) : Z * Z :=
  let x := decimal_exponent q in
  let m := if (x <=? 5)%Z
           then round_half_even (numer q * 10 ^ (5 - x)) (denom q)
           else round_half_even (numer q) (denom q * 10 ^ (x - 5)) in
  if (m =? 10 ^ 6)%Z then ((10 ^ 5)%Z, (x + 1)%Z) else (m, x).

(** The number that the printed digits denote: [m * 10^(x-5)]. *)
Definition decimal_value (mx : Z * Z) : ratio :=
  if (5 <=? mx.2)%Z
  then {| numer := mx.1 * 10 ^ (mx.2 - 5); denom := 1 |}
  else {| numer := mx.1; denom := 10 ^ (5 - mx.2) |}.

(** The [width] decimal digits of [m], most significant first. *)
Fixpoint digits_of (width : nat) (m : Z) : list Z :=
  match width with
  | O => []
  | S w => digits_of w (m / 10) ++ [(m mod 10)%Z]
  end.

Fixpoint drop_zeros (ds : list Z) : list Z :=
  match ds with
  | d :: ds' => if (d =? 0)%Z then drop_zeros ds' else ds
  | [] => []
  end.

Definition strip_zeros (ds : list Z) : list Z := reverse (drop_zeros (reverse ds)).

Definition digit_char (d : Z) : Ascii.ascii := Ascii.ascii_of_nat (48 + Z.to_nat d).

Definition chars (ds : list Z) : string :=
  foldr (λ d s, String (digit_char d) s) EmptyString ds.

Definition fraction (ds : list Z) : string :=
  match strip_zeros ds with
  | [] => EmptyString
  | ds' => "." +:+ chars ds'
  end.

(** The exponent: a sign and at least two digits. *)
Definition exponent_text (x : Z) : string :=
  (if (x <? 0)%Z then "-" else "+")
  +:+ chars (digits_of (if (Z.abs x <? 100)%Z then 2 else 3) (Z.abs x)).

(** [stream << q] with the default flags. *)
Definition stream_float (q : ratio) : string :=
  let '(m, x) := significant q in
  let ds := digits_of 6 m in
  if ((x <? -4) || (6 <=? x))%Z then
    chars (take 1 ds) +:+ fraction (drop 1 ds) +:+ "e" +:+ exponent_text x
  else if (0 <=? x)%Z then
    chars (take (S (Z.to_nat x)) ds) +:+ fraction (drop (S (Z.to_nat x)) ds)
  else
    "0." +:+ chars (replicate (Z.to_nat (- x - 1)) 0%Z) +:+ chars (strip_zeros ds).

(** ** Compile options of the one-time program build (lines 66-91) *)

Inductive define :=
| D_T (d : dtype)
| D_USE_DOUBLE
| D_EPS (text : string)
| D_RANSAC
| D_LMEDS.

Definition compile_options (d : dtype) (htype : af_homography_type) : list define :=
  [D_T d]
  ++ (match d with
      | f64 => [D_USE_DOUBLE; D_EPS (stream_float DBL_EPSILON)]
      | f32 => [D_EPS (stream_float FLT_EPSILON)]
      end)
  ++ (match htype with
      | AF_HOMOGRAPHY_RANSAC => [D_RANSAC]
      | AF_HOMOGRAPHY_LMEDS => [D_LMEDS]
      end).

(** Significand bits of the scalar types. *)
Definition significand_bits (d : dtype) : Z := match d with f32 => 24 | f64 => 53 end.

(** The text of the [EPS] macro among the options. *)
Definition eps_of (opts : list define) : option string :=
  head (omap (λ o, match o with D_EPS e => Some e | _ => None end) opts).

(** ** Buffers, kernels and enqueued commands *)

Module Buf.
Inductive t :=
| bestH | H | A | V | err | x_src | y_src | x_dst | y_dst | rnd
| inliers | idx | median | finalMedian | finalIdx
| totalInliers | bestInliers | bestIdx.

#[global] Instance eq_dec : EqDecision t.
Proof. solve_decision. Defined.
End Buf.

Inductive kernel_id :=
| compute_homography | eval_homography | compute_median
| find_min_median | compute_lmeds_inliers.

#[global] Instance kernel_id_eq_dec : EqDecision kernel_id.
Proof. solve_decision. Defined.

Inductive cmd :=
| BuildProgram (options : list define)
| Launch (k : kernel_id) (global local : list N)
| BufferAlloc (b : Buf.t) (bytes : N)
| BufferFree (b : Buf.t)
| EnqueueReadBuffer (b : Buf.t) (offset size : N)
| EnqueueCopyBuffer (src dst : Buf.t) (src_offset dst_offset size : N)
| Sort0 (b : Buf.t)
| Reduce (out inp : Buf.t)
| IReduce (out loc inp : Buf.t).

(** Buffer arguments of each kernel, in the order of the [make_kernel]
    calls of [computeH]. *)
Definition kernel_args (k : kernel_id) : list Buf.t :=
  match k with
  | compute_homography =>
      [Buf.H; Buf.A; Buf.V; Buf.x_src; Buf.y_src; Buf.x_dst; Buf.y_dst; Buf.rnd]
  | eval_homography =>
      [Buf.inliers; Buf.idx; Buf.H; Buf.err;
       Buf.x_src; Buf.y_src; Buf.x_dst; Buf.y_dst; Buf.rnd]
  | compute_median => [Buf.median; Buf.idx; Buf.err]
  | find_min_median => [Buf.finalMedian; Buf.finalIdx; Buf.median; Buf.idx]
  | compute_lmeds_inliers =>
      [Buf.inliers; Buf.bestH; Buf.x_src; Buf.y_src; Buf.x_dst; Buf.y_dst]
  end.

(** Modelled from the spec: the buffers a kernel writes.  The kernels are
    in homography.cl, which is not under src/; by sections 4.1, 4.2 and 4.4
    the solver writes the candidates (and its scratch system and vectors),
    the evaluator writes only its own per-iteration outputs, and the
    classification kernel reads the winning homography. *)
Definition kernel_writes (k : kernel_id) : list Buf.t :=
  match k with
  | compute_homography => [Buf.H; Buf.A; Buf.V]
  | eval_homography => [Buf.inliers; Buf.idx; Buf.err]
  | compute_median => [Buf.median; Buf.idx]
  | find_min_median => [Buf.finalMedian; Buf.finalIdx]
  | compute_lmeds_inliers => [Buf.inliers]
  end.

(** The buffers a command writes. *)
Definition cmd_writes (c : cmd) : list Buf.t :=
  match c with
  | Launch k _ _ => kernel_writes k
  | EnqueueCopyBuffer _ dst _ _ _ => [dst]
  | Sort0 b => [b]
  | Reduce out _ => [out]
  | IReduce out loc _ => [out; loc]
  | BuildProgram _ | BufferAlloc _ _ | BufferFree _ | EnqueueReadBuffer _ _ _ => []
  end.

Definition writes_to (b : Buf.t) (c : cmd) : bool := bool_decide (b ∈ cmd_writes c).

Definition is_launch (c : cmd) : bool :=
  match c with Launch _ _ _ => true | _ => false end.

(** ** Scalars

    The template parameter [T] (the scalar of the candidate homographies,
    [float] or [double]), the coordinate scalar and the single-precision
    [float] of residuals, medians and of [inlier_thr] are kept abstract,
    together with the numerical routines of the kernels: the solve of the
    sampled linear system, the reprojection error and the median of a sorted
    line.  The comparisons of residuals form a strict weak order, as the
    comparison of floating-point values other than NaN does, and a solve
    yields the nine coefficients of a homography. *)
Class Numerics := {
  T : Type;
  T_dtype : dtype;
  coord : Type;
  flt : Type;
  flt_uninit : flt;
  flt_ltb : flt → flt → bool;
  flt_leb : flt → flt → bool;
  solve_h : list (coord * coord * coord * coord) → list T;
  reproj : list T → coord * coord * coord * coord → flt;
  median_sorted : list flt → flt;
  flt_ltb_irrefl : ∀ a, flt_ltb a a = false;
  flt_ltb_trans : ∀ a b c,
    flt_ltb a b = true → flt_ltb b c = true → flt_ltb a c = true;
  flt_ltb_negtrans : ∀ a b c,
    flt_ltb a b = false → flt_ltb b c = false → flt_ltb a c = false;
  solve_h_length : ∀ s, length (solve_h s) = 9
}.

(** A correspondence: source x, source y, destination x, destination y. *)
Definition corr `{num : Numerics} : Type := (coord * coord * coord * coord)%type.

(** ** Device memory

    [bestH] and [H] hold [T]; [median] and [finalMedian] hold [float];
    [inliers], [idx] and the other index and count buffers hold [unsigned];
    [err] is the residual matrix, one dimension-0 line per iteration; the
    four coordinate buffers and the table of sample indices [rnd] (one row
    per iteration) are the read-only inputs. *)
Record mem `{num : Numerics} := {
  mT : Buf.t → list T;
  mF : Buf.t → list flt;
  mU : Buf.t → list nat;
  mErr : list (list flt);
  mCoord : Buf.t → list coord;
  mRnd : list (list nat)
}.

Section Kernels.
Context `{num : Numerics}.

Definition set_mT (b : Buf.t) (v : list T) (m : mem) : mem :=
  {| mT := <[b := v]> (mT m); mF := mF m; mU := mU m;
     mErr := mErr m; mCoord := mCoord m; mRnd := mRnd m |}.

Definition set_mF (b : Buf.t) (v : list flt) (m : mem) : mem :=
  {| mT := mT m; mF := <[b := v]> (mF m); mU := mU m;
     mErr := mErr m; mCoord := mCoord m; mRnd := mRnd m |}.

Definition set_mU (b : Buf.t) (v : list nat) (m : mem) : mem :=
  {| mT := mT m; mF := mF m; mU := <[b := v]> (mU m);
     mErr := mErr m; mCoord := mCoord m; mRnd := mRnd m |}.

Definition set_mErr (v : list (list flt)) (m : mem) : mem :=
  {| mT := mT m; mF := mF m; mU := mU m;
     mErr := v; mCoord := mCoord m; mRnd := mRnd m |}.

(** The correspondence with index [j], when all four coordinate buffers
    have it. *)
Definition corr_at (m : mem) (j : nat) : option corr :=
  x ← mCoord m Buf.x_src !! j;
  y ← mCoord m Buf.y_src !! j;
  x' ← mCoord m Buf.x_dst !! j;
  y' ← mCoord m Buf.y_dst !! j;
  Some (x, y, x', y').

(** The correspondences a kernel visits when it is handed the bound [n]:
    indices [0 .. n-1].  A read past the end of a coordinate buffer is
    undefined in OpenCL; here such an index is skipped. *)
Definition corrs (m : mem) (n : nat) : list corr := omap (corr_at m) (seq 0 n).

(** Row [i] of the flat, stride-9 array of candidate homographies. *)
Definition H_row (Hb : list T) (i : nat) : list T := take 9 (drop (9 * i) Hb).

(** ** Parallel loops

    A kernel phase runs its work-items in an order chosen by the device;
    [sched] lists the work-item ids in that order (the head of the list
    runs last). *)
Definition par_for {S : Type} (sched : list nat) (body : nat → S → S) (s : S) : S :=
  foldr body s sched.

(** Modelled from the spec: slot [i] of a per-work-item scratch array
    receives [f i], for the work-items below [bound] (the kernels guard
    their body with the bound they are handed). *)
Definition scatter {A : Type} (bound : nat) (f : nat → A) (i : nat) (l : list A) : list A :=
  if decide (i < bound) then <[i := f i]> l else l.

(** ** Index reductions *)

(** Modelled from the spec: the reduction that picks the best score keeps
    the value seen first on equal values (section 4.3: "first-seen wins,
    the natural result of any max-reduction that does not overwrite on
    equal values").  [better a b] says that score [a] strictly beats [b];
    every score travels with the index it came from. *)
Definition pick_first {A : Type} (better : A → A → bool) (cur new : A * nat) : A * nat :=
  if better new.1 cur.1 then new else cur.

(** Modelled from the spec: one pass of [pick_first] over the scored
    candidates, from the first to the last. *)
Definition reduce_first {A : Type} (better : A → A → bool) (l : list (A * nat))
  : option (A * nat) :=
  match l with
  | [] => None
  | x :: l' => Some (foldl (pick_first better) x l')
  end.

(** Modelled from the spec: more inliers is better (RANSAC, [argmax] of
    section 4.3). *)
Definition more_inliers (a b : nat) : bool := bool_decide (b < a).

(** Modelled from the spec: a smaller median is better (LMedS, [argmin]
    of section 4.3). *)
Definition smaller_median (a b : flt) : bool := flt_ltb a b.

(** Modelled from the spec: the scored iterations of work-group [b], the
    work-items [256 b .. 256 b + 255] that are below [iterations]. *)
Definition block_cands {A : Type} (scores : list A) (iterations b : nat) : list (A * nat) :=
  omap (λ i, if decide (i < iterations) then (λ v, (v, i)) <$> scores !! i else None)
       (seq (256 * b) 256).

(** Modelled from the spec: after the barrier, the first work-item of
    each work-group acts for the group; [body b] is run by work-item
    [256 b]. *)
Definition at_leader {S : Type} (body : nat → S → S) (i : nat) (s : S) : S :=
  if decide (i mod 256 = 0) then body (i / 256) s else s.

(** Modelled from the spec: the leader writes the group's best score and
    the iteration it belongs to into slot [b] of the two output arrays. *)
Definition select_best {A : Type} (better : A → A → bool) (scores : list A)
    (iterations : nat) (b : nat) (out : list A * list nat) : list A * list nat :=
  match reduce_first better (block_cands scores iterations b) with
  | Some (v, w) => (<[b := v]> out.1, <[b := w]> out.2)
  | None => out
  end.

(** Modelled from the spec: the selection step of a work-item. *)
Definition block_select {A : Type} (better : A → A → bool) (scores : list A)
    (iterations : nat) : nat → list A * list nat → list A * list nat :=
  at_leader (select_best better scores iterations).

(** ** The kernels *)

(** Modelled from the spec: the correspondences named by row [i] of
    [rnd] (section 4.1). *)
Definition samples (m : mem) (i : nat) : list corr :=
  omap (corr_at m) (default [] (mRnd m !! i)).

(** Modelled from the spec: the logical thread of iteration [i] of
    [compute_homography] solves the system of its samples and writes row
    [i] of [H], nine scalars, already normalised by the solver. *)
Definition ch_item (m : mem) (iterations : nat) (i : nat) (Hb : list T) : list T :=
  if decide (i < iterations)
  then list_inserts (9 * i) (take 9 (solve_h (samples m i))) Hb
  else Hb.

(** Modelled from the spec: [compute_homography] (section 4.1), every
    iteration independently of the others. *)
Definition compute_homography_kernel (sched : list nat) (iterations : nat) (m : mem) : mem :=
  set_mT Buf.H (par_for sched (ch_item m iterations) (mT m Buf.H)) m.

(** Modelled from the spec: the number of correspondences whose
    reprojection error is at most the threshold (section 4.2). *)
Definition count_inliers (h : list T) (cs : list corr) (thr : flt) : nat :=
  length (List.filter (λ c, flt_leb (reproj h c) thr) cs).

(** Modelled from the spec: the reprojection errors in correspondence
    order (section 4.2). *)
Definition residuals (h : list T) (cs : list corr) : list flt := reproj h <$> cs.

(** Modelled from the spec: the RANSAC score of iteration [i]; the kernel
    is handed [nsamples] as the number of correspondences to visit. *)
Definition ransac_score (m : mem) (nsamples : nat) (thr : flt) (i : nat) : nat :=
  count_inliers (H_row (mT m Buf.H) i) (corrs m nsamples) thr.

(** Modelled from the spec: in LMedS mode work-item [i] stores its
    residuals into line [i] of [err]. *)
Definition eh_store (m : mem) (iterations nsamples : nat) (i : nat)
    (e : list (list flt)) : list (list flt) :=
  if decide (i < iterations)
  then alter (list_inserts 0 (residuals (H_row (mT m Buf.H) i) (corrs m nsamples))) i e
  else e.

(** Modelled from the spec: [eval_homography] (section 4.2).  In RANSAC
    mode each work-group leaves its best count and the iteration that
    reached it in slot [group id] of [inliers] and [idx]; in LMedS mode the
    kernel fills [err] and nothing else. *)
Definition eval_homography_kernel (sched : list nat) (htype : af_homography_type)
    (iterations nsamples : nat) (thr : flt) (m : mem) : mem :=
  match htype with
  | AF_HOMOGRAPHY_RANSAC =>
      let scores :=
        par_for sched (scatter iterations (ransac_score m nsamples thr))
                (replicate (length sched) 0) in
      let out :=
        par_for sched (block_select more_inliers scores iterations)
                (mU m Buf.inliers, mU m Buf.idx) in
      set_mU Buf.idx out.2 (set_mU Buf.inliers out.1 m)
  | AF_HOMOGRAPHY_LMEDS =>
      set_mErr (par_for sched (eh_store m iterations nsamples) (mErr m)) m
  end.

(** Modelled from the spec: the LMedS score of an iteration is the median
    of its line of [err], which the host has sorted (section 4.3); the
    convention for an even number of residuals is the one of
    [median_sorted]. *)
Definition lmeds_score (m : mem) (i : nat) : flt :=
  median_sorted (default [] (mErr m !! i)).

(** Modelled from the spec: [compute_median] (section 4.3).  Each
    work-group leaves its smallest median and the iteration that reached it
    in [median] and [idx]. *)
Definition compute_median_kernel (sched : list nat) (iterations : nat) (m : mem) : mem :=
  let scores :=
    par_for sched (scatter iterations (lmeds_score m))
            (replicate (length sched) flt_uninit) in
  let out :=
    par_for sched (block_select smaller_median scores iterations)
            (mF m Buf.median, mU m Buf.idx) in
  set_mU Buf.idx out.2 (set_mF Buf.median out.1 m).

(** Modelled from the spec: [find_min_median] (section 4.3), one
    work-group that reduces the per-group medians to the smallest one,
    first-seen on ties, and its iteration. *)
Definition find_min_median_kernel (m : mem) : mem :=
  match reduce_first smaller_median (zip (mF m Buf.median) (mU m Buf.idx)) with
  | Some (v, w) =>
      set_mU Buf.finalIdx (<[0 := w]> (mU m Buf.finalIdx))
        (set_mF Buf.finalMedian (<[0 := v]> (mF m Buf.finalMedian)) m)
  | None => m
  end.

(** Modelled from the spec: work-item [j] of [compute_lmeds_inliers]
    flags correspondence [j] as an inlier when its residual under the
    homography in [bestH] is below [minMedian] (section 4.4). *)
Definition lmeds_flag (m : mem) (minMedian : flt) (j : nat) : nat :=
  match corr_at m j with
  | Some c => if flt_ltb (reproj (take 9 (mT m Buf.bestH)) c) minMedian then 1 else 0
  | None => 0
  end.

(** Modelled from the spec: the sum of the flags of work-group [b], left
    in slot [b] of the output. *)
Definition sum_flags (flags : list nat) (b : nat) (out : list nat) : list nat :=
  <[b := sum_list (take 256 (drop (256 * b) flags))]> out.

(** Modelled from the spec: the summing step of a work-item. *)
Definition block_sum (flags : list nat) : nat → list nat → list nat :=
  at_leader (sum_flags flags).

(** Modelled from the spec: [compute_lmeds_inliers] (section 4.4); the
    kernel is handed [nsamples] as the number of correspondences.  Each
    work-group leaves the sum of its flags in slot [group id] of
    [inliers]. *)
Definition compute_lmeds_inliers_kernel (sched : list nat) (minMedian : flt)
    (nsamples : nat) (m : mem) : mem :=
  let flags :=
    par_for sched (scatter nsamples (lmeds_flag m minMedian))
            (replicate (length sched) 0) in
  set_mU Buf.inliers (par_for sched (block_sum flags) (mU m Buf.inliers)) m.

(** ** The primitives of sort.hpp, reduce.hpp and ireduce.hpp *)

(** The order of an ascending sort: [a] is not above [b]. *)
Definition flt_le (a b : flt) : Prop := flt_ltb b a = false.

#[global] Instance flt_le_dec a b : Decision (flt_le a b).
Proof. unfold flt_le. apply _. Defined.

(** Modelled from the spec: [sort0<float, true>] sorts every dimension-0
    line ascending (section 6: "a parallel sort primitive over a residual
    array, ascending"). *)
Definition sort0 (e : list (list flt)) : list (list flt) := merge_sort flt_le <$> e.

(** Modelled from the spec: [reduce<unsigned, unsigned, af_add_t>] along
    dimension 0 of a one-dimensional array: the sum of its elements. *)
Definition reduce_add (out inp : Buf.t) (m : mem) : mem :=
  set_mU out (<[0 := sum_list (mU m inp)]> (mU m out)) m.

(** Modelled from the spec: [ireduce<unsigned, af_max_t>] along
    dimension 0: the maximum and its position, the first position on equal
    values (section 6: "deterministic first-index tie-break"). *)
Definition ireduce_max (out loc inp : Buf.t) (m : mem) : mem :=
  match reduce_first more_inliers (imap (λ b v, (v, b)) (mU m inp)) with
  | Some (v, b) => set_mU loc (<[0 := b]> (mU m loc)) (set_mU out (<[0 := v]> (mU m out)) m)
  | None => m
  end.

End Kernels.

(** ** The execution substrate

    [faults n] tells whether the [n]-th call into the OpenCL runtime or the
    memory manager (counted from 0 over the commands logged so far) raises
    an error; [order k] is the order in which the device runs the
    work-items of a launch of kernel [k]. *)
Record Env := {
  faults : nat → bool;
  order : kernel_id → list nat → list nat
}.

(** The device runs every work-item of a launch exactly once. *)
Definition valid_order (env : Env) : Prop := ∀ k l, order env k l ≡ₚ l.

Definition no_faults (env : Env) : Prop := ∀ n, faults env n = false.

(** ** The host monad: state, log of commands, exceptions *)

Inductive result (A : Type) := Ok (a : A) | Threw.
Arguments Ok {A} a.
Arguments Threw {A}.

(** The state seen by one call: the device memory, the log of the commands
    enqueued so far, and [s_compiled], the [once_flag] of the call:
    [compileFlags[device]] for the device that [getActiveDeviceId()]
    returns at the call (lines 56 and 64-66; one flag per device and per
    instantiation). *)
Record state `{num : Numerics} := {
  s_mem : mem;
  s_trace : list cmd;
  s_compiled : bool
}.

Definition M `{num : Numerics} (A : Type) : Type := state → state * result A.

#[global] Instance M_ret `{num : Numerics} : MRet M := λ A a s, (s, Ok a).

#[global] Instance M_bind `{num : Numerics} : MBind M := λ A B f m s,
  match m s with
  | (s', Ok a) => f a s'
  | (s', Threw) => (s', Threw)
  end.

Section Host.
Context `{num : Numerics} (env : Env).

(** A call into the runtime: it throws when the substrate faults at this
    step or rejects the arguments, and otherwise is logged and takes
    effect. *)
Definition substrate_call {A : Type} (c : cmd) (f : mem → option (mem * A)) : M A :=
  λ s,
    if faults env (length (s_trace s)) then (s, Threw)
    else match f (s_mem s) with
         | Some (m', a) =>
             ({| s_mem := m'; s_trace := s_trace s ++ [c];
                 s_compiled := s_compiled s |}, Ok a)
         | None => (s, Threw)
         end.

(** [std::call_once(compileFlags[device], ...)]: the program is built with
    the options of this instantiation on the first call on the active
    device, whose flag is [s_compiled]; the flag is set only when the build
    returns. *)
Definition call_once_build (htype : af_homography_type) : M unit :=
  λ s,
    if s_compiled s then (s, Ok ())
    else match substrate_call (BuildProgram (compile_options T_dtype htype))
                 (λ m, Some (m, ())) s with
         | (s', Ok _) =>
             ({| s_mem := s_mem s'; s_trace := s_trace s'; s_compiled := true |}, Ok ())
         | (s', Threw) => (s', Threw)
         end.

Definition launch (k : kernel_id) (global local : list N) (eff : mem → mem) : M unit :=
  substrate_call (Launch k global local) (λ m, Some (eff m, ())).

(** The work-items of a launch over [n] ids, in device order. *)
Definition work_items (k : kernel_id) (n : N) : list nat :=
  order env k (seq 0 (N.to_nat n)).

(** [bufferAlloc(bytes)]: a fresh buffer; its contents are unspecified and
    stand here as zeros, respectively [flt_uninit]. *)
Definition bufferAlloc_unsigned (b : Buf.t) (bytes : N) : M unit :=
  substrate_call (BufferAlloc b bytes)
    (λ m, Some (set_mU b (replicate (N.to_nat (bytes / sizeof_unsigned)) 0) m, ())).

Definition bufferAlloc_float (b : Buf.t) (bytes : N) : M unit :=
  substrate_call (BufferAlloc b bytes)
    (λ m, Some (set_mF b (replicate (N.to_nat (bytes / sizeof_float)) flt_uninit) m, ())).

(** [bufferFree] hands the buffer back to the memory manager. *)
Definition bufferFree (b : Buf.t) : M unit :=
  λ s, ({| s_mem := s_mem s; s_trace := s_trace s ++ [BufferFree b];
           s_compiled := s_compiled s |}, Ok ()).

(** Blocking [enqueueReadBuffer] of one [unsigned] or one [float] at a byte
    offset; an offset outside the buffer is rejected by the runtime. *)
Definition enqueueReadBuffer_unsigned (b : Buf.t) (offset : N) : M N :=
  substrate_call (EnqueueReadBuffer b offset sizeof_unsigned)
    (λ m, v ← mU m b !! N.to_nat (offset / sizeof_unsigned); Some (m, N.of_nat v)).

Definition enqueueReadBuffer_float (b : Buf.t) (offset : N) : M flt :=
  substrate_call (EnqueueReadBuffer b offset sizeof_float)
    (λ m, v ← mF m b !! N.to_nat (offset / sizeof_float); Some (m, v)).

(** [enqueueCopyBuffer(src, dst, src_offset, dst_offset, size)] between
    buffers of [T], offsets and size in bytes. *)
Definition copy_T (src dst : Buf.t) (src_offset dst_offset size : N) (m : mem) : option mem :=
  let s := N.to_nat (src_offset / sizeof T_dtype) in
  let d := N.to_nat (dst_offset / sizeof T_dtype) in
  let n := N.to_nat (size / sizeof T_dtype) in
  if decide (s + n ≤ length (mT m src) ∧ d + n ≤ length (mT m dst))
  then Some (set_mT dst (list_inserts d (take n (drop s (mT m src))) (mT m dst)) m)
  else None.

Definition enqueueCopyBuffer (src dst : Buf.t) (src_offset dst_offset size : N) : M unit :=
  substrate_call (EnqueueCopyBuffer src dst src_offset dst_offset size)
    (λ m, m' ← copy_T src dst src_offset dst_offset size m; Some (m', ())).

Definition sort0_call : M unit :=
  substrate_call (Sort0 Buf.err) (λ m, Some (set_mErr (sort0 (mErr m)) m, ())).

Definition reduce_call (out inp : Buf.t) : M unit :=
  substrate_call (Reduce out inp) (λ m, Some (reduce_add out inp m, ())).

Definition ireduce_call (out loc inp : Buf.t) : M unit :=
  substrate_call (IReduce out loc inp) (λ m, Some (ireduce_max out loc inp m, ())).

(** The five kernel functors of [computeH]. *)
Definition chOp (global local : list N) (iterations : N) : M unit :=
  launch compute_homography global local
    (compute_homography_kernel
       (work_items compute_homography (default 0%N (global !! 1%nat)))
       (N.to_nat iterations)).

Definition ehOp (global local : list N) (htype : af_homography_type)
    (iterations nsamples : N) (inlier_thr : flt) : M unit :=
  launch eval_homography global local
    (eval_homography_kernel
       (work_items eval_homography (default 0%N (global !! 0%nat)))
       htype (N.to_nat iterations) (N.to_nat nsamples) inlier_thr).

Definition cmOp (global local : list N) (iterations : N) : M unit :=
  launch compute_median global local
    (compute_median_kernel
       (work_items compute_median (default 0%N (global !! 0%nat)))
       (N.to_nat iterations)).

Definition fmOp (global local : list N) : M unit :=
  launch find_min_median global local find_min_median_kernel.

Definition clOp (global local : list N) (minMedian : flt) (nsamples : N) : M unit :=
  launch compute_lmeds_inliers global local
    (compute_lmeds_inliers_kernel
       (work_items compute_lmeds_inliers (default 0%N (global !! 0%nat)))
       minMedian (N.to_nat nsamples)).

(** ** [computeH], lines 40-257 *)

(** Lines 166-191: the smallest median and its iteration; the per-group
    medians are reduced on the device only when there is more than one
    work-group ("only in case iterations > 256"). *)
Definition min_median (blk_x_eh : N) : M (flt * N) :=
  if (1 <? blk_x_eh)%N then
    let local_fm := [HG_THREADS] in
    let global_fm := [HG_THREADS] in
    bufferAlloc_float Buf.finalMedian sizeof_float ;;
    bufferAlloc_unsigned Buf.finalIdx sizeof_unsigned ;;
    fmOp global_fm local_fm ;;
    minMedian ← enqueueReadBuffer_float Buf.finalMedian 0;
    minIdx ← enqueueReadBuffer_unsigned Buf.finalIdx 0;
    bufferFree Buf.finalMedian ;;
    bufferFree Buf.finalIdx ;;
    mret (minMedian, minIdx)
  else
    minMedian ← enqueueReadBuffer_float Buf.median 0;
    minIdx ← enqueueReadBuffer_unsigned Buf.idx 0;
    mret (minMedian, minIdx).

(** Lines 196-221: classification against the scale and the sum of the
    flags. *)
Definition lmeds_inliers (minMedian : flt) (nsamples : N) : M N :=
  let blk_x_cl := divup nsamples HG_THREADS in
  let local_cl := [HG_THREADS] in
  let global_cl := [(blk_x_cl * HG_THREADS)%N] in
  clOp global_cl local_cl minMedian nsamples ;;
  bufferAlloc_unsigned Buf.totalInliers sizeof_unsigned ;;
  reduce_call Buf.totalInliers Buf.inliers ;;
  inliersH ← enqueueReadBuffer_unsigned Buf.totalInliers 0;
  bufferFree Buf.totalInliers ;;
  mret inliersH.

(** Lines 149-222: the LMedS branch. *)
Definition lmeds_branch (iterations nsamples : N) (blk_x_eh : N)
    (global_eh local_eh : list N) : M N :=
  sort0_call ;;
  cmOp global_eh local_eh iterations ;;
  '(minMedian, minIdx) ← min_median blk_x_eh;
  enqueueCopyBuffer Buf.H Buf.bestH
    (wrap32 (minIdx * 9) * sizeof T_dtype) 0 (9 * sizeof T_dtype) ;;
  lmeds_inliers minMedian nsamples.

(** Lines 223-246: the RANSAC branch. *)
Definition ransac_branch : M N :=
  bufferAlloc_unsigned Buf.bestInliers sizeof_unsigned ;;
  bufferAlloc_unsigned Buf.bestIdx sizeof_unsigned ;;
  ireduce_call Buf.bestInliers Buf.bestIdx Buf.inliers ;;
  blockIdx ← enqueueReadBuffer_unsigned Buf.bestIdx 0;
  idxH ← enqueueReadBuffer_unsigned Buf.idx (blockIdx * sizeof_unsigned);
  inliersH ← enqueueReadBuffer_unsigned Buf.bestInliers 0;
  enqueueCopyBuffer Buf.H Buf.bestH
    (wrap32 (idxH * 9) * sizeof T_dtype) 0 (9 * sizeof T_dtype) ;;
  bufferFree Buf.bestInliers ;;
  bufferFree Buf.bestIdx ;;
  mret inliersH.

(** The body of the [try] block.  The block counts [blk_*] are [int]s and
    so are their products with the group sizes; written here without
    wrap-around, they are the products of the code as long as they stay
    below [2^31], which [iterations * 9 < 2^32] and [nsamples + 255 < 2^31]
    ensure.  The handler rethrows, so a step that throws ends the call
    with that throw. *)
Definition computeH (htype : af_homography_type) (iterations nsamples : N)
    (inlier_thr : flt) : M Z :=
  call_once_build htype ;;
  let blk_x_ch := 1%N in
  let blk_y_ch := divup iterations HG_THREADS_Y in
  let local_ch := [HG_THREADS_X; HG_THREADS_Y] in
  let global_ch := [(blk_x_ch * HG_THREADS_X)%N; (blk_y_ch * HG_THREADS_Y)%N] in
  chOp global_ch local_ch iterations ;;
  let blk_x_eh := divup iterations HG_THREADS in
  let local_eh := [HG_THREADS] in
  let global_eh := [(blk_x_eh * HG_THREADS)%N] in
  let inliers_info :=
    param_1d (match htype with
              | AF_HOMOGRAPHY_RANSAC => blk_x_eh
              | AF_HOMOGRAPHY_LMEDS => divup nsamples HG_THREADS
              end) in
  let idx_info := param_1d blk_x_eh in
  let median_info := param_1d blk_x_eh in
  bufferAlloc_unsigned Buf.idx (elements idx_info * sizeof_unsigned) ;;
  bufferAlloc_unsigned Buf.inliers (elements inliers_info * sizeof_unsigned) ;;
  match htype with
  | AF_HOMOGRAPHY_LMEDS =>
      bufferAlloc_float Buf.median (elements median_info * sizeof_float)
  | AF_HOMOGRAPHY_RANSAC => bufferAlloc_float Buf.median sizeof_float
  end ;;
  ehOp global_eh local_eh htype iterations nsamples inlier_thr ;;
  inliersH ←
    match htype with
    | AF_HOMOGRAPHY_LMEDS => lmeds_branch iterations nsamples blk_x_eh global_eh local_eh
    | AF_HOMOGRAPHY_RANSAC => ransac_branch
    end;
  bufferFree Buf.inliers ;;
  bufferFree Buf.idx ;;
  bufferFree Buf.median ;;
  mret (cast_int inliersH).

End Host.

(** The candidates as the solver leaves them when its work-items run in
    order. *)
Definition solved `{num : Numerics} (its : N) (m0 : mem) : mem :=
  compute_homography_kernel
    (seq 0 (N.to_nat (divup its HG_THREADS_Y * HG_THREADS_Y))) (N.to_nat its) m0.

(** The residual matrix as the evaluator leaves it in LMedS mode, its
    work-items in order. *)
Definition evaluated_err `{num : Numerics} (its ns : N) (m0 : mem) : list (list flt) :=
  par_for (seq 0 (N.to_nat (divup its HG_THREADS * HG_THREADS)))
          (eh_store (solved its m0) (N.to_nat its) (N.to_nat ns)) (mErr m0).

(** The same substrate with every launch running its work-items in the
    order [0, 1, 2, ...]. *)
Definition in_order (env : Env) : Env :=
  {| faults := faults env; order := λ _ l, l |}.

(** The same substrate with no fault. *)
Definition fault_free (env : Env) : Env :=
  {| faults := λ _, false; order := order env |}.

(** ** Selection of the winning iteration, stated on scores *)

(** Iteration [w] is the first best of the [n] scores [sc 0 .. sc (n-1)]:
    no score beats its score, and its score beats every earlier one. *)
Definition is_first_best {A : Type} (better : A → A → bool) (sc : nat → A) (n w : nat) : Prop :=
  w < n
  ∧ (∀ j, j < n → better (sc j) (sc w) = false)
  ∧ (∀ j, j < w → better (sc w) (sc j) = true).

(** The scored iterations [a .. a+k-1], each with its index. *)
Definition cands {A : Type} (sc : nat → A) (a k : nat) : list (A * nat) :=
  (λ i, (sc i, i)) <$> seq a k.

(** The first best of [n] scores, computed by one pass. *)
Definition first_best {A : Type} (better : A → A → bool) (sc : nat → A) (n : nat) : nat :=
  (default (sc 0, 0) (reduce_first better (cands sc 0 n))).2.

(** The best of work-group [b] among [iterations] scores. *)
Definition block_len (iterations b : nat) : nat := 256 `min` (iterations - 256 * b).

Definition block_best {A : Type} (better : A → A → bool) (sc : nat → A)
    (iterations b : nat) : A * nat :=
  default (sc (256 * b), 256 * b)
          (reduce_first better (cands sc (256 * b) (block_len iterations b))).

(** ** The commands of a call that runs to its end

    The log that [computeH] leaves when no step throws, read off the host
    code: the one-time build, lines 93-146, the branch of the estimator
    kind, and the three final [bufferFree]. *)
Definition build_cmds (d : dtype) (htype : af_homography_type) (compiled : bool) : list cmd :=
  if compiled then [] else [BuildProgram (compile_options d htype)].

Definition setup_cmds (htype : af_homography_type) (iterations nsamples : N) : list cmd :=
  let blk_x_eh := divup iterations HG_THREADS in
  [ Launch compute_homography
      [(1 * HG_THREADS_X)%N; (divup iterations HG_THREADS_Y * HG_THREADS_Y)%N]
      [HG_THREADS_X; HG_THREADS_Y];
    BufferAlloc Buf.idx (elements (param_1d blk_x_eh) * sizeof_unsigned);
    BufferAlloc Buf.inliers
      (elements (param_1d (match htype with
                           | AF_HOMOGRAPHY_RANSAC => blk_x_eh
                           | AF_HOMOGRAPHY_LMEDS => divup nsamples HG_THREADS
                           end)) * sizeof_unsigned);
    BufferAlloc Buf.median
      (match htype with
       | AF_HOMOGRAPHY_LMEDS => elements (param_1d blk_x_eh) * sizeof_float
       | AF_HOMOGRAPHY_RANSAC => sizeof_float
       end);
    Launch eval_homography [(blk_x_eh * HG_THREADS)%N] [HG_THREADS] ].

Definition copy_cmd (d : dtype) (index : N) : cmd :=
  EnqueueCopyBuffer Buf.H Buf.bestH (wrap32 (index * 9) * sizeof d) 0 (9 * sizeof d).

Definition ransac_cmds (d : dtype) (blockIdx idxH : N) : list cmd :=
  [ BufferAlloc Buf.bestInliers sizeof_unsigned;
    BufferAlloc Buf.bestIdx sizeof_unsigned;
    IReduce Buf.bestInliers Buf.bestIdx Buf.inliers;
    EnqueueReadBuffer Buf.bestIdx 0 sizeof_unsigned;
    EnqueueReadBuffer Buf.idx (blockIdx * sizeof_unsigned) sizeof_unsigned;
    EnqueueReadBuffer Buf.bestInliers 0 sizeof_unsigned;
    copy_cmd d idxH;
    BufferFree Buf.bestInliers;
    BufferFree Buf.bestIdx ].

Definition min_median_cmds (blk_x_eh : N) : list cmd :=
  if (1 <? blk_x_eh)%N then
    [ BufferAlloc Buf.finalMedian sizeof_float;
      BufferAlloc Buf.finalIdx sizeof_unsigned;
      Launch find_min_median [HG_THREADS] [HG_THREADS];
      EnqueueReadBuffer Buf.finalMedian 0 sizeof_float;
      EnqueueReadBuffer Buf.finalIdx 0 sizeof_unsigned;
      BufferFree Buf.finalMedian;
      BufferFree Buf.finalIdx ]
  else
    [ EnqueueReadBuffer Buf.median 0 sizeof_float;
      EnqueueReadBuffer Buf.idx 0 sizeof_unsigned ].

Definition median_cmds (iterations : N) : list cmd :=
  let blk_x_eh := divup iterations HG_THREADS in
  [ Sort0 Buf.err;
    Launch compute_median [(blk_x_eh * HG_THREADS)%N] [HG_THREADS] ]
  ++ min_median_cmds blk_x_eh.

Definition refine_cmds (nsamples : N) : list cmd :=
  [ Launch compute_lmeds_inliers [(divup nsamples HG_THREADS * HG_THREADS)%N] [HG_THREADS];
    BufferAlloc Buf.totalInliers sizeof_unsigned;
    Reduce Buf.totalInliers Buf.inliers;
    EnqueueReadBuffer Buf.totalInliers 0 sizeof_unsigned;
    BufferFree Buf.totalInliers ].

Definition lmeds_cmds (d : dtype) (iterations nsamples minIdx : N) : list cmd :=
  median_cmds iterations ++ [copy_cmd d minIdx] ++ refine_cmds nsamples.

Definition cleanup_cmds : list cmd :=
  [BufferFree Buf.inliers; BufferFree Buf.idx; BufferFree Buf.median].

(** The number of inliers of the LMedS refinement: the correspondences
    whose residual under [h] is below [scale]. *)
Definition count_below `{num : Numerics} (h : list T) (cs : list corr) (scale : flt) : nat :=
  length (List.filter (λ c, flt_ltb (reproj h c) scale) cs).

(** ** Relations between the states before and after a command *)

(** [m'] returns whatever [m] returns. *)
Definition ok_le `{num : Numerics} {A : Type} (m m' : M A) : Prop :=
  ∀ s s1 a, m s = (s1, Ok a) → m' s = (s1, Ok a).

(** Whatever the outcome, the states before and after are related by [R]. *)
Definition respects `{num : Numerics} {A : Type} (R : state → state → Prop) (m : M A) : Prop :=
  ∀ s s' r, m s = (s', r) → R s s'.

(** When the command throws, the states before and after are related by [R]. *)
Definition throws_within `{num : Numerics} {A : Type} (R : state → state → Prop) (m : M A) : Prop :=
  ∀ s s', m s = (s', Threw) → R s s'.

Definition never_throws `{num : Numerics} {A : Type} (m : M A) : Prop :=
  ∀ s s', m s ≠ (s', Threw).

(** [bestH] holds what it held. *)
Definition same_bestH `{num : Numerics} (s s' : state) : Prop :=
  mT (s_mem s') Buf.bestH = mT (s_mem s) Buf.bestH.

(** The log has grown by [t], and [bestH] holds what it held unless a copy
    into it is among the commands of [t]. *)
Definition grown_by `{num : Numerics} (t : list cmd) (s s' : state) : Prop :=
  s_trace s' = s_trace s ++ t
  ∧ (same_bestH s s' ∨ ∃ index, copy_cmd T_dtype index ∈ t).

Definition bestH_guarded `{num : Numerics} (s s' : state) : Prop := ∃ t, grown_by t s s'.

(** A runtime call whose effect leaves [bestH] alone. *)
Definition keeps_bestH `{num : Numerics} {A : Type} (f : mem → option (mem * A)) : Prop :=
  ∀ m m' a, f m = Some (m', a) → mT m' Buf.bestH = mT m Buf.bestH.

(** ** An instance on exact integers, to run the host code

    Scalars are integers compared by [<] and [<=]; the stand-in solver
    fits the translation that maps the first sampled source point onto its
    destination point, the reprojection error is the squared distance
    under the upper two rows of the candidate, and the median of a sorted
    line is its element at index [length / 2]. *)
Definition Z_coeff (h : list Z) (k : nat) : Z := default 0%Z (h !! k).

Definition Z_solve (s : list (Z * Z * Z * Z)) : list Z :=
  match s with
  | (x, y, x', y') :: _ => [1; 0; x' - x; 0; 1; y' - y; 0; 0; 1]%Z
  | [] => [1; 0; 0; 0; 1; 0; 0; 0; 1]%Z
  end.

Definition Z_reproj (h : list Z) (c : Z * Z * Z * Z) : Z :=
  let '(x, y, x', y') := c in
  ((Z_coeff h 0 * x + Z_coeff h 1 * y + Z_coeff h 2 - x') ^ 2
   + (Z_coeff h 3 * x + Z_coeff h 4 * y + Z_coeff h 5 - y') ^ 2)%Z.

Definition Z_median (l : list Z) : Z := default 0%Z (l !! (length l / 2)).

Lemma Z_ltb_trans (a b c : Z) :
  (a <? b)%Z = true → (b <? c)%Z = true → (a <? c)%Z = true.
Proof. rewrite !Z.ltb_lt. lia. Qed.

Lemma Z_ltb_negtrans (a b c : Z) :
  (a <? b)%Z = false → (b <? c)%Z = false → (a <? c)%Z = false.
Proof. rewrite !Z.ltb_ge. lia. Qed.

Lemma Z_solve_length (s : list (Z * Z * Z * Z)) : length (Z_solve s) = 9.
Proof. by destruct s as [|[[[x y] x'] y'] s]. Qed.

Definition Z_numerics (d : dtype) : Numerics := {|
  T := Z;
  T_dtype := d;
  coord := Z;
  flt := Z;
  flt_uninit := 0%Z;
  flt_ltb := Z.ltb;
  flt_leb := Z.leb;
  solve_h := Z_solve;
  reproj := Z_reproj;
  median_sorted := Z_median;
  flt_ltb_irrefl := Z.ltb_irrefl;
  flt_ltb_trans := Z_ltb_trans;
  flt_ltb_negtrans := Z_ltb_negtrans;
  solve_h_length := Z_solve_length
|}.

(** Five correspondences on a line, of which a call sees the first [n];
    three iterations, sampled from correspondences 3, 0 and 0; room for
    three candidates and for three lines of four residuals. *)
Definition demo_T (b : Buf.t) : list Z :=
  match b with
  | Buf.bestH => replicate 9 0%Z
  | Buf.H => replicate 27 0%Z
  | _ => []
  end.

Definition demo_coord (n : nat) (b : Buf.t) : list Z :=
  match b with
  | Buf.x_src => take n [0; 1; 2; 3; 4]%Z
  | Buf.x_dst => take n [0; 2; 4; 7; 4]%Z
  | Buf.y_src | Buf.y_dst => take n [0; 0; 0; 0; 0]%Z
  | _ => []
  end.

Definition demo_mem (d : dtype) (n : nat) : @mem (Z_numerics d) :=
  @Build_mem (Z_numerics d) demo_T (λ _, []) (λ _, [])
    (replicate 3 (replicate 4 0%Z)) (demo_coord n) [[3]; [0]; [0]].

Definition demo_state (d : dtype) (n : nat) : @state (Z_numerics d) :=
  {| s_mem := demo_mem d n; s_trace := []; s_compiled := false |}.

(** Substrates: no fault and work-items in order; no fault and work-items
    in reverse order; a fault at step [k]. *)
Definition quiet : Env := {| faults := λ _, false; order := λ _ l, l |}.
Definition backwards : Env := {| faults := λ _, false; order := λ _ l, reverse l |}.
Definition faulty_at (k : nat) : Env :=
  {| faults := λ n, bool_decide (n = k); order := λ _ l, l |}.

(** ** Valid inputs *)

(** The scratch and output buffers of a call over [its >= 1] iterations
    have the room the host code reads and writes, and the [unsigned] row
    offsets [index * 9] do not wrap. *)
Definition well_sized `{num : Numerics} (its : N) (m : mem) : Prop :=
  (0 < its)%N ∧ (its * 9 < 2 ^ 32)%N
  ∧ 9 * N.to_nat its ≤ length (mT m Buf.H)
  ∧ 9 ≤ length (mT m Buf.bestH).

(** Every coordinate buffer holds at least [n] coordinates. *)
Definition enough_corrs `{num : Numerics} (n : nat) (m : mem) : Prop :=
  n ≤ length (mCoord m Buf.x_src) ∧ n ≤ length (mCoord m Buf.y_src)
  ∧ n ≤ length (mCoord m Buf.x_dst) ∧ n ≤ length (mCoord m Buf.y_dst).

(** The residual matrix has a line of [ns] residuals for each iteration. *)
Definition err_shaped `{num : Numerics} (its ns : nat) (m : mem) : Prop :=
  ∀ i, i < its → ∃ l, mErr m !! i = Some l ∧ length l = ns.

(** Two memories hold the same inputs. *)
Definition same_inputs `{num : Numerics} (m1 m2 : mem) : Prop :=
  mCoord m1 Buf.x_src = mCoord m2 Buf.x_src
  ∧ mCoord m1 Buf.y_src = mCoord m2 Buf.y_src
  ∧ mCoord m1 Buf.x_dst = mCoord m2 Buf.x_dst
  ∧ mCoord m1 Buf.y_dst = mCoord m2 Buf.y_dst
  ∧ mRnd m1 = mRnd m2.

(** The commands of a log that follow the first command satisfying [p]. *)
Fixpoint after (p : cmd → bool) (t : list cmd) : list cmd :=
  match t with
  | [] => []
  | c :: t' => if p c then t' else after p t'
  end.

Definition is_ireduce (c : cmd) : bool :=
  match c with IReduce _ _ _ => true | _ => false end.

Definition is_sort0 (c : cmd) : bool :=
  match c with Sort0 _ => true | _ => false end.

(** The size of a transfer of medians, which are [float] on the host
    ([float minMedian], [sizeof(float)]). *)
Definition median_read_size (c : cmd) : option N :=
  match c with
  | EnqueueReadBuffer b _ size =>
      if bool_decide (b ∈ [Buf.median; Buf.finalMedian]) then Some size else None
  | _ => None
  end.

(** The number of correspondences of the whole set, as many as the
    source-x buffer holds, within [thr] of their reprojection under the
    homography in [bestH]; and the number of those below [scale]. *)
Definition full_set_inliers `{num : Numerics} (m : mem) (thr : flt) : nat :=
  count_inliers (take 9 (mT m Buf.bestH)) (corrs m (length (mCoord m Buf.x_src))) thr.

Definition full_set_below `{num : Numerics} (m : mem) (scale : flt) : nat :=
  count_below (take 9 (mT m Buf.bestH)) (corrs m (length (mCoord m Buf.x_src))) scale.

(** ** Bookkeeping over the log of a call *)

(** The commands of a call up to the final releases: the one-time build,
    lines 93-146 and the branch of the estimator kind, for the two indices
    [blockIdx] and [idxH] (or [minIdx]) that the call reads back. *)
Definition script (d : dtype) (htype : af_homography_type) (compiled : bool)
    (iterations nsamples blockIdx index : N) : list cmd :=
  build_cmds d htype compiled
  ++ setup_cmds htype iterations nsamples
  ++ match htype with
     | AF_HOMOGRAPHY_RANSAC => ransac_cmds d blockIdx index
     | AF_HOMOGRAPHY_LMEDS => lmeds_cmds d iterations nsamples index
     end.

Definition is_free (c : cmd) : bool :=
  match c with BufferFree _ => true | _ => false end.

Definition is_build (c : cmd) : bool :=
  match c with BuildProgram _ => true | _ => false end.

(** The buffers allocated and the kernels launched by the commands of a
    log, in order. *)
Definition allocated (t : list cmd) : list Buf.t :=
  omap (λ c, match c with BufferAlloc b _ => Some b | _ => None end) t.

Definition launched (t : list cmd) : list kernel_id :=
  omap (λ c, match c with Launch k _ _ => Some k | _ => None end) t.

(** The temporaries in use after the commands of [t], starting from those
    of [live]: [bufferAlloc] adds its buffer, [bufferFree] removes it.
    [None] when a buffer is allocated while it is in use, or released
    while it is not. *)
Fixpoint live_after (live : list Buf.t) (t : list cmd) : option (list Buf.t) :=
  match t with
  | [] => Some live
  | BufferAlloc b _ :: t' =>
      if bool_decide (b ∈ live) then None else live_after (b :: live) t'
  | BufferFree b :: t' =>
      if bool_decide (b ∈ live)
      then live_after (List.filter (λ x, negb (bool_decide (x = b))) live) t'
      else None
  | _ :: t' => live_after live t'
  end.

(** An ND-range the runtime accepts: as many global as local sizes, and
    every global size a multiple of its local size. *)
Definition valid_ndrange (global local : list N) : Prop :=
  Forall2 (λ g l, (l | g)%N) global local.

Definition group_size (local : list N) : N := foldr N.mul 1%N local.

(** The number of indices a kernel has to visit: iterations for the solver,
    the evaluator and the medians, correspondences for the classification;
    [find_min_median] runs as a single work-group. *)
Definition extent (k : kernel_id) (iterations nsamples : N) : option N :=
  match k with
  | compute_homography | eval_homography | compute_median => Some iterations
  | compute_lmeds_inliers => Some nsamples
  | find_min_median => None
  end.

(** The log of [s'] continues the log of [s] with commands that all
    satisfy [φ]. *)
Definition emitted `{num : Numerics} (φ : cmd → Prop) (s s' : state) : Prop :=
  ∃ t, s_trace s' = s_trace s ++ t ∧ Forall φ t.

(** [bestH] keeps its length and everything past its first nine scalars. *)
Definition bestH_tail_kept `{num : Numerics} (s s' : state) : Prop :=
  length (mT (s_mem s') Buf.bestH) = length (mT (s_mem s) Buf.bestH)
  ∧ drop 9 (mT (s_mem s') Buf.bestH) = drop 9 (mT (s_mem s) Buf.bestH).

(** [P] holds of every proper prefix of [l] that stops before a command
    other than a release. *)
Definition all_cuts (P : list cmd → bool) (l : list cmd) : bool :=
  forallb (λ k, match l !! k with
                | Some c => is_free c || P (take k l)
                | None => true
                end)
          (seq 0 (length l)).

(** After the commands of [t], every buffer that [t] allocated is still in
    use, [finalMedian] and [finalIdx] apart. *)
Definition holds_temporaries (t : list cmd) : bool :=
  match live_after [] t with
  | Some live =>
      forallb (λ b, bool_decide (b ∈ live)
                    || bool_decide (b ∈ [Buf.finalMedian; Buf.finalIdx]))
              (allocated t)
  | None => false
  end.

(** The number of program builds among the commands of [t]. *)
Definition builds (t : list cmd) : nat := length (List.filter is_build t).

(** The builds a log has when the flag was [compiled] before it: one,
    unless the flag was set or nothing was issued. *)
Definition expected_builds (compiled : bool) (t : list cmd) : nat :=
  if compiled then 0 else match t with [] => 0 | _ => 1 end.

(** A launch over a valid ND-range with work-groups of [HG_THREADS]
    work-items. *)
Definition valid_launch (c : cmd) : Prop :=
  match c with
  | Launch _ global local => valid_ndrange global local ∧ group_size local = HG_THREADS
  | _ => True
  end.

(** A launch whose last dimension, the one that carries the index, spans
    the extent of its kernel with less than one work-group to spare. *)
Definition covers_extent (iterations nsamples : N) (c : cmd) : Prop :=
  match c with
  | Launch k global local =>
      match extent k iterations nsamples with
      | Some n => ∃ g l, last global = Some g ∧ last local = Some l
                         ∧ (n ≤ g < n + l)%N ∧ (g mod l = 0)%N
      | None => True
      end
  | _ => True
  end.

(** The log has grown, [bestH] has kept its length, and had room for nine
    scalars if a copy into it is among the new commands. *)
Definition bestH_room `{num : Numerics} (s s' : state) : Prop :=
  ∃ t, s_trace s' = s_trace s ++ t
     ∧ length (mT (s_mem s') Buf.bestH) = length (mT (s_mem s) Buf.bestH)
     ∧ ((∃ index, copy_cmd T_dtype index ∈ t) → 9 ≤ length (mT (s_mem s) Buf.bestH)).

(** The buffers [computeH] allocates itself; all others are the caller's. *)
Definition temporaries : list Buf.t :=
  [Buf.inliers; Buf.idx; Buf.median; Buf.finalMedian; Buf.finalIdx;
   Buf.totalInliers; Buf.bestInliers; Buf.bestIdx].

(** The buffers a command hands to the runtime. *)
Definition cmd_uses (c : cmd) : list Buf.t :=
  match c with
  | Launch k _ _ => kernel_args k
  | EnqueueReadBuffer b _ _ => [b]
  | EnqueueCopyBuffer src dst _ _ _ => [src; dst]
  | Sort0 b => [b]
  | Reduce out inp => [out; inp]
  | IReduce out loc inp => [out; loc; inp]
  | BufferFree b => [b]
  | BuildProgram _ | BufferAlloc _ _ => []
  end.

(** Every temporary that a command of [t] uses is in use at that command,
    starting from the temporaries of [live]. *)
Fixpoint uses_live (live : list Buf.t) (t : list cmd) : bool :=
  match t with
  | [] => true
  | c :: t' =>
      forallb (λ b, bool_decide (b ∈ live) || negb (bool_decide (b ∈ temporaries)))
              (cmd_uses c)
      && uses_live (match c with
                    | BufferAlloc b _ => b :: live
                    | BufferFree b => List.filter (λ x, negb (bool_decide (x = b))) live
                    | _ => live
                    end) t'
  end.

(** Every buffer read back by a command of [t] has been handed to a kernel,
    a sort, a reduction or a copy since it was allocated; [ready] are the
    buffers for which this holds at the start. *)
Fixpoint reads_produced (ready : list Buf.t) (t : list cmd) : bool :=
  match t with
  | [] => true
  | c :: t' =>
      match c with
      | EnqueueReadBuffer b _ _ => bool_decide (b ∈ ready) && reads_produced ready t'
      | BufferAlloc b _ =>
          reads_produced (List.filter (λ x, negb (bool_decide (x = b))) ready) t'
      | BufferFree _ | BuildProgram _ => reads_produced ready t'
      | _ => reads_produced (cmd_uses c ++ ready) t'
      end
  end.

(** ** A throw after the copy of the LMedS branch *)

(** The four fallible commands that follow the copy of line 194: the launch
    of the classification kernel, the allocation of [totalInliers], the
    reduction and the read of its result (lines 204-219). *)
Definition is_refine_step (c : cmd) : bool :=
  match c with
  | Launch compute_lmeds_inliers _ _ => true
  | BufferAlloc Buf.totalInliers _ => true
  | Reduce _ _ => true
  | EnqueueReadBuffer Buf.totalInliers _ _ => true
  | _ => false
  end.

(** A command that writes [bestH] is among those of [t]. *)
Definition has_copy (t : list cmd) : bool := existsb (writes_to Buf.bestH) t.

(** [P t c] holds wherever [l] can be cut into the commands [t] already
    issued and a command [c], not a release, that comes next. *)
Definition cuts_hold (P : list cmd → cmd → bool) (l : list cmd) : bool :=
  forallb (λ k, match l !! k with
                | Some c => is_free c || P (take k l) c
                | None => true
                end)
          (seq 0 (length l)).

(** The first nine scalars of [bestH] are those of [H] from the element
    offset of the copy for [index]. *)
Definition holds_row `{num : Numerics} (index : N) (s : state) : Prop :=
  take 9 (mT (s_mem s) Buf.bestH)
  = take 9 (drop (N.to_nat (wrap32 (index * 9))) (mT (s_mem s) Buf.H)).

(** Whatever the outcome of [m], [bestH] holds the row of every copy that
    [m] has logged. *)
Definition copies_row `{num : Numerics} {A : Type} (m : M A) : Prop :=
  ∀ s s' r, m s = (s', r) →
  ∃ t, s_trace s' = s_trace s ++ t
     ∧ ∀ index, copy_cmd T_dtype index ∈ t → holds_row index s'.

(** The log has grown by commands that do not write [bestH], and the
    buffers of [T] hold what they held. *)
Definition settled `{num : Numerics} (s s' : state) : Prop :=
  emitted (λ c, writes_to Buf.bestH c = false) s s' ∧ mT (s_mem s') = mT (s_mem s).

(** ** Several devices

    [compileFlags] holds one [once_flag] per device, and a call uses the
    flag of the device that is active when it starts.  A host keeps the
    flags of all its devices; a call on [device] runs [computeH] with the
    flag of that device and stores the flag back. *)
Record host `{num : Numerics} := {
  h_flags : nat → bool;
  h_mem : mem;
  h_trace : list cmd
}.

Definition computeH_on `{num : Numerics} (env : Env) (htype : af_homography_type)
    (iterations nsamples : N) (inlier_thr : flt) (device : nat) (h : host)
  : host * result Z :=
  let out := computeH env htype iterations nsamples inlier_thr
               {| s_mem := h_mem h; s_trace := h_trace h;
                  s_compiled := h_flags h device |} in
  ({| h_flags := <[device := s_compiled out.1]> (h_flags h);
      h_mem := s_mem out.1; h_trace := s_trace out.1 |}, out.2).

(** ** Runs on stale scratch

    The example of [demo_mem] with five correspondences and residual lines
    of five entries that hold [stale] before the call. *)
Definition stale_mem (d : dtype) (stale : Z) : @mem (Z_numerics d) :=
  @Build_mem (Z_numerics d) demo_T (λ _, []) (λ _, [])
    (replicate 3 (replicate 5 stale)) (demo_coord 5) [[3]; [0]; [0]].

Definition stale_state (d : dtype) (stale : Z) : @state (Z_numerics d) :=
  {| s_mem := stale_mem d stale; s_trace := []; s_compiled := false |}.

Definition demo_host (d : dtype) (n : nat) : @host (Z_numerics d) :=
  {| h_flags := λ _, false; h_mem := demo_mem d n; h_trace := [] |}.

(** * Properties *)

(** ** Parallel loops do not depend on the order of the work-items *)

Section ParFor.
Context {S : Type}.

Lemma par_for_perm (body : nat → S → S) (s : S) (l1 l2 : list nat) :
  (∀ i j x, body i (body j x) = body j (body i x)) →
  l1 ≡ₚ l2 → par_for l1 body s = par_for l2 body s.
Proof.
  intros Hc Hp. unfold par_for.
  apply (foldr_permutation (=) body s l1 l2); [|done].
  intros; apply Hc.
Qed.

Lemma at_leader_comm (body : nat → S → S) :
  (∀ a b x, a ≠ b → body a (body b x) = body b (body a x)) →
  ∀ i j x, at_leader body i (at_leader body j x) = at_leader body j (at_leader body i x).
Proof.
  intros Hc i j x. destruct (decide (i = j)) as [->|Hij]; [done|].
  unfold at_leader. repeat case_decide; try done.
  apply Hc. intros Heq.
  apply Hij. rewrite (Nat.div_mod_eq i 256), (Nat.div_mod_eq j 256). lia.
Qed.

End ParFor.

Lemma scatter_comm {A : Type} (bound : nat) (f : nat → A) i j (l : list A) :
  scatter bound f i (scatter bound f j l) = scatter bound f j (scatter bound f i l).
Proof.
  destruct (decide (i = j)) as [->|Hij]; [done|].
  unfold scatter. repeat case_decide; try done.
  by apply list_insert_insert_ne.
Qed.

Lemma select_best_comm {A : Type} (better : A → A → bool) scores iterations a b
    (x : list A * list nat) :
  a ≠ b →
  select_best better scores iterations a (select_best better scores iterations b x)
  = select_best better scores iterations b (select_best better scores iterations a x).
Proof.
  intros Hab. unfold select_best.
  destruct (reduce_first better (block_cands scores iterations a)) as [[va wa]|];
    destruct (reduce_first better (block_cands scores iterations b)) as [[vb wb]|];
    simpl; try done.
  f_equal; by apply list_insert_insert_ne.
Qed.

Lemma sum_flags_comm flags a b (x : list nat) :
  a ≠ b → sum_flags flags a (sum_flags flags b x) = sum_flags flags b (sum_flags flags a x).
Proof. intros Hab. unfold sum_flags. by apply list_insert_insert_ne. Qed.

Lemma list_inserts_disjoint_comm {A : Type} (k1 k2 l : list A) i j :
  i + length k1 ≤ j →
  list_inserts i k1 (list_inserts j k2 l) = list_inserts j k2 (list_inserts i k1 l).
Proof.
  revert i. induction k1 as [|y k1 IH]; intros i Hle; simpl in *; [done|].
  rewrite IH by lia. by rewrite list_insert_inserts_lt by lia.
Qed.

Section KernelOrder.
Context `{num : Numerics}.

Lemma ch_item_comm (m : mem) iterations i j (Hb : list T) :
  ch_item m iterations i (ch_item m iterations j Hb)
  = ch_item m iterations j (ch_item m iterations i Hb).
Proof.
  destruct (decide (i = j)) as [->|Hij]; [done|].
  unfold ch_item. repeat case_decide; try done.
  assert (Hlen : ∀ k, length (take 9 (solve_h (samples m k))) ≤ 9).
  { intros k. rewrite length_take. lia. }
  destruct (decide (i < j)).
  - apply list_inserts_disjoint_comm. specialize (Hlen i). lia.
  - symmetry. apply list_inserts_disjoint_comm. specialize (Hlen j). lia.
Qed.

Lemma eh_store_comm (m : mem) iterations nsamples i j (e : list (list flt)) :
  eh_store m iterations nsamples i (eh_store m iterations nsamples j e)
  = eh_store m iterations nsamples j (eh_store m iterations nsamples i e).
Proof.
  destruct (decide (i = j)) as [->|Hij]; [done|].
  unfold eh_store. repeat case_decide; try done.
  by apply list_alter_alter_ne.
Qed.

(** Every kernel yields the same memory under any order that runs each
    work-item once as under the order [0, 1, 2, ...]. *)
Lemma compute_homography_kernel_order (sched : list nat) n iterations (m : mem) :
  sched ≡ₚ seq 0 n →
  compute_homography_kernel sched iterations m
  = compute_homography_kernel (seq 0 n) iterations m.
Proof.
  intros Hp. unfold compute_homography_kernel. f_equal.
  apply par_for_perm; [|done]. intros; apply ch_item_comm.
Qed.

Lemma eval_homography_kernel_order (sched : list nat) n htype iterations nsamples thr (m : mem) :
  sched ≡ₚ seq 0 n →
  eval_homography_kernel sched htype iterations nsamples thr m
  = eval_homography_kernel (seq 0 n) htype iterations nsamples thr m.
Proof.
  intros Hp. unfold eval_homography_kernel. destruct htype.
  - rewrite (Permutation_length Hp).
    rewrite (par_for_perm (scatter _ _) _ sched (seq 0 n)); [|apply scatter_comm|done].
    rewrite (par_for_perm (block_select _ _ _) _ sched (seq 0 n)); [done| |done].
    apply at_leader_comm. intros; by apply select_best_comm.
  - f_equal. apply par_for_perm; [|done]. intros; apply eh_store_comm.
Qed.

Lemma compute_median_kernel_order (sched : list nat) n iterations (m : mem) :
  sched ≡ₚ seq 0 n →
  compute_median_kernel sched iterations m = compute_median_kernel (seq 0 n) iterations m.
Proof.
  intros Hp. unfold compute_median_kernel.
  rewrite (Permutation_length Hp).
  rewrite (par_for_perm (scatter _ _) _ sched (seq 0 n)); [|apply scatter_comm|done].
  rewrite (par_for_perm (block_select _ _ _) _ sched (seq 0 n)); [done| |done].
  apply at_leader_comm. intros; by apply select_best_comm.
Qed.

Lemma compute_lmeds_inliers_kernel_order (sched : list nat) n minMedian nsamples (m : mem) :
  sched ≡ₚ seq 0 n →
  compute_lmeds_inliers_kernel sched minMedian nsamples m
  = compute_lmeds_inliers_kernel (seq 0 n) minMedian nsamples m.
Proof.
  intros Hp. unfold compute_lmeds_inliers_kernel.
  rewrite (Permutation_length Hp).
  rewrite (par_for_perm (scatter _ _) _ sched (seq 0 n)); [|apply scatter_comm|done].
  f_equal. apply par_for_perm; [|done].
  apply at_leader_comm. intros; by apply sum_flags_comm.
Qed.

End KernelOrder.

(** ** The host function does not depend on the order of the work-items *)

Section HostOrder.
Context `{num : Numerics}.

Lemma bind_ext {A B : Type} (m1 m2 : M A) (f1 f2 : A → M B) (s : state) :
  m1 s = m2 s → (∀ a s', f1 a s' = f2 a s') → (m1 ≫= f1) s = (m2 ≫= f2) s.
Proof.
  intros Hm Hf. unfold mbind, M_bind. rewrite Hm.
  destruct (m2 s) as [s' [a|]]; [apply Hf|done].
Qed.

Variable env : Env.
Hypothesis Hord : valid_order env.

Lemma chOp_order g l its s : chOp env g l its s = chOp (in_order env) g l its s.
Proof.
  unfold chOp, launch, substrate_call, work_items; simpl.
  destruct (faults env _); [done|].
  by rewrite (compute_homography_kernel_order _ _ _ _ (Hord _ _)).
Qed.

Lemma ehOp_order g l htype its ns thr s :
  ehOp env g l htype its ns thr s = ehOp (in_order env) g l htype its ns thr s.
Proof.
  unfold ehOp, launch, substrate_call, work_items; simpl.
  destruct (faults env _); [done|].
  by rewrite (eval_homography_kernel_order _ _ _ _ _ _ _ (Hord _ _)).
Qed.

Lemma cmOp_order g l its s : cmOp env g l its s = cmOp (in_order env) g l its s.
Proof.
  unfold cmOp, launch, substrate_call, work_items; simpl.
  destruct (faults env _); [done|].
  by rewrite (compute_median_kernel_order _ _ _ _ (Hord _ _)).
Qed.

Lemma clOp_order g l med ns s : clOp env g l med ns s = clOp (in_order env) g l med ns s.
Proof.
  unfold clOp, launch, substrate_call, work_items; simpl.
  destruct (faults env _); [done|].
  by rewrite (compute_lmeds_inliers_kernel_order _ _ _ _ _ (Hord _ _)).
Qed.

Lemma lmeds_branch_order its ns blk g l s :
  lmeds_branch env its ns blk g l s = lmeds_branch (in_order env) its ns blk g l s.
Proof.
  unfold lmeds_branch.
  apply bind_ext; [done|intros _ s1].
  apply bind_ext; [apply cmOp_order|intros _ s2].
  apply bind_ext; [done|intros [med w] s3].
  apply bind_ext; [done|intros _ s4].
  unfold lmeds_inliers.
  apply bind_ext; [apply clOp_order|done].
Qed.

Lemma computeH_order htype its ns thr s :
  computeH env htype its ns thr s = computeH (in_order env) htype its ns thr s.
Proof.
  unfold computeH.
  apply bind_ext; [done|intros _ s1].
  apply bind_ext; [apply chOp_order|intros _ s2].
  apply bind_ext; [done|intros _ s3].
  apply bind_ext; [done|intros _ s4].
  apply bind_ext; [done|intros _ s5].
  apply bind_ext; [apply ehOp_order|intros _ s6].
  apply bind_ext; [|done].
  destruct htype; [done|apply lmeds_branch_order].
Qed.

End HostOrder.

(** ** First-seen-wins reductions select the first best score *)

(** Division and remainder by the work-group size, for [lia]. *)
Ltac divmod256 j :=
  pose proof (Nat.div_mod_eq j 256); pose proof (Nat.mod_upper_bound j 256).

Section FirstBest.
Context {A : Type} (better : A → A → bool).
Hypothesis better_irrefl : ∀ a, better a a = false.
Hypothesis better_trans :
  ∀ a b c, better a b = true → better b c = true → better a c = true.
Hypothesis better_negtrans :
  ∀ a b c, better a b = false → better b c = false → better a c = false.

Lemma better_beats_through a b c :
  better a b = true → better c b = false → better a c = true.
Proof.
  intros Hab Hcb. destruct (better a c) eqn:Hac; [done|].
  by rewrite (better_negtrans a c b Hac Hcb) in Hab.
Qed.

Lemma better_not_beaten_through a b c :
  better a b = false → better c b = true → better a c = false.
Proof.
  intros Hab Hcb. destruct (better a c) eqn:Hac; [|done].
  by rewrite (better_trans a c b Hac Hcb) in Hab.
Qed.

(** The left-to-right pass ends on an element that nothing beats and that
    beats everything before it. *)
Lemma foldl_pick_first_pos (x : A * nat) (l : list (A * nat)) :
  ∃ p, (x :: l) !! p = Some (foldl (pick_first better) x l)
     ∧ (∀ q z, (x :: l) !! q = Some z →
               better z.1 (foldl (pick_first better) x l).1 = false)
     ∧ (∀ q z, q < p → (x :: l) !! q = Some z →
               better (foldl (pick_first better) x l).1 z.1 = true).
Proof.
  induction l as [|z l IH] using rev_ind.
  - exists 0. simpl. split; [done|]. split.
    + intros [|q] z' Hq; simplify_eq/=. apply better_irrefl.
    + intros q z' Hq; lia.
  - destruct IH as (p & Hp & Hno & Hbefore).
    rewrite foldl_snoc. set (cur := foldl (pick_first better) x l) in *.
    rewrite app_comm_cons.
    assert (Hlen : p < length (x :: l)) by (by eapply lookup_lt_Some).
    unfold pick_first. destruct (better z.1 cur.1) eqn:Hz.
    + exists (length (x :: l)). split; [|split].
      * by rewrite list_lookup_middle.
      * intros q z' Hq. apply lookup_app_Some in Hq as [Hq|[_ Hq]].
        -- apply (better_not_beaten_through _ cur.1); eauto.
        -- apply list_lookup_singleton_Some in Hq as [_ <-]. apply better_irrefl.
      * intros q z' Hlt Hq. rewrite lookup_app_l in Hq by done.
        apply (better_beats_through _ cur.1); eauto.
    + exists p. split; [|split].
      * by rewrite lookup_app_l.
      * intros q z' Hq. apply lookup_app_Some in Hq as [Hq|[_ Hq]]; [eauto|].
        by apply list_lookup_singleton_Some in Hq as [_ <-].
      * intros q z' Hlt Hq. rewrite lookup_app_l in Hq by lia. eauto.
Qed.

(** The same for scores [sc a .. sc (a+k-1)] that travel with the payloads
    [pay a .. pay (a+k-1)]. *)
Lemma reduce_first_seq (sc : nat → A) (pay : nat → nat) (a k : nat) :
  0 < k →
  ∃ p, reduce_first better ((λ i, (sc i, pay i)) <$> seq a k) = Some (sc p, pay p)
     ∧ a ≤ p < a + k
     ∧ (∀ j, a ≤ j < a + k → better (sc j) (sc p) = false)
     ∧ (∀ j, a ≤ j < p → better (sc p) (sc j) = true).
Proof.
  intros Hk. destruct k as [|k]; [lia|]. simpl.
  destruct (foldl_pick_first_pos (sc a, pay a) ((λ i, (sc i, pay i)) <$> seq (S a) k))
    as (p & Hp & Hno & Hbefore).
  set (r := foldl _ _ _) in *.
  assert (Hall : ∀ q z, ((sc a, pay a) :: ((λ i, (sc i, pay i)) <$> seq (S a) k)) !! q = Some z
                        ↔ z = (sc (a + q), pay (a + q)) ∧ q < S k).
  { intros q z. change ((sc a, pay a) :: ((λ i, (sc i, pay i)) <$> seq (S a) k))
      with ((λ i, (sc i, pay i)) <$> seq a (S k)).
    rewrite list_lookup_fmap_Some. split.
    - intros (i & -> & Hi). apply lookup_seq in Hi as [-> ?]. done.
    - intros [-> ?]. exists (a + q). split; [done|]. by apply lookup_seq. }
  apply Hall in Hp as [Hr Hpk].
  exists (a + p). split; [by rewrite Hr|]. split; [lia|]. split.
  - intros j Hj. specialize (Hno (j - a) (sc j, pay j)). rewrite Hr in Hno. simpl in Hno.
    apply Hno. apply Hall. split; [|lia]. do 2 f_equal; lia.
  - intros j Hj. specialize (Hbefore (j - a) (sc j, pay j)). rewrite Hr in Hbefore.
    simpl in Hbefore. apply Hbefore; [lia|]. apply Hall. split; [|lia]. do 2 f_equal; lia.
Qed.

Lemma reduce_first_cands (sc : nat → A) (a k : nat) :
  0 < k →
  ∃ p, reduce_first better (cands sc a k) = Some (sc p, p)
     ∧ a ≤ p < a + k
     ∧ (∀ j, a ≤ j < a + k → better (sc j) (sc p) = false)
     ∧ (∀ j, a ≤ j < p → better (sc p) (sc j) = true).
Proof. exact (reduce_first_seq sc id a k). Qed.

Lemma is_first_best_unique (sc : nat → A) n w1 w2 :
  is_first_best better sc n w1 → is_first_best better sc n w2 → w1 = w2.
Proof.
  intros (Hw1 & Hno1 & Hb1) (Hw2 & Hno2 & Hb2).
  destruct (Nat.lt_trichotomy w1 w2) as [Hlt|[->|Hlt]]; [|done|].
  - specialize (Hb2 _ Hlt). by rewrite (Hno1 w2) in Hb2.
  - specialize (Hb1 _ Hlt). by rewrite (Hno2 w1) in Hb1.
Qed.

Lemma first_best_spec (sc : nat → A) n :
  0 < n → is_first_best better sc n (first_best better sc n).
Proof.
  intros Hn. unfold first_best.
  destruct (reduce_first_cands sc 0 n Hn) as (p & -> & Hp & Hno & Hb). simpl.
  split; [lia|]. split; intros j Hj; [apply Hno|apply Hb]; lia.
Qed.

(** A tie on the best score goes to the lowest index. *)
Lemma is_first_best_tie (sc : nat → A) n w j :
  is_first_best better sc n w → j < n → sc j = sc w → w ≤ j.
Proof.
  intros (Hw & Hno & Hb) Hj Heq.
  destruct (decide (w ≤ j)) as [|Hlt]; [done|].
  specialize (Hb j ltac:(lia)). rewrite Heq, better_irrefl in Hb. done.
Qed.

(** The best of a work-group is the first best of the group. *)
Lemma block_best_spec (sc : nat → A) its b :
  256 * b < its →
  ∃ w, block_best better sc its b = (sc w, w)
     ∧ reduce_first better (cands sc (256 * b) (block_len its b)) = Some (sc w, w)
     ∧ 256 * b ≤ w < 256 * b + 256 ∧ w < its
     ∧ (∀ j, 256 * b ≤ j < 256 * b + 256 → j < its → better (sc j) (sc w) = false)
     ∧ (∀ j, 256 * b ≤ j < w → better (sc w) (sc j) = true).
Proof.
  intros Hb. unfold block_best.
  destruct (reduce_first_cands sc (256 * b) (block_len its b)) as (p & -> & Hp & Hno & Hbef).
  { unfold block_len. lia. }
  unfold block_len in *. exists p. simpl.
  split; [done|]. split; [done|]. split; [lia|]. split; [lia|]. split.
  - intros j ??. apply Hno. lia.
  - intros j ?. apply Hbef. lia.
Qed.

(** Two levels, per work-group and then over the work-groups, select the
    first best of all iterations. *)
Lemma first_best_two_level (sc : nat → A) its blk p :
  0 < its → its ≤ 256 * blk → 256 * (blk - 1) < its →
  is_first_best better (λ b, (block_best better sc its b).1) blk p →
  is_first_best better sc its (block_best better sc its p).2
  ∧ (block_best better sc its p).1 = sc (block_best better sc its p).2.
Proof.
  intros Hits Hle Hlast (Hp & Hno & Hbef).
  assert (Hblk : ∀ b, b < blk → 256 * b < its) by (intros; lia).
  destruct (block_best_spec sc its p (Hblk _ Hp)) as (w & Hw & _ & Hr & Hwi & Hwno & Hwbef).
  rewrite Hw in *. cbn [fst snd] in *. split; [|done].
  split; [done|]. split.
  - intros j Hj.
    divmod256 j. assert (Hjb : j / 256 < blk) by lia.
    destruct (block_best_spec sc its (j / 256) (Hblk _ Hjb))
      as (wj & Hwj & _ & Hrj & Hwji & Hwjno & _).
    specialize (Hno _ Hjb). rewrite Hwj in Hno. cbn [fst snd] in Hno.
    apply (better_negtrans _ (sc wj)); [|done].
    apply Hwjno; [lia|done].
  - intros j Hj.
    divmod256 j. assert (Hjle : j / 256 ≤ p) by lia.
    destruct (decide (j / 256 = p)) as [Heq|Hne].
    + apply Hwbef. lia.
    + assert (Hjb : j / 256 < p) by lia.
      destruct (block_best_spec sc its (j / 256) (Hblk (j / 256) ltac:(lia)))
        as (wj & Hwj & _ & Hrj & Hwji & Hwjno & _).
      specialize (Hbef _ Hjb). rewrite Hwj in Hbef. cbn [fst snd] in Hbef.
      apply (better_beats_through _ (sc wj)); [done|].
      apply Hwjno; lia.
Qed.

End FirstBest.

(** ** What the kernels leave in memory, work-items in order *)

Section Loops.
Context {A : Type}.

(** Writes of optional values into the slots named by a schedule. *)
Lemma foldr_oinsert_lookup (g : nat → option A) (s : list nat) (l : list A) (i : nat) :
  foldr (λ b l, match g b with Some v => <[b := v]> l | None => l end) l s !! i
  = match (if decide (i ∈ s ∧ i < length l) then g i else None) with
    | Some v => Some v
    | None => l !! i
    end.
Proof.
  induction s as [|b s IH]; cbn [foldr].
  - rewrite decide_False; [done|]. intros [H _]. by apply elem_of_nil in H.
  - set (r := foldr _ l s) in *.
    assert (Hlen : length r = length l).
    { unfold r. clear. induction s as [|c s IHs]; simpl; [done|].
      destruct (g c); [by rewrite length_insert|done]. }
    destruct (g b) as [v|] eqn:Hgb.
    + rewrite list_lookup_insert, Hlen.
      destruct (decide (b = i)) as [->|Hne].
      * destruct (decide (i < length l)).
        -- rewrite decide_True by done.
           rewrite decide_True by (split; [apply elem_of_cons; auto|done]).
           by rewrite Hgb.
        -- rewrite decide_False by (intros [_ ?]; done).
           rewrite IH. rewrite !decide_False by (intros [_ ?]; done). done.
      * rewrite decide_False by (intros [? _]; done).
        rewrite IH. destruct (decide (i ∈ s ∧ i < length l)) as [[Hin Hlt]|Hn].
        -- by rewrite decide_True by (split; [apply elem_of_cons; auto|done]).
        -- rewrite decide_False; [done|]. intros [Hin Hlt]. apply Hn.
           apply elem_of_cons in Hin as [->|Hin]; done.
    + rewrite IH. destruct (decide (i ∈ s ∧ i < length l)) as [[Hin Hlt]|Hn].
      * by rewrite decide_True by (split; [apply elem_of_cons; auto|done]).
      * destruct (decide (i ∈ b :: s ∧ i < length l)) as [[Hin Hlt]|Hn']; [|done].
        apply elem_of_cons in Hin as [->|Hin]; [by rewrite Hgb|].
        exfalso. by apply Hn.
Qed.

(** Filling every slot of an array of [n] slots. *)
Lemma foldr_insert_all (g : nat → A) (l : list A) (n : nat) :
  length l = n →
  foldr (λ b l, match Some (g b) with Some v => <[b := v]> l | None => l end) l (seq 0 n)
  = g <$> seq 0 n.
Proof.
  intros Hlen. apply list_eq; intros i.
  rewrite (foldr_oinsert_lookup (λ b, Some (g b))), list_lookup_fmap.
  destruct (decide (i < n)) as [Hi|Hi].
  - rewrite decide_True by (split; [apply elem_of_seq; lia|lia]).
    by rewrite lookup_seq_lt.
  - rewrite decide_False by (intros [_ ?]; lia).
    rewrite lookup_seq_ge by lia. apply lookup_ge_None_2. lia.
Qed.

(** The scratch array of per-work-item scores. *)
Lemma scatter_as_oinsert (bound : nat) (f : nat → A) (s : list nat) (l : list A) :
  foldr (scatter bound f) l s
  = foldr (λ b l, match (if decide (b < bound) then Some (f b) else None) with
                  | Some v => <[b := v]> l | None => l end) l s.
Proof. apply foldr_ext; [|done..]. intros b a. unfold scatter. by case_decide. Qed.

Lemma scatter_scores (bound n : nat) (f : nat → A) (d : A) :
  par_for (seq 0 n) (scatter bound f) (replicate n d)
  = (λ i, if decide (i < bound) then f i else d) <$> seq 0 n.
Proof.
  apply list_eq; intros i. unfold par_for.
  rewrite scatter_as_oinsert, foldr_oinsert_lookup, length_replicate, list_lookup_fmap.
  destruct (decide (i < n)) as [Hi|Hi].
  - rewrite decide_True by (split; [apply elem_of_seq; lia|lia]).
    rewrite lookup_seq_lt by done. simpl.
    case_decide; [done|]. by rewrite lookup_replicate_2.
  - rewrite decide_False by (intros [_ ?]; lia).
    rewrite lookup_seq_ge by lia. apply lookup_ge_None_2.
    rewrite length_replicate. lia.
Qed.

Lemma scatter_scores_lookup (bound n : nat) (f : nat → A) (d : A) (i : nat) :
  i < bound → bound ≤ n →
  par_for (seq 0 n) (scatter bound f) (replicate n d) !! i = Some (f i).
Proof.
  intros Hi Hn. rewrite scatter_scores, list_lookup_fmap, lookup_seq_lt by lia.
  simpl. by rewrite decide_True.
Qed.

(** The candidates of a work-group, read from the scratch scores. *)
Lemma omap_seq_prefix {B : Type} (g : nat → option B) (h : nat → B) (a k' k : nat) :
  k' ≤ k →
  (∀ i, a ≤ i < a + k' → g i = Some (h i)) →
  (∀ i, a + k' ≤ i < a + k → g i = None) →
  omap g (seq a k) = h <$> seq a k'.
Proof.
  intros Hk Hsome Hnone.
  replace k with (k' + (k - k')) by lia. rewrite seq_app, omap_app.
  assert (H1 : omap g (seq a k') = h <$> seq a k').
  { clear Hnone Hk. revert a Hsome. induction k' as [|k' IH]; intros a Hsome; [done|].
    simpl. rewrite Hsome by lia. f_equal. apply IH. intros; apply Hsome; lia. }
  assert (H2 : omap g (seq (a + k') (k - k')) = []).
  { assert (∀ n c, (∀ i, c ≤ i < c + n → g i = None) → omap g (seq c n) = []) as Hn.
    { induction n as [|n IH]; intros c Hc; [done|].
      simpl. rewrite Hc by lia. apply IH. intros; apply Hc; lia. }
    apply Hn. intros i Hi. apply Hnone. lia. }
  by rewrite H1, H2, app_nil_r.
Qed.

End Loops.

Section Leaders.
Context {S : Type}.

Lemma par_for_app (body : nat → S → S) (l1 l2 : list nat) (s : S) :
  par_for (l1 ++ l2) body s = par_for l1 body (par_for l2 body s).
Proof. unfold par_for. apply foldr_app. Qed.

Lemma par_for_no_leader (body : nat → S → S) (a k : nat) (s : S) :
  (∀ i, a ≤ i < a + k → i mod 256 ≠ 0) →
  par_for (seq a k) (at_leader body) s = s.
Proof.
  revert a. induction k as [|k IH]; intros a Hno; [done|].
  unfold par_for in *. cbn [seq foldr]. rewrite IH by (intros; apply Hno; lia).
  unfold at_leader. rewrite decide_False; [done|]. apply Hno. lia.
Qed.
Lemma par_for_group (body : nat → S → S) (b : nat) (s : S) :
  par_for (seq (256 * b) 256) (at_leader body) s = body b s.
Proof.
  change (seq (256 * b) 256) with ([256 * b] ++ seq (Datatypes.S (256 * b)) 255).
  rewrite par_for_app, par_for_no_leader.
  - unfold par_for. cbn [foldr]. unfold at_leader.
    divmod256 (256 * b). rewrite decide_True by lia. f_equal. lia.
  - intros i Hi. divmod256 i. lia.
Qed.

Lemma par_for_at_leader (body : nat → S → S) (blk : nat) (s : S) :
  par_for (seq 0 (256 * blk)) (at_leader body) s = par_for (seq 0 blk) body s.
Proof.
  revert s. induction blk as [|blk IH]; intros s; [done|].
  replace (256 * Datatypes.S blk) with (256 * blk + 256) by lia.
  rewrite seq_app, par_for_app, Nat.add_0_l, par_for_group, IH.
  rewrite seq_S, par_for_app. done.
Qed.
End Leaders.

Section Selection.
Context {A : Type} (better : A → A → bool).

Lemma reduce_first_cons (x : A * nat) (l : list (A * nat)) :
  is_Some (reduce_first better (x :: l)).
Proof. by eexists. Qed.

Lemma block_best_reduce (sc : nat → A) (its b : nat) :
  256 * b < its →
  reduce_first better (cands sc (256 * b) (block_len its b))
  = Some (block_best better sc its b).
Proof.
  intros Hb. unfold block_best.
  destruct (cands sc (256 * b) (block_len its b)) as [|x l] eqn:Hc; [|done].
  apply (f_equal length) in Hc. unfold cands, block_len in Hc.
  rewrite length_fmap, length_seq in Hc. cbn [length] in Hc. lia.
Qed.

Lemma block_cands_scores (scores : list A) (sc : nat → A) (its b : nat) :
  (∀ i, i < its → scores !! i = Some (sc i)) →
  block_cands scores its b = cands sc (256 * b) (block_len its b).
Proof.
  intros Hsc. unfold block_cands, cands, block_len.
  apply omap_seq_prefix; [lia| |].
  - intros i Hi. rewrite decide_True by lia. by rewrite Hsc by lia.
  - intros i Hi. rewrite decide_False; [done|]. lia.
Qed.

Lemma par_for_select_best (scores : list A) (sc : nat → A) (its blk : nat)
    (ov : list A) (oi : list nat) :
  (∀ i, i < its → scores !! i = Some (sc i)) →
  (∀ b, b < blk → 256 * b < its) →
  length ov = blk → length oi = blk →
  par_for (seq 0 blk) (select_best better scores its) (ov, oi)
  = ((λ b, (block_best better sc its b).1) <$> seq 0 blk,
     (λ b, (block_best better sc its b).2) <$> seq 0 blk).
Proof.
  intros Hsc Hblk Hov Hoi.
  rewrite <-(foldr_insert_all (λ b, (block_best better sc its b).1) ov blk Hov).
  rewrite <-(foldr_insert_all (λ b, (block_best better sc its b).2) oi blk Hoi).
  unfold par_for.
  assert (Hall : Forall (λ b, b < blk) (seq 0 blk)).
  { apply Forall_forall. intros b Hb%elem_of_seq. lia. }
  induction Hall as [|b s Hb Hall IH]; [done|].
  cbn [foldr]. rewrite IH. unfold select_best at 1.
  rewrite (block_cands_scores _ sc) by done.
  rewrite block_best_reduce by auto.
  by destruct (block_best better sc its b).
Qed.

(** The two output arrays of a kernel that selects per work-group. *)
Lemma par_for_block_select (sc : nat → A) (d : A) (its blk : nat)
    (ov : list A) (oi : list nat) :
  its ≤ 256 * blk → (∀ b, b < blk → 256 * b < its) →
  length ov = blk → length oi = blk →
  par_for (seq 0 (256 * blk))
    (block_select better
       (par_for (seq 0 (256 * blk)) (scatter its sc) (replicate (256 * blk) d)) its)
    (ov, oi)
  = ((λ b, (block_best better sc its b).1) <$> seq 0 blk,
     (λ b, (block_best better sc its b).2) <$> seq 0 blk).
Proof.
  intros Hits Hblk Hov Hoi. unfold block_select.
  rewrite par_for_at_leader. apply par_for_select_best; try done.
  intros i Hi. by apply scatter_scores_lookup.
Qed.

End Selection.

(** The per-work-group sums of the flags add up to the number of flags
    set. *)
Lemma par_for_block_sum (flags : list nat) (blk : nat) (out : list nat) :
  length out = blk →
  par_for (seq 0 (256 * blk)) (block_sum flags) out
  = (λ b, sum_list (take 256 (drop (256 * b) flags))) <$> seq 0 blk.
Proof.
  intros Hout. unfold block_sum. rewrite par_for_at_leader.
  by rewrite <-(foldr_insert_all _ out blk Hout).
Qed.

Lemma sum_list_blocks (flags : list nat) (blk : nat) :
  sum_list ((λ b, sum_list (take 256 (drop (256 * b) flags))) <$> seq 0 blk)
  = sum_list (take (256 * blk) flags).
Proof.
  induction blk as [|blk IH]; [done|].
  rewrite seq_S, fmap_app, sum_list_with_app, IH, Nat.add_0_l.
  replace (256 * S blk) with (256 * blk + 256) by lia.
  rewrite <-take_take_drop, sum_list_with_app.
  cbn [fmap list_fmap sum_list_with]. unfold id. lia.
Qed.

Lemma sum_list_flags (flag : nat → nat) (bound n : nat) :
  bound ≤ n →
  sum_list ((λ i, if decide (i < bound) then flag i else 0) <$> seq 0 n)
  = sum_list (flag <$> seq 0 bound).
Proof.
  intros Hn. replace n with (bound + (n - bound)) by lia.
  rewrite seq_app, fmap_app, sum_list_with_app.
  rewrite (list_fmap_ext _ flag (seq 0 bound)).
  2:{ intros i x Hx%lookup_seq. by rewrite decide_True by lia. }
  rewrite (list_fmap_ext _ (λ _, 0) (seq (0 + bound) _)).
  2:{ intros i x Hx%lookup_seq. by rewrite decide_False by lia. }
  rewrite sum_list_fmap_const. lia.
Qed.

(** ** The kernels and primitives on the device memory *)

Section KernelResults.
Context `{num : Numerics}.

Lemma more_inliers_irrefl a : more_inliers a a = false.
Proof. unfold more_inliers. apply bool_decide_eq_false. lia. Qed.

Lemma more_inliers_trans a b c :
  more_inliers a b = true → more_inliers b c = true → more_inliers a c = true.
Proof. unfold more_inliers. rewrite !bool_decide_eq_true. lia. Qed.

Lemma more_inliers_negtrans a b c :
  more_inliers a b = false → more_inliers b c = false → more_inliers a c = false.
Proof. unfold more_inliers. rewrite !bool_decide_eq_false. lia. Qed.

Lemma eval_ransac_mem (m : mem) (its blk ns : nat) (thr : flt) :
  its ≤ 256 * blk → (∀ b, b < blk → 256 * b < its) →
  length (mU m Buf.inliers) = blk → length (mU m Buf.idx) = blk →
  eval_homography_kernel (seq 0 (256 * blk)) AF_HOMOGRAPHY_RANSAC its ns thr m
  = set_mU Buf.idx
      ((λ b, (block_best more_inliers (ransac_score m ns thr) its b).2) <$> seq 0 blk)
      (set_mU Buf.inliers
         ((λ b, (block_best more_inliers (ransac_score m ns thr) its b).1) <$> seq 0 blk)
         m).
Proof.
  intros Hits Hblk Hinl Hidx. unfold eval_homography_kernel.
  rewrite length_seq, par_for_block_select by done. done.
Qed.

Lemma compute_median_mem (m : mem) (its blk : nat) :
  its ≤ 256 * blk → (∀ b, b < blk → 256 * b < its) →
  length (mF m Buf.median) = blk → length (mU m Buf.idx) = blk →
  compute_median_kernel (seq 0 (256 * blk)) its m
  = set_mU Buf.idx
      ((λ b, (block_best smaller_median (lmeds_score m) its b).2) <$> seq 0 blk)
      (set_mF Buf.median
         ((λ b, (block_best smaller_median (lmeds_score m) its b).1) <$> seq 0 blk)
         m).
Proof.
  intros Hits Hblk Hmed Hidx. unfold compute_median_kernel.
  rewrite length_seq, par_for_block_select by done. done.
Qed.

Lemma imap_scores {A : Type} (sc : nat → A) (n : nat) :
  imap (λ b v, (v, b)) (sc <$> seq 0 n) = cands sc 0 n.
Proof.
  apply list_eq; intros i. unfold cands.
  rewrite list_lookup_imap, !list_lookup_fmap.
  destruct (seq 0 n !! i) as [x|] eqn:Hx; [|done].
  apply lookup_seq in Hx as [-> _]. done.
Qed.

Lemma foldl_pick_first_in {A : Type} (better : A → A → bool) (x : A * nat) l :
  foldl (pick_first better) x l ∈ x :: l.
Proof.
  induction l as [|y l IH] using rev_ind.
  - simpl. apply elem_of_cons. by left.
  - rewrite foldl_snoc, app_comm_cons.
    unfold pick_first at 1. destruct (better _ _); apply elem_of_app.
    + right. by apply list_elem_of_singleton.
    + by left.
Qed.

Lemma first_best_reduce {A : Type} (better : A → A → bool) (sc : nat → A) (n : nat) :
  0 < n →
  reduce_first better (cands sc 0 n)
  = Some (sc (first_best better sc n), first_best better sc n).
Proof.
  intros Hn. unfold first_best.
  destruct (cands sc 0 n) as [|x l] eqn:Hc.
  - apply (f_equal length) in Hc. unfold cands in Hc.
    rewrite length_fmap, length_seq in Hc. cbn [length] in Hc. lia.
  - cbn [reduce_first default snd]. f_equal.
    pose proof (foldl_pick_first_in better x l) as Hin.
    rewrite <-Hc in Hin. unfold cands in Hin.
    apply list_elem_of_fmap in Hin as (i & Hi & _). by rewrite Hi.
Qed.

Lemma ireduce_max_mem (m : mem) (out loc inp : Buf.t) (sc : nat → nat) (n : nat) :
  0 < n → mU m inp = sc <$> seq 0 n →
  ireduce_max out loc inp m
  = set_mU loc (<[0 := first_best more_inliers sc n]> (mU m loc))
      (set_mU out (<[0 := sc (first_best more_inliers sc n)]> (mU m out)) m).
Proof.
  intros Hn Hinp. unfold ireduce_max.
  by rewrite Hinp, imap_scores, first_best_reduce.
Qed.

Lemma find_min_median_mem (m : mem) (sc : nat → flt) (pay : nat → nat) (n : nat) :
  0 < n →
  mF m Buf.median = sc <$> seq 0 n → mU m Buf.idx = pay <$> seq 0 n →
  find_min_median_kernel m
  = set_mU Buf.finalIdx
      (<[0 := pay (first_best smaller_median sc n)]> (mU m Buf.finalIdx))
      (set_mF Buf.finalMedian
         (<[0 := sc (first_best smaller_median sc n)]> (mF m Buf.finalMedian)) m).
Proof.
  intros Hn Hmed Hidx. unfold find_min_median_kernel. rewrite Hmed, Hidx.
  assert (Hzip : zip (sc <$> seq 0 n) (pay <$> seq 0 n)
                 = (λ i, (sc i, pay i)) <$> seq 0 n).
  { apply list_eq; intros i.
    rewrite lookup_zip_with, !list_lookup_fmap.
    by destruct (seq 0 n !! i). }
  rewrite Hzip.
  destruct (reduce_first_seq smaller_median flt_ltb_irrefl flt_ltb_trans flt_ltb_negtrans
              sc pay 0 n Hn) as (p & -> & Hp & Hno & Hbef).
  assert (p = first_best smaller_median sc n) as <-; [|done].
  apply (is_first_best_unique smaller_median sc n).
  - split; [lia|]. split; intros j Hj; [apply Hno|apply Hbef]; lia.
  - apply first_best_spec; [apply flt_ltb_irrefl|apply flt_ltb_trans|apply flt_ltb_negtrans|done].
Qed.

(** The flags of the classification kernel add up to the number of
    correspondences below the scale. *)
Lemma sum_lmeds_flags (m : mem) (minMedian : flt) (ns : nat) :
  sum_list (lmeds_flag m minMedian <$> seq 0 ns)
  = length (List.filter (λ c, flt_ltb (reproj (take 9 (mT m Buf.bestH)) c) minMedian)
                        (corrs m ns)).
Proof.
  unfold corrs. induction ns as [|ns IH]; [done|].
  rewrite seq_S, fmap_app, omap_app, sum_list_with_app, List.filter_app, length_app, IH.
  f_equal. simpl. unfold lmeds_flag.
  destruct (corr_at m ns) as [c|]; simpl; [|done].
  destruct (flt_ltb _ _); done.
Qed.

Lemma compute_lmeds_inliers_mem (m : mem) (minMedian : flt) (ns blk : nat) :
  ns ≤ 256 * blk → length (mU m Buf.inliers) = blk →
  ∃ inl,
    compute_lmeds_inliers_kernel (seq 0 (256 * blk)) minMedian ns m
    = set_mU Buf.inliers inl m
    ∧ sum_list inl
      = length (List.filter
                  (λ c, flt_ltb (reproj (take 9 (mT m Buf.bestH)) c) minMedian)
                  (corrs m ns)).
Proof.
  intros Hns Hinl. eexists. split.
  - unfold compute_lmeds_inliers_kernel.
    rewrite length_seq, par_for_block_sum by done. done.
  - rewrite sum_list_blocks, scatter_scores.
    rewrite take_ge by (rewrite length_fmap, length_seq; lia).
    rewrite sum_list_flags by done. apply sum_lmeds_flags.
Qed.

End KernelResults.

(** ** Host arithmetic *)

Lemma elements_param_1d (d0 : N) : elements (param_1d d0) = d0.
Proof. unfold elements, param_1d. simpl. lia. Qed.

Lemma wrap32_small (n : N) : (n < 2 ^ 32)%N → wrap32 n = n.
Proof. intros. unfold wrap32. by apply N.mod_small. Qed.

Lemma divup_to_nat (a : N) :
  (a + 255 < 2 ^ 32)%N → N.to_nat (divup a HG_THREADS) = (N.to_nat a + 255) / 256.
Proof.
  intros Ha. unfold divup, HG_THREADS. rewrite wrap32_small by lia.
  rewrite N2Nat.inj_div. f_equal. lia.
Qed.

Lemma blocks_cover (n : nat) :
  n ≤ 256 * ((n + 255) / 256) ∧ (∀ b, b < (n + 255) / 256 → 256 * b < n).
Proof.
  pose proof (Nat.div_mod_eq (n + 255) 256).
  pose proof (Nat.mod_upper_bound (n + 255) 256).
  split; [lia|]. intros b Hb. lia.
Qed.

Lemma grid_to_nat (blk : N) : N.to_nat (blk * HG_THREADS) = 256 * N.to_nat blk.
Proof. unfold HG_THREADS. lia. Qed.

Lemma alloc_count (n s : N) : s ≠ 0%N → N.to_nat (n * s / s) = N.to_nat n.
Proof. intros. by rewrite N.div_mul. Qed.

Lemma cast_int_small (n : nat) (bound : N) :
  n ≤ N.to_nat bound → (bound < 2 ^ 31)%N → cast_int (N.of_nat n) = Z.of_nat n.
Proof.
  intros Hn Hb. unfold cast_int.
  destruct (N.ltb_spec (N.of_nat n) (2 ^ 31)); lia.
Qed.

(** ** Running the host commands when the substrate raises nothing *)

Section Run.
Context `{num : Numerics} (env : Env).
Hypothesis Hnf : no_faults env.

Abbreviation St m t c := {| s_mem := m; s_trace := t; s_compiled := c |}.

Lemma bind_run {A B : Type} (m : M A) (f : A → M B) s s' a r :
  m s = (s', Ok a) → f a s' = r → (m ≫= f) s = r.
Proof. intros Hm Hf. unfold mbind, M_bind. by rewrite Hm. Qed.

Lemma substrate_call_run {A : Type} c (f : mem → option (mem * A)) m t cp m' a :
  f m = Some (m', a) →
  substrate_call env c f (St m t cp) = (St m' (t ++ [c]) cp, Ok a).
Proof. intros Hf. unfold substrate_call. simpl. by rewrite Hnf, Hf. Qed.

Lemma call_once_build_run htype m t cp :
  call_once_build env htype (St m t cp)
  = (St m (t ++ build_cmds T_dtype htype cp) true, Ok ()).
Proof.
  unfold call_once_build, build_cmds. simpl. destruct cp.
  - by rewrite app_nil_r.
  - by rewrite (substrate_call_run _ _ m t false m ()).
Qed.

Lemma launch_run k g l eff m t cp :
  launch env k g l eff (St m t cp) = (St (eff m) (t ++ [Launch k g l]) cp, Ok ()).
Proof. by apply substrate_call_run. Qed.

Lemma bufferAlloc_unsigned_run b bytes m t cp :
  bufferAlloc_unsigned env b bytes (St m t cp)
  = (St (set_mU b (replicate (N.to_nat (bytes / sizeof_unsigned)) 0) m)
        (t ++ [BufferAlloc b bytes]) cp, Ok ()).
Proof. by apply substrate_call_run. Qed.

Lemma bufferAlloc_float_run b bytes m t cp :
  bufferAlloc_float env b bytes (St m t cp)
  = (St (set_mF b (replicate (N.to_nat (bytes / sizeof_float)) flt_uninit) m)
        (t ++ [BufferAlloc b bytes]) cp, Ok ()).
Proof. by apply substrate_call_run. Qed.

Lemma bufferFree_run b m t cp :
  bufferFree b (St m t cp) = (St m (t ++ [BufferFree b]) cp, Ok ()).
Proof. done. Qed.

Lemma enqueueReadBuffer_unsigned_run b off v m t cp :
  mU m b !! N.to_nat (off / sizeof_unsigned) = Some v →
  enqueueReadBuffer_unsigned env b off (St m t cp)
  = (St m (t ++ [EnqueueReadBuffer b off sizeof_unsigned]) cp, Ok (N.of_nat v)).
Proof. intros Hv. apply substrate_call_run. by rewrite Hv. Qed.

Lemma enqueueReadBuffer_float_run b off v m t cp :
  mF m b !! N.to_nat (off / sizeof_float) = Some v →
  enqueueReadBuffer_float env b off (St m t cp)
  = (St m (t ++ [EnqueueReadBuffer b off sizeof_float]) cp, Ok v).
Proof. intros Hv. apply substrate_call_run. by rewrite Hv. Qed.

Lemma sizeof_nonzero d : sizeof d ≠ 0%N.
Proof. by destruct d. Qed.

(** The copy of row [w] of [H] into [bestH]. *)
Lemma copy_T_row (w : nat) (m : mem) :
  (N.of_nat w * 9 < 2 ^ 32)%N →
  9 * w + 9 ≤ length (mT m Buf.H) → 9 ≤ length (mT m Buf.bestH) →
  copy_T Buf.H Buf.bestH (wrap32 (N.of_nat w * 9) * sizeof T_dtype) 0 (9 * sizeof T_dtype) m
  = Some (set_mT Buf.bestH (list_inserts 0 (H_row (mT m Buf.H) w) (mT m Buf.bestH)) m).
Proof.
  intros Hw HH Hb. unfold copy_T.
  rewrite wrap32_small by done.
  rewrite !N.div_mul by apply sizeof_nonzero.
  rewrite N.Div0.div_0_l.
  replace (N.to_nat (N.of_nat w * 9)) with (9 * w) by lia.
  change (N.to_nat 9) with 9. change (N.to_nat 0) with 0.
  rewrite decide_True by lia. done.
Qed.

Lemma enqueueCopyBuffer_run (w : nat) m t cp :
  (N.of_nat w * 9 < 2 ^ 32)%N →
  9 * w + 9 ≤ length (mT m Buf.H) → 9 ≤ length (mT m Buf.bestH) →
  enqueueCopyBuffer env Buf.H Buf.bestH
    (wrap32 (N.of_nat w * 9) * sizeof T_dtype) 0 (9 * sizeof T_dtype) (St m t cp)
  = (St (set_mT Buf.bestH (list_inserts 0 (H_row (mT m Buf.H) w) (mT m Buf.bestH)) m)
        (t ++ [copy_cmd T_dtype (N.of_nat w)]) cp, Ok ()).
Proof.
  intros. apply substrate_call_run. by rewrite copy_T_row.
Qed.

End Run.

(** ** The selected iteration is the first best of all iterations *)

Lemma two_level_winner {A : Type} (better : A → A → bool) (sc : nat → A) (its blk : nat) :
  (∀ a, better a a = false) →
  (∀ a b c, better a b = true → better b c = true → better a c = true) →
  (∀ a b c, better a b = false → better b c = false → better a c = false) →
  0 < its → its ≤ 256 * blk → (∀ b, b < blk → 256 * b < its) →
  block_best better sc its (first_best better (λ b, (block_best better sc its b).1) blk)
  = (sc (first_best better sc its), first_best better sc its).
Proof.
  intros Hirr Htr Hneg Hits Hle Hblk.
  assert (0 < blk) by lia.
  assert (256 * (blk - 1) < its) by (apply Hblk; lia).
  pose proof (first_best_spec better Hirr Htr Hneg
                (λ b, (block_best better sc its b).1) blk ltac:(done)) as Hp.
  destruct (first_best_two_level better Hirr Htr Hneg sc its blk _
              ltac:(done) ltac:(done) ltac:(done) Hp) as [Hw Hv].
  pose proof (first_best_spec better Hirr Htr Hneg sc its ltac:(done)) as Hfb.
  pose proof (is_first_best_unique better sc its _ _ Hw Hfb) as Heq.
  destruct (block_best better sc its _) as [v w]. simpl in *. by subst.
Qed.

(** ** The two branches and the whole call, no fault *)

Section RunRansac.
Context `{num : Numerics} (env : Env).
Hypothesis Hnf : no_faults env.

Abbreviation St m t c := {| s_mem := m; s_trace := t; s_compiled := c |}.

Lemma ransac_branch_run (m : mem) t cp (its blk ns : nat) (thr : flt) :
  0 < its → its ≤ 256 * blk → (∀ b, b < blk → 256 * b < its) →
  (N.of_nat its * 9 < 2 ^ 32)%N →
  9 * its ≤ length (mT m Buf.H) → 9 ≤ length (mT m Buf.bestH) →
  let sc := ransac_score m ns thr in
  let w := first_best more_inliers sc its in
  mU m Buf.inliers = (λ b, (block_best more_inliers sc its b).1) <$> seq 0 blk →
  mU m Buf.idx = (λ b, (block_best more_inliers sc its b).2) <$> seq 0 blk →
  ∃ m' p,
    ransac_branch env (St m t cp)
    = (St m' (t ++ ransac_cmds T_dtype p (N.of_nat w)) cp, Ok (N.of_nat (sc w)))
    ∧ mT m' Buf.bestH = list_inserts 0 (H_row (mT m Buf.H) w) (mT m Buf.bestH)
    ∧ mT m' Buf.H = mT m Buf.H
    ∧ mErr m' = mErr m ∧ mCoord m' = mCoord m ∧ mRnd m' = mRnd m.
Proof.
  intros Hits Hle Hblk H32 HH Hb sc w Hinl Hidx.
  set (p := first_best more_inliers (λ b, (block_best more_inliers sc its b).1) blk).
  assert (Hwin : block_best more_inliers sc its p = (sc w, w)).
  { apply two_level_winner;
      [apply more_inliers_irrefl|apply more_inliers_trans|apply more_inliers_negtrans|done..]. }
  assert (Hw : w < its).
  { by destruct (first_best_spec more_inliers more_inliers_irrefl more_inliers_trans
                   more_inliers_negtrans sc its Hits) as [? _]. }
  assert (Hp : p < blk).
  { by destruct (first_best_spec more_inliers more_inliers_irrefl more_inliers_trans
                   more_inliers_negtrans (λ b, (block_best more_inliers sc its b).1) blk
                   ltac:(lia)) as [? _]. }
  eexists _, (N.of_nat p). split.
  - unfold ransac_branch.
    eapply bind_run; [by apply bufferAlloc_unsigned_run|].
    eapply bind_run; [by apply bufferAlloc_unsigned_run|].
    eapply bind_run; [by apply substrate_call_run|].
    rewrite (ireduce_max_mem _ _ _ _ (λ b, (block_best more_inliers sc its b).1) blk);
      [|lia|exact Hinl].
    fold p. rewrite Hwin. cbn [fst snd].
    eapply bind_run.
    { apply enqueueReadBuffer_unsigned_run; [done|]. reflexivity. }
    eapply bind_run.
    { apply (enqueueReadBuffer_unsigned_run env Hnf _ _ w).
      unfold sizeof_unsigned. rewrite N.div_mul by done. rewrite Nat2N.id.
      change (mU _ Buf.idx) with (mU m Buf.idx). rewrite Hidx.
      rewrite list_lookup_fmap, lookup_seq_lt by done. simpl. by rewrite Hwin. }
    eapply bind_run.
    { apply enqueueReadBuffer_unsigned_run; [done|]. reflexivity. }
    eapply bind_run.
    { apply enqueueCopyBuffer_run; [done|lia| |].
      - change (mT _ Buf.H) with (mT m Buf.H). lia.
      - change (mT _ Buf.bestH) with (mT m Buf.bestH). lia. }
    eapply bind_run; [by apply bufferFree_run|].
    eapply bind_run; [by apply bufferFree_run|].
    unfold mret, M_ret, ransac_cmds. rewrite <-!app_assoc. simpl. reflexivity.
  - done.
Qed.
End RunRansac.

Section RunSetup.
Context `{num : Numerics} (env : Env).
Hypothesis Hnf : no_faults env.

Abbreviation St m t c := {| s_mem := m; s_trace := t; s_compiled := c |}.

Lemma no_faults_in_order : no_faults (in_order env).
Proof. exact Hnf. Qed.

Lemma length_compute_homography sched its (m : mem) :
  length (mT (compute_homography_kernel sched its m) Buf.H) = length (mT m Buf.H).
Proof.
  unfold compute_homography_kernel.
  change (mT (set_mT Buf.H ?v m) Buf.H) with v.
  unfold par_for. induction sched as [|i s IH]; [done|].
  cbn [foldr]. unfold ch_item at 1. case_decide; [|done].
  by rewrite length_inserts.
Qed.

(** The element counts of the temporaries and the extent of the
    evaluation grid. *)
Lemma temporaries_count (its : N) :
  (0 < its)%N → (its + 255 < 2 ^ 32)%N →
  let blk := N.to_nat (divup its HG_THREADS) in
  N.to_nat (elements (param_1d (divup its HG_THREADS)) * sizeof_unsigned / sizeof_unsigned) = blk
  ∧ N.to_nat (elements (param_1d (divup its HG_THREADS)) * sizeof_float / sizeof_float) = blk
  ∧ N.to_nat (divup its HG_THREADS * HG_THREADS) = 256 * blk
  ∧ 0 < blk
  ∧ N.to_nat its ≤ 256 * blk
  ∧ (∀ b, b < blk → 256 * b < N.to_nat its).
Proof.
  intros Hpos Hsmall blk.
  rewrite !elements_param_1d, !alloc_count by done.
  rewrite grid_to_nat.
  unfold blk. rewrite divup_to_nat by done.
  destruct (blocks_cover (N.to_nat its)) as [Hle Hblk].
  repeat split; try done. lia.
Qed.

End RunSetup.

Section RunComputeH.
Context `{num : Numerics} (env : Env).
Hypothesis Hnf : no_faults env.

Abbreviation St m t c := {| s_mem := m; s_trace := t; s_compiled := c |}.

Lemma computeH_ransac_run (its ns : N) (thr : flt) (m0 : mem) t0 c0 :
  (0 < its)%N → (its * 9 < 2 ^ 32)%N →
  9 * N.to_nat its ≤ length (mT m0 Buf.H) → 9 ≤ length (mT m0 Buf.bestH) →
  let sc := ransac_score (solved its m0) (N.to_nat ns) thr in
  let w := first_best more_inliers sc (N.to_nat its) in
  ∃ m' p,
    computeH (in_order env) AF_HOMOGRAPHY_RANSAC its ns thr (St m0 t0 c0)
    = (St m' (t0 ++ build_cmds T_dtype AF_HOMOGRAPHY_RANSAC c0
                 ++ setup_cmds AF_HOMOGRAPHY_RANSAC its ns
                 ++ ransac_cmds T_dtype p (N.of_nat w) ++ cleanup_cmds) true,
       Ok (cast_int (N.of_nat (sc w))))
    ∧ mT m' Buf.bestH = list_inserts 0 (H_row (mT (solved its m0) Buf.H) w) (mT m0 Buf.bestH)
    ∧ mT m' Buf.H = mT (solved its m0) Buf.H
    ∧ mErr m' = mErr m0 ∧ mCoord m' = mCoord m0 ∧ mRnd m' = mRnd m0.
Proof.
  intros Hpos H32 HH Hb sc w.
  destruct (temporaries_count its Hpos ltac:(lia))
    as (Hcu & Hcf & Hgrid & Hblk0 & Hle & Hblk).
  set (blk := N.to_nat (divup its HG_THREADS)) in *.
  set (m4 := set_mF Buf.median (replicate (N.to_nat (sizeof_float / sizeof_float)) flt_uninit)
               (set_mU Buf.inliers (replicate blk 0)
                  (set_mU Buf.idx (replicate blk 0) (solved its m0)))).
  set (m5 := set_mU Buf.idx ((λ b, (block_best more_inliers sc (N.to_nat its) b).2) <$> seq 0 blk)
               (set_mU Buf.inliers
                  ((λ b, (block_best more_inliers sc (N.to_nat its) b).1) <$> seq 0 blk) m4)).
  destruct (ransac_branch_run (in_order env) Hnf m5
              (t0 ++ build_cmds T_dtype AF_HOMOGRAPHY_RANSAC c0
                  ++ setup_cmds AF_HOMOGRAPHY_RANSAC its ns) true
              (N.to_nat its) blk (N.to_nat ns) thr)
    as (m' & p & Hrun & HbH & HH' & Herr & Hco & Hrnd);
    [lia|done|done|lia| | |reflexivity|reflexivity|].
  { change (mT m5 Buf.H) with (mT (solved its m0) Buf.H).
    unfold solved. by rewrite length_compute_homography. }
  { done. }
  exists m', p. split; [|done].
  unfold computeH.
  eapply bind_run; [apply call_once_build_run; exact Hnf|].
  eapply bind_run; [apply (launch_run (in_order env) Hnf)|].
  eapply bind_run; [apply (bufferAlloc_unsigned_run (in_order env) Hnf)|].
  eapply bind_run; [apply (bufferAlloc_unsigned_run (in_order env) Hnf)|].
  eapply bind_run; [apply (bufferAlloc_float_run (in_order env) Hnf)|].
  eapply bind_run; [apply (launch_run (in_order env) Hnf)|].
  rewrite Hcu.
  lazymatch goal with
  | |- context [eval_homography_kernel ?s ?h ?i ?n ?t ?m] =>
      change (eval_homography_kernel s h i n t m)
        with (eval_homography_kernel
                (seq 0 (N.to_nat (divup its HG_THREADS * HG_THREADS))) h i n t m4)
  end.
  rewrite Hgrid.
  rewrite (eval_ransac_mem m4 (N.to_nat its) blk (N.to_nat ns) thr Hle Hblk);
    [|exact (length_replicate blk 0)..].
  change (ransac_score m4 (N.to_nat ns) thr) with sc. fold m5.
  eapply bind_run.
  { rewrite <-!app_assoc. exact Hrun. }
  eapply bind_run; [by apply bufferFree_run|].
  eapply bind_run; [by apply bufferFree_run|].
  eapply bind_run; [by apply bufferFree_run|].
  unfold mret, M_ret, cleanup_cmds. by rewrite <-!app_assoc.
Qed.

End RunComputeH.

Lemma take_inserts_0 {A : Type} (k l : list A) (n : nat) :
  length k = n → n ≤ length l → take n (list_inserts 0 k l) = k.
Proof.
  intros Hk Hl. rewrite <-(take_drop n l) at 1.
  rewrite list_inserts_0_r by (rewrite length_take; lia).
  by rewrite take_app_length'.
Qed.

Lemma length_H_row `{num : Numerics} (Hb : list T) (w : nat) :
  9 * w + 9 ≤ length Hb → length (H_row Hb w) = 9.
Proof. intros. unfold H_row. rewrite length_take, length_drop. lia. Qed.

Section RunLmeds.
Context `{num : Numerics} (env : Env).
Hypothesis Hnf : no_faults env.

Abbreviation St m t c := {| s_mem := m; s_trace := t; s_compiled := c |}.

Lemma min_median_run (m : mem) t cp (its blk : nat) (blkN : N) (sc : nat → flt) :
  blk = N.to_nat blkN →
  0 < its → its ≤ 256 * blk → (∀ b, b < blk → 256 * b < its) →
  let w := first_best smaller_median sc its in
  mF m Buf.median = (λ b, (block_best smaller_median sc its b).1) <$> seq 0 blk →
  mU m Buf.idx = (λ b, (block_best smaller_median sc its b).2) <$> seq 0 blk →
  ∃ m',
    min_median (in_order env) blkN (St m t cp)
    = (St m' (t ++ min_median_cmds blkN) cp, Ok (sc w, N.of_nat w))
    ∧ mT m' = mT m ∧ mErr m' = mErr m ∧ mCoord m' = mCoord m ∧ mRnd m' = mRnd m
    ∧ mU m' Buf.inliers = mU m Buf.inliers.
Proof.
  intros Hblk Hits Hle Hcover w Hmed Hidx.
  set (p := first_best smaller_median (λ b, (block_best smaller_median sc its b).1) blk).
  assert (Hwin : block_best smaller_median sc its p = (sc w, w)).
  { apply two_level_winner;
      [apply flt_ltb_irrefl|apply flt_ltb_trans|apply flt_ltb_negtrans|done..]. }
  assert (Hp : p < blk).
  { by destruct (first_best_spec smaller_median flt_ltb_irrefl flt_ltb_trans
                   flt_ltb_negtrans (λ b, (block_best smaller_median sc its b).1) blk
                   ltac:(lia)) as [? _]. }
  unfold min_median, min_median_cmds. destruct (1 <? blkN)%N eqn:Hmany.
  - eexists. split.
    + eapply bind_run; [by apply bufferAlloc_float_run|].
      eapply bind_run; [by apply bufferAlloc_unsigned_run|].
      eapply bind_run; [by apply launch_run|].
      rewrite (find_min_median_mem _ (λ b, (block_best smaller_median sc its b).1)
                 (λ b, (block_best smaller_median sc its b).2) blk); [|lia|exact Hmed|exact Hidx].
      fold p. rewrite Hwin. cbn [fst snd].
      eapply bind_run.
      { apply enqueueReadBuffer_float_run; [done|]. reflexivity. }
      eapply bind_run.
      { apply enqueueReadBuffer_unsigned_run; [done|]. reflexivity. }
      eapply bind_run; [by apply bufferFree_run|].
      eapply bind_run; [by apply bufferFree_run|].
      unfold mret, M_ret. rewrite <-!app_assoc. reflexivity.
    + done.
  - assert (blk = 1) as Hone by (apply N.ltb_ge in Hmany; lia).
    assert (p = 0) as Hp0 by lia.
    eexists. split.
    + eapply bind_run.
      { apply (enqueueReadBuffer_float_run env Hnf _ _ (sc w)).
        rewrite Hmed, list_lookup_fmap.
        change (N.to_nat (0 / sizeof_float)) with 0.
        rewrite lookup_seq_lt by lia. simpl. rewrite <-Hp0. by rewrite Hwin. }
      eapply bind_run.
      { apply (enqueueReadBuffer_unsigned_run env Hnf _ _ w).
        rewrite Hidx, list_lookup_fmap.
        change (N.to_nat (0 / sizeof_unsigned)) with 0.
        rewrite lookup_seq_lt by lia. simpl. rewrite <-Hp0. by rewrite Hwin. }
      unfold mret, M_ret. rewrite <-!app_assoc. reflexivity.
    + done.
Qed.

End RunLmeds.

Section RunLmedsCall.
Context `{num : Numerics} (env : Env).
Hypothesis Hnf : no_faults env.

Abbreviation St m t c := {| s_mem := m; s_trace := t; s_compiled := c |}.

Lemma lmeds_inliers_run (m : mem) t cp (minMedian : flt) (ns : N) :
  (ns + 255 < 2 ^ 32)%N →
  length (mU m Buf.inliers) = N.to_nat (divup ns HG_THREADS) →
  ∃ m',
    lmeds_inliers (in_order env) minMedian ns (St m t cp)
    = (St m' (t ++ refine_cmds ns) cp,
       Ok (N.of_nat (count_below (take 9 (mT m Buf.bestH)) (corrs m (N.to_nat ns)) minMedian)))
    ∧ mT m' = mT m ∧ mErr m' = mErr m ∧ mCoord m' = mCoord m ∧ mRnd m' = mRnd m.
Proof.
  intros Hns Hinl.
  set (blk := N.to_nat (divup ns HG_THREADS)) in *.
  assert (Hle : N.to_nat ns ≤ 256 * blk).
  { unfold blk. rewrite divup_to_nat by done.
    by destruct (blocks_cover (N.to_nat ns)) as [? _]. }
  destruct (compute_lmeds_inliers_mem m minMedian (N.to_nat ns) blk Hle Hinl)
    as (inl & Hcl & Hsum).
  eexists. split.
  - unfold lmeds_inliers.
    eapply bind_run; [by apply launch_run|].
    lazymatch goal with
    | |- context [compute_lmeds_inliers_kernel ?s ?a ?b ?c] =>
        change (compute_lmeds_inliers_kernel s a b c)
          with (compute_lmeds_inliers_kernel
                  (seq 0 (N.to_nat (divup ns HG_THREADS * HG_THREADS))) a b c)
    end.
    rewrite grid_to_nat. fold blk. rewrite Hcl.
    eapply bind_run; [by apply bufferAlloc_unsigned_run|].
    eapply bind_run; [by apply substrate_call_run|].
    eapply bind_run.
    { apply enqueueReadBuffer_unsigned_run; [done|]. reflexivity. }
    eapply bind_run; [by apply bufferFree_run|].
    unfold mret, M_ret, refine_cmds. rewrite <-!app_assoc.
    change (mU (set_mU Buf.totalInliers _ (set_mU Buf.inliers inl m)) Buf.inliers) with inl.
    rewrite Hsum. reflexivity.
  - done.
Qed.

Lemma lmeds_branch_run (m : mem) t cp (its ns : N) :
  (0 < its)%N → (its * 9 < 2 ^ 32)%N → (ns + 255 < 2 ^ 32)%N →
  9 * N.to_nat its ≤ length (mT m Buf.H) → 9 ≤ length (mT m Buf.bestH) →
  length (mF m Buf.median) = N.to_nat (divup its HG_THREADS) →
  length (mU m Buf.idx) = N.to_nat (divup its HG_THREADS) →
  length (mU m Buf.inliers) = N.to_nat (divup ns HG_THREADS) →
  let sc := lmeds_score (set_mErr (sort0 (mErr m)) m) in
  let w := first_best smaller_median sc (N.to_nat its) in
  ∃ m',
    lmeds_branch (in_order env) its ns (divup its HG_THREADS)
      [(divup its HG_THREADS * HG_THREADS)%N] [HG_THREADS] (St m t cp)
    = (St m' (t ++ lmeds_cmds T_dtype its ns (N.of_nat w)) cp,
       Ok (N.of_nat (count_below (H_row (mT m Buf.H) w) (corrs m (N.to_nat ns)) (sc w))))
    ∧ mT m' Buf.bestH = list_inserts 0 (H_row (mT m Buf.H) w) (mT m Buf.bestH)
    ∧ mT m' Buf.H = mT m Buf.H
    ∧ mErr m' = sort0 (mErr m) ∧ mCoord m' = mCoord m ∧ mRnd m' = mRnd m.
Proof.
  intros Hpos H32 Hns HH Hb Hmed Hidx Hinl sc w.
  destruct (temporaries_count its Hpos ltac:(lia))
    as (_ & _ & Hgrid & Hblk0 & Hle & Hblk).
  set (blk := N.to_nat (divup its HG_THREADS)) in *.
  assert (Hw : w < N.to_nat its).
  { by destruct (first_best_spec smaller_median flt_ltb_irrefl flt_ltb_trans
                   flt_ltb_negtrans sc (N.to_nat its) ltac:(lia)) as [? _]. }
  set (m6 := set_mErr (sort0 (mErr m)) m).
  set (m7 := set_mU Buf.idx
               ((λ b, (block_best smaller_median sc (N.to_nat its) b).2) <$> seq 0 blk)
               (set_mF Buf.median
                  ((λ b, (block_best smaller_median sc (N.to_nat its) b).1) <$> seq 0 blk)
                  m6)).
  destruct (min_median_run env Hnf m7
              ((t ++ [Sort0 Buf.err])
                 ++ [Launch compute_median [(divup its HG_THREADS * HG_THREADS)%N] [HG_THREADS]])
              cp (N.to_nat its) blk (divup its HG_THREADS) sc)
    as (m8 & Hrun8 & HT8 & Herr8 & Hco8 & Hrnd8 & Hinl8);
    [done|lia|done|done|reflexivity|reflexivity|].
  change (mT m7) with (mT m) in HT8. change (mErr m7) with (sort0 (mErr m)) in Herr8.
  change (mCoord m7) with (mCoord m) in Hco8. change (mRnd m7) with (mRnd m) in Hrnd8.
  change (mU m7 Buf.inliers) with (mU m Buf.inliers) in Hinl8.
  set (m9 := set_mT Buf.bestH
               (list_inserts 0 (H_row (mT m8 Buf.H) w) (mT m8 Buf.bestH)) m8).
  destruct (lmeds_inliers_run m9
              ((((t ++ [Sort0 Buf.err])
                   ++ [Launch compute_median [(divup its HG_THREADS * HG_THREADS)%N]
                         [HG_THREADS]])
                  ++ min_median_cmds (divup its HG_THREADS))
                 ++ [copy_cmd T_dtype (N.of_nat w)])
              cp (sc w) ns Hns)
    as (m' & Hrun' & HT' & Herr' & Hco' & Hrnd').
  { change (mU m9 Buf.inliers) with (mU m8 Buf.inliers). by rewrite Hinl8. }
  exists m'. split.
  - unfold lmeds_branch.
    eapply bind_run; [by apply substrate_call_run|].
    eapply bind_run; [by apply launch_run|].
    lazymatch goal with
    | |- context [compute_median_kernel ?s ?a ?b] =>
        change (compute_median_kernel s a b)
          with (compute_median_kernel
                  (seq 0 (N.to_nat (divup its HG_THREADS * HG_THREADS))) a m6)
    end.
    rewrite Hgrid.
    rewrite (compute_median_mem m6 (N.to_nat its) blk Hle Hblk); [|exact Hmed|exact Hidx].
    change (lmeds_score m6) with sc. fold m7.
    eapply bind_run; [exact Hrun8|]. cbv beta iota.
    eapply bind_run.
    { apply enqueueCopyBuffer_run; [done|lia| |].
      - rewrite HT8. lia.
      - rewrite HT8. lia. }
    etransitivity; [exact Hrun'|].
    unfold lmeds_cmds, median_cmds. rewrite <-!app_assoc.
    do 3 f_equal.
    assert (Htake : take 9 (mT m9 Buf.bestH) = H_row (mT m Buf.H) w).
    { change (mT m9 Buf.bestH)
        with (list_inserts 0 (H_row (mT m8 Buf.H) w) (mT m8 Buf.bestH)).
      rewrite HT8. apply take_inserts_0; [|done].
      apply length_H_row. lia. }
    rewrite Htake. unfold count_below, corrs, corr_at.
    change (mCoord m9) with (mCoord m8). rewrite Hco8. done.
  - rewrite HT', Herr', Hco', Hrnd'.
    change (mT m9 Buf.bestH)
      with (list_inserts 0 (H_row (mT m8 Buf.H) w) (mT m8 Buf.bestH)).
    change (mT m9 Buf.H) with (mT m8 Buf.H).
    change (mErr m9) with (mErr m8). change (mCoord m9) with (mCoord m8).
    change (mRnd m9) with (mRnd m8).
    rewrite HT8, Herr8, Hco8, Hrnd8. done.
Qed.

End RunLmedsCall.

Section RunComputeHLmeds.
Context `{num : Numerics} (env : Env).
Hypothesis Hnf : no_faults env.

Abbreviation St m t c := {| s_mem := m; s_trace := t; s_compiled := c |}.

Lemma computeH_lmeds_run (its ns : N) (thr : flt) (m0 : mem) t0 c0 :
  (0 < its)%N → (its * 9 < 2 ^ 32)%N → (ns + 255 < 2 ^ 32)%N →
  9 * N.to_nat its ≤ length (mT m0 Buf.H) → 9 ≤ length (mT m0 Buf.bestH) →
  let e := sort0 (evaluated_err its ns m0) in
  let sc := λ i, median_sorted (default [] (e !! i)) in
  let w := first_best smaller_median sc (N.to_nat its) in
  ∃ m',
    computeH (in_order env) AF_HOMOGRAPHY_LMEDS its ns thr (St m0 t0 c0)
    = (St m' (t0 ++ build_cmds T_dtype AF_HOMOGRAPHY_LMEDS c0
                 ++ setup_cmds AF_HOMOGRAPHY_LMEDS its ns
                 ++ lmeds_cmds T_dtype its ns (N.of_nat w) ++ cleanup_cmds) true,
       Ok (cast_int (N.of_nat (count_below (H_row (mT (solved its m0) Buf.H) w)
                                           (corrs m0 (N.to_nat ns)) (sc w)))))
    ∧ mT m' Buf.bestH = list_inserts 0 (H_row (mT (solved its m0) Buf.H) w) (mT m0 Buf.bestH)
    ∧ mT m' Buf.H = mT (solved its m0) Buf.H
    ∧ mErr m' = e ∧ mCoord m' = mCoord m0 ∧ mRnd m' = mRnd m0.
Proof.
  intros Hpos H32 Hns HH Hb e sc w.
  destruct (temporaries_count its Hpos ltac:(lia))
    as (Hcu & Hcf & Hgrid & Hblk0 & Hle & Hblk).
  set (blk := N.to_nat (divup its HG_THREADS)) in *.
  set (m4 := set_mF Buf.median (replicate blk flt_uninit)
               (set_mU Buf.inliers
                  (replicate (N.to_nat (elements (param_1d (divup ns HG_THREADS))
                                        * sizeof_unsigned / sizeof_unsigned)) 0)
                  (set_mU Buf.idx (replicate blk 0) (solved its m0)))).
  set (m5 := set_mErr (evaluated_err its ns m0) m4).
  destruct (lmeds_branch_run env Hnf m5
              (t0 ++ build_cmds T_dtype AF_HOMOGRAPHY_LMEDS c0
                  ++ setup_cmds AF_HOMOGRAPHY_LMEDS its ns) true its ns)
    as (m' & Hrun & HbH & HH' & Herr & Hco & Hrnd); try done.
  { change (mT m5 Buf.H) with (mT (solved its m0) Buf.H).
    unfold solved. by rewrite length_compute_homography. }
  { exact (length_replicate blk flt_uninit). }
  { exact (length_replicate blk 0). }
  { change (mU m5 Buf.inliers)
      with (replicate (N.to_nat (elements (param_1d (divup ns HG_THREADS))
                                 * sizeof_unsigned / sizeof_unsigned)) 0).
    by rewrite length_replicate, elements_param_1d, alloc_count. }
  exists m'. split; [|done].
  unfold computeH.
  eapply bind_run; [apply call_once_build_run; exact Hnf|].
  eapply bind_run; [apply (launch_run (in_order env) Hnf)|].
  eapply bind_run; [apply (bufferAlloc_unsigned_run (in_order env) Hnf)|].
  eapply bind_run; [apply (bufferAlloc_unsigned_run (in_order env) Hnf)|].
  eapply bind_run; [apply (bufferAlloc_float_run (in_order env) Hnf)|].
  eapply bind_run; [apply (launch_run (in_order env) Hnf)|].
  rewrite Hcu, Hcf.
  eapply bind_run.
  { rewrite <-!app_assoc. exact Hrun. }
  eapply bind_run; [by apply bufferFree_run|].
  eapply bind_run; [by apply bufferFree_run|].
  eapply bind_run; [by apply bufferFree_run|].
  unfold mret, M_ret, cleanup_cmds. by rewrite <-!app_assoc.
Qed.

End RunComputeHLmeds.

(** ** A call that returns did not meet a fault *)

Section FaultFree.
Context `{num : Numerics}.

Lemma ok_le_refl {A : Type} (m : M A) : ok_le m m.
Proof. by intros s s1 a. Qed.

Lemma ok_le_bind {A B : Type} (m m' : M A) (f f' : A → M B) :
  ok_le m m' → (∀ a, ok_le (f a) (f' a)) → ok_le (m ≫= f) (m' ≫= f').
Proof.
  intros Hm Hf s s1 b. unfold mbind, M_bind.
  destruct (m s) as [s2 [a|]] eqn:Hms; [|done].
  rewrite (Hm _ _ _ Hms). apply Hf.
Qed.

Lemma ok_le_substrate_call {A : Type} env c (f : mem → option (mem * A)) :
  ok_le (substrate_call env c f) (substrate_call (fault_free env) c f).
Proof.
  intros s s1 a. unfold substrate_call. simpl.
  destruct (faults env _); [done|]. done.
Qed.

Lemma ok_le_call_once_build env htype :
  ok_le (call_once_build env htype) (call_once_build (fault_free env) htype).
Proof.
  intros s s1 a. unfold call_once_build.
  destruct (s_compiled s); [done|].
  destruct (substrate_call env _ _ s) as [s2 [[]|]] eqn:Hs; [|done].
  by rewrite (ok_le_substrate_call _ _ _ _ _ _ Hs).
Qed.

Ltac ok_le_step :=
  first
    [ apply ok_le_substrate_call
    | apply ok_le_call_once_build
    | apply ok_le_refl
    | apply ok_le_bind; [|intros ?] ].

Lemma ok_le_min_median env blk :
  ok_le (min_median env blk) (min_median (fault_free env) blk).
Proof.
  unfold min_median, bufferAlloc_float, bufferAlloc_unsigned, fmOp, launch,
    enqueueReadBuffer_float, enqueueReadBuffer_unsigned.
  destruct (1 <? blk)%N; repeat ok_le_step.
Qed.

Lemma ok_le_lmeds_inliers env med ns :
  ok_le (lmeds_inliers env med ns) (lmeds_inliers (fault_free env) med ns).
Proof.
  unfold lmeds_inliers, clOp, launch, bufferAlloc_unsigned, reduce_call,
    enqueueReadBuffer_unsigned.
  repeat ok_le_step.
Qed.

Lemma ok_le_lmeds_branch env its ns blk g l :
  ok_le (lmeds_branch env its ns blk g l) (lmeds_branch (fault_free env) its ns blk g l).
Proof.
  unfold lmeds_branch.
  apply ok_le_bind; [apply ok_le_substrate_call|intros _].
  apply ok_le_bind; [apply ok_le_substrate_call|intros _].
  apply ok_le_bind; [apply ok_le_min_median|intros [med w]].
  apply ok_le_bind; [apply ok_le_substrate_call|intros _].
  apply ok_le_lmeds_inliers.
Qed.

Lemma ok_le_ransac_branch env :
  ok_le (ransac_branch env) (ransac_branch (fault_free env)).
Proof.
  unfold ransac_branch, bufferAlloc_unsigned, ireduce_call,
    enqueueReadBuffer_unsigned, enqueueCopyBuffer.
  repeat ok_le_step.
Qed.

Lemma ok_le_computeH env htype its ns thr :
  ok_le (computeH env htype its ns thr) (computeH (fault_free env) htype its ns thr).
Proof.
  unfold computeH.
  apply ok_le_bind; [apply ok_le_call_once_build|intros _].
  apply ok_le_bind; [apply ok_le_substrate_call|intros _].
  apply ok_le_bind; [apply ok_le_substrate_call|intros _].
  apply ok_le_bind; [apply ok_le_substrate_call|intros _].
  apply ok_le_bind; [destruct htype; apply ok_le_substrate_call|intros _].
  apply ok_le_bind; [apply ok_le_substrate_call|intros _].
  apply ok_le_bind; [|intros ?; apply ok_le_refl].
  destruct htype; [apply ok_le_ransac_branch|apply ok_le_lmeds_branch].
Qed.

Lemma no_faults_fault_free env : no_faults (fault_free env).
Proof. by intros n. Qed.

Lemma valid_order_fault_free env : valid_order env → valid_order (fault_free env).
Proof. intros H k l. apply H. Qed.

(** A call that returns is the call of the same substrate without faults
    and with the work-items in order. *)
Lemma computeH_returns env htype its ns thr s s1 r :
  valid_order env →
  computeH env htype its ns thr s = (s1, Ok r) →
  computeH (in_order (fault_free env)) htype its ns thr s = (s1, Ok r).
Proof.
  intros Hord Hrun. apply ok_le_computeH in Hrun.
  by rewrite <-(computeH_order _ (valid_order_fault_free _ Hord)).
Qed.

End FaultFree.

(** ** Where [bestH] can be written *)

Section Frames.
Context `{num : Numerics}.

Lemma same_bestH_refl s : same_bestH s s.
Proof. done. Qed.

Lemma same_bestH_trans s1 s2 s3 : same_bestH s1 s2 → same_bestH s2 s3 → same_bestH s1 s3.
Proof. unfold same_bestH. congruence. Qed.

Lemma bestH_guarded_refl s : bestH_guarded s s.
Proof. exists []. split; [by rewrite app_nil_r|by left]. Qed.

Lemma bestH_guarded_trans s1 s2 s3 :
  bestH_guarded s1 s2 → bestH_guarded s2 s3 → bestH_guarded s1 s3.
Proof.
  intros (t1 & Ht1 & H1) (t2 & Ht2 & H2). exists (t1 ++ t2). split.
  - by rewrite Ht2, Ht1, app_assoc.
  - destruct H1 as [H1|[i Hi]]; [destruct H2 as [H2|[i Hi]]|].
    + left. by eapply same_bestH_trans.
    + right. exists i. apply elem_of_app. by right.
    + right. exists i. apply elem_of_app. by left.
Qed.

Lemma same_bestH_guarded s s' c :
  s_trace s' = s_trace s ++ [c] → same_bestH s s' → bestH_guarded s s'.
Proof. intros Ht Hs. exists [c]. split; [done|by left]. Qed.

Section Generic.
Context (R : state → state → Prop).
Hypothesis R_refl : ∀ s, R s s.
Hypothesis R_trans : ∀ s1 s2 s3, R s1 s2 → R s2 s3 → R s1 s3.

Lemma respects_ret {A : Type} (a : A) : respects R (mret a).
Proof. intros s s' r [= <- _]. apply R_refl. Qed.

Lemma respects_bind {A B : Type} (m : M A) (f : A → M B) :
  respects R m → (∀ a, respects R (f a)) → respects R (m ≫= f).
Proof.
  intros Hm Hf s s' r. unfold mbind, M_bind.
  destruct (m s) as [s1 [a|]] eqn:Hms.
  - intros Hfs. eapply R_trans; [by eapply Hm|by eapply Hf].
  - intros [= <- _]. by eapply Hm.
Qed.

Lemma respects_throws {A : Type} (m : M A) : respects R m → throws_within R m.
Proof. intros Hm s s' Hs. by eapply Hm. Qed.

(** A throw after a prefix that respects [R]. *)
Lemma throws_bind {A B : Type} (m : M A) (f : A → M B) :
  respects R m → (∀ a, throws_within R (f a)) → throws_within R (m ≫= f).
Proof.
  intros Hm Hf s s'. unfold mbind, M_bind.
  destruct (m s) as [s1 [a|]] eqn:Hms.
  - intros Hfs. eapply R_trans; [by eapply Hm|by eapply Hf].
  - intros [= <-]. by eapply Hm.
Qed.

(** A throw of a command that nothing fallible follows. *)
Lemma throws_last {A B : Type} (m : M A) (f : A → M B) :
  throws_within R m → (∀ a, never_throws (f a)) → throws_within R (m ≫= f).
Proof.
  intros Hm Hf s s'. unfold mbind, M_bind.
  destruct (m s) as [s1 [a|]] eqn:Hms.
  - intros Hfs. by apply Hf in Hfs.
  - intros [= <-]. by eapply Hm.
Qed.

End Generic.

Lemma never_throws_ret {A : Type} (a : A) : never_throws (mret a).
Proof. by intros s s'. Qed.

Lemma never_throws_bufferFree b : never_throws (bufferFree b).
Proof. by intros s s'. Qed.

Lemma never_throws_bind {A B : Type} (m : M A) (f : A → M B) :
  never_throws m → (∀ a, never_throws (f a)) → never_throws (m ≫= f).
Proof.
  intros Hm Hf s s'. unfold mbind, M_bind.
  destruct (m s) as [s1 [a|]] eqn:Hms; [apply Hf|]. by apply Hm in Hms.
Qed.

Lemma substrate_call_same {A : Type} env c (f : mem → option (mem * A)) :
  keeps_bestH f → respects same_bestH (substrate_call env c f).
Proof.
  intros Hf s s' r. unfold substrate_call.
  destruct (faults env _); [by intros [= <- _]|].
  destruct (f (s_mem s)) as [[m' a]|] eqn:Hfm; intros [= <- _]; [|done].
  unfold same_bestH. simpl. by eapply Hf.
Qed.

Lemma substrate_call_guarded {A : Type} env c (f : mem → option (mem * A)) :
  keeps_bestH f ∨ (∃ index, c = copy_cmd T_dtype index) →
  respects bestH_guarded (substrate_call env c f).
Proof.
  intros Hf s s' r. unfold substrate_call.
  destruct (faults env _); [intros [= <- _]; apply bestH_guarded_refl|].
  destruct (f (s_mem s)) as [[m' a]|] eqn:Hfm; intros [= <- _];
    [|apply bestH_guarded_refl].
  exists [c]. split; [done|]. destruct Hf as [Hf|[i ->]].
  - left. unfold same_bestH. simpl. by eapply Hf.
  - right. exists i. by apply list_elem_of_singleton.
Qed.

Lemma substrate_call_throw_same {A : Type} env c (f : mem → option (mem * A)) :
  throws_within same_bestH (substrate_call env c f).
Proof.
  intros s s'. unfold substrate_call.
  destruct (faults env _); [by intros [= <-]|].
  destruct (f (s_mem s)) as [[m' a]|]; [done|by intros [= <-]].
Qed.

(** The effects of the kernels, primitives and transfers on [bestH]. *)
Lemma keeps_launch (eff : mem → mem) :
  (∀ m, mT (eff m) Buf.bestH = mT m Buf.bestH) →
  keeps_bestH (λ m, Some (eff m, ())).
Proof. intros He m m' a [= <- _]. apply He. Qed.

Lemma keeps_read {A : Type} (g : mem → option A) :
  keeps_bestH (λ m, v ← g m; Some (m, v)).
Proof. intros m m' a. destruct (g m); simpl; [by intros [= <- _]|done]. Qed.

Lemma keeps_read_as {A B : Type} (g : mem → option A) (h : A → B) :
  keeps_bestH (λ m, v ← g m; Some (m, h v)).
Proof. intros m m' a. destruct (g m); simpl; [by intros [= <- _]|done]. Qed.

Lemma eval_keeps sched htype its ns thr (m : mem) :
  mT (eval_homography_kernel sched htype its ns thr m) Buf.bestH = mT m Buf.bestH.
Proof. by destruct htype. Qed.

Lemma ireduce_keeps out loc inp (m : mem) :
  mT (ireduce_max out loc inp m) Buf.bestH = mT m Buf.bestH.
Proof. unfold ireduce_max. by destruct (reduce_first _ _) as [[]|]. Qed.

Lemma find_min_median_keeps (m : mem) :
  mT (find_min_median_kernel m) Buf.bestH = mT m Buf.bestH.
Proof. unfold find_min_median_kernel. by destruct (reduce_first _ _) as [[]|]. Qed.

Lemma bufferFree_same b : respects same_bestH (bufferFree b).
Proof. by intros s s' r [= <- _]. Qed.

Lemma bufferFree_guarded b : respects bestH_guarded (bufferFree b).
Proof.
  intros s s' r [= <- _]. exists [BufferFree b]. split; [done|by left].
Qed.

Lemma call_once_build_same env htype : respects same_bestH (call_once_build env htype).
Proof.
  intros s s' r. unfold call_once_build.
  destruct (s_compiled s); [by intros [= <- _]|].
  destruct (substrate_call env _ _ s) as [s1 [[]|]] eqn:Hs; intros [= <- _].
  - apply (substrate_call_same env _ _ (keeps_launch (λ m, m) (λ m, eq_refl)) _ _ _ Hs).
  - apply (substrate_call_same env _ _ (keeps_launch (λ m, m) (λ m, eq_refl)) _ _ _ Hs).
Qed.

Lemma call_once_build_guarded env htype :
  respects bestH_guarded (call_once_build env htype).
Proof.
  intros s s' r. unfold call_once_build.
  destruct (s_compiled s); [intros [= <- _]; apply bestH_guarded_refl|].
  destruct (substrate_call env _ _ s) as [s1 [[]|]] eqn:Hs; intros [= <- _].
  - destruct (substrate_call_guarded env _ _
                (or_introl (keeps_launch (λ m, m) (λ m, eq_refl))) _ _ _ Hs)
      as (t & Ht & Hb).
    exists t. split; [done|]. done.
  - apply (substrate_call_guarded env _ _
             (or_introl (keeps_launch (λ m, m) (λ m, eq_refl))) _ _ _ Hs).
Qed.

End Frames.

Section FramesOfComputeH.
Context `{num : Numerics}.

Ltac keeps_tac :=
  first
    [ apply keeps_read
    | apply (keeps_read_as _ N.of_nat)
    | apply keeps_launch; intros;
      first [ reflexivity | apply eval_keeps | apply ireduce_keeps
            | apply find_min_median_keeps ] ].

Ltac same_step :=
  first
    [ apply (respects_ret same_bestH same_bestH_refl)
    | apply bufferFree_same
    | apply call_once_build_same
    | apply substrate_call_same; keeps_tac
    | apply (respects_bind same_bestH same_bestH_trans); [|intros ?] ].

Ltac guarded_step :=
  first
    [ apply (respects_ret bestH_guarded bestH_guarded_refl)
    | apply bufferFree_guarded
    | apply call_once_build_guarded
    | apply substrate_call_guarded; first [ left; keeps_tac | right; eexists; reflexivity ]
    | apply (respects_bind bestH_guarded bestH_guarded_trans); [|intros ?]
    | lazymatch goal with
      | |- respects _ (if ?c then _ else _) => destruct c
      | |- respects _ (match ?a with _ => _ end) => destruct a
      end ].

Ltac unfold_ops :=
  unfold chOp, ehOp, cmOp, fmOp, clOp, launch, bufferAlloc_float, bufferAlloc_unsigned,
    enqueueReadBuffer_float, enqueueReadBuffer_unsigned, enqueueCopyBuffer,
    sort0_call, reduce_call, ireduce_call.

Ltac never_step :=
  first
    [ apply never_throws_ret
    | apply never_throws_bufferFree
    | apply never_throws_bind; [|intros ?] ].

(** Whatever the outcome of a call, [bestH] is changed only by a logged
    copy into it. *)
Lemma computeH_guarded env htype its ns thr :
  respects bestH_guarded (computeH env htype its ns thr).
Proof.
  unfold computeH, ransac_branch, lmeds_branch, min_median, lmeds_inliers. unfold_ops.
  destruct htype; cbv beta iota zeta; repeat guarded_step.
Qed.

(** In the RANSAC branch every fallible command precedes the copy. *)
Lemma ransac_branch_throws env : throws_within same_bestH (ransac_branch env).
Proof.
  unfold ransac_branch. unfold_ops.
  do 6 (apply (throws_bind same_bestH same_bestH_trans); [same_step|intros ?]).
  apply throws_last; [apply substrate_call_throw_same|intros ?].
  repeat never_step.
Qed.

Lemma computeH_ransac_throws env its ns thr :
  throws_within same_bestH (computeH env AF_HOMOGRAPHY_RANSAC its ns thr).
Proof.
  unfold computeH. unfold_ops. cbv beta iota zeta.
  do 6 (apply (throws_bind same_bestH same_bestH_trans); [same_step|intros ?]).
  apply throws_last; [apply ransac_branch_throws|intros ?].
  repeat never_step.
Qed.

(** A call first builds the program, unless it is built, and launches the
    solver: nothing is checked before. *)
Lemma computeH_first_commands env htype its ns thr s s' r :
  faults env (length (s_trace s)) = false →
  faults env (S (length (s_trace s))) = false →
  computeH env htype its ns thr s = (s', r) →
  ∃ t, s_trace s'
       = s_trace s ++ build_cmds T_dtype htype (s_compiled s)
           ++ Launch compute_homography
                [(1 * HG_THREADS_X)%N; (divup its HG_THREADS_Y * HG_THREADS_Y)%N]
                [HG_THREADS_X; HG_THREADS_Y] :: t.
Proof.
  intros Hf0 Hf1. unfold computeH.
  unfold mbind at 1, M_bind at 1.
  assert (Hbuild : ∃ s1, call_once_build env htype s = (s1, Ok ())
                         ∧ s_trace s1 = s_trace s ++ build_cmds T_dtype htype (s_compiled s)
                         ∧ faults env (length (s_trace s1)) = false).
  { unfold call_once_build, build_cmds, substrate_call.
    destruct (s_compiled s).
    - eexists. split; [done|]. rewrite app_nil_r. done.
    - rewrite Hf0. eexists. split; [done|]. simpl. split; [done|].
      rewrite length_app. simpl. by rewrite Nat.add_1_r. }
  destruct Hbuild as (s1 & -> & Ht1 & Hf).
  unfold mbind at 1, M_bind at 1.
  unfold chOp at 1, launch at 1, substrate_call at 1. rewrite Hf.
  set (s2 := {| s_mem := _; s_trace := s_trace s1 ++ [_]; s_compiled := _ |}).
  intros Hrest.
  assert (Hg : ∃ t, s_trace s' = s_trace s2 ++ t).
  { lazymatch type of Hrest with
    | ?m s2 = _ => assert (respects bestH_guarded m) as Hm
    end.
    { unfold ransac_branch, lmeds_branch, min_median, lmeds_inliers. unfold_ops.
      destruct htype; cbv beta iota zeta; repeat guarded_step. }
    destruct (Hm _ _ _ Hrest) as (t & Ht & _). by exists t. }
  destruct Hg as (t & Ht). exists t.
  rewrite Ht. unfold s2. simpl. rewrite Ht1. by rewrite <-!app_assoc.
Qed.

End FramesOfComputeH.

(** ** The candidates and the residuals in terms of the inputs *)

Section ClosedForms.
Context `{num : Numerics}.

Lemma H_row_inserts_same (Hb k : list T) (i : nat) :
  length k = 9 → 9 * i + 9 ≤ length Hb → H_row (list_inserts (9 * i) k Hb) i = k.
Proof.
  intros Hk Hlen. unfold H_row. apply list_eq; intros p.
  destruct (decide (p < 9)) as [Hp|Hp].
  - rewrite lookup_take_lt, lookup_drop by done.
    rewrite list_lookup_inserts by lia. f_equal. lia.
  - rewrite lookup_take_ge by lia. symmetry. apply lookup_ge_None_2. lia.
Qed.

Lemma H_row_inserts_other (Hb k : list T) (i j : nat) :
  length k ≤ 9 → i ≠ j → H_row (list_inserts (9 * j) k Hb) i = H_row Hb i.
Proof.
  intros Hk Hij. unfold H_row. apply list_eq; intros p.
  destruct (decide (p < 9)) as [Hp|Hp].
  - rewrite !lookup_take_lt, !lookup_drop by done.
    destruct (decide (i < j)).
    + apply list_lookup_inserts_lt. lia.
    + apply list_lookup_inserts_ge. lia.
  - by rewrite !lookup_take_ge by lia.
Qed.

Lemma length_ch_fold (m : mem) its (s : list nat) (Hb : list T) :
  length (foldr (ch_item m its) Hb s) = length Hb.
Proof.
  induction s as [|a s IH]; [done|]. cbn [foldr]. unfold ch_item at 1.
  case_decide; [|done]. by rewrite length_inserts.
Qed.

Lemma H_row_ch_fold (m : mem) its (s : list nat) (Hb : list T) (i : nat) :
  i ∈ s → i < its → 9 * i + 9 ≤ length Hb →
  H_row (foldr (ch_item m its) Hb s) i = solve_h (samples m i).
Proof.
  intros Hin Hi Hlen. induction s as [|a s IH]; [by apply elem_of_nil in Hin|].
  cbn [foldr]. unfold ch_item at 1.
  assert (Hrow : ∀ j, take 9 (solve_h (samples m j)) = solve_h (samples m j)).
  { intros j. apply take_ge. by rewrite solve_h_length. }
  destruct (decide (a = i)) as [->|Hne].
  - rewrite decide_True by done. rewrite Hrow.
    apply H_row_inserts_same; [apply solve_h_length|by rewrite length_ch_fold].
  - apply elem_of_cons in Hin as [->|Hin]; [done|].
    case_decide; [|by apply IH].
    rewrite H_row_inserts_other; [by apply IH| |done].
    rewrite Hrow, solve_h_length. done.
Qed.

(** Row [i] of the solved candidates is the solve of sample [i]. *)
Lemma H_row_solved (its : N) (m0 : mem) (i : nat) :
  (its + 15 < 2 ^ 32)%N →
  i < N.to_nat its → 9 * N.to_nat its ≤ length (mT m0 Buf.H) →
  H_row (mT (solved its m0) Buf.H) i = solve_h (samples m0 i).
Proof.
  intros Hsmall Hi Hlen. unfold solved, compute_homography_kernel.
  change (mT (set_mT Buf.H ?v m0) Buf.H) with v. unfold par_for.
  apply H_row_ch_fold; [|done|lia].
  apply elem_of_seq. split; [lia|].
  unfold divup, HG_THREADS_Y. rewrite wrap32_small by lia.
  pose proof (N.Div0.div_mod (its + 16 - 1) 16).
  pose proof (N.mod_upper_bound (its + 16 - 1) 16). lia.
Qed.

Lemma eh_fold_lookup (m : mem) its ns (n : nat) (e : list (list flt)) (i : nat) :
  foldr (eh_store m its ns) e (seq 0 n) !! i
  = if decide (i < n ∧ i < its)
    then list_inserts 0 (residuals (H_row (mT m Buf.H) i) (corrs m ns)) <$> e !! i
    else e !! i.
Proof.
  revert e. induction n as [|n IH]; intros e.
  - cbn [seq foldr]. rewrite decide_False; [done|lia].
  - rewrite seq_S, foldr_app. cbn [foldr]. rewrite IH, Nat.add_0_l.
    unfold eh_store.
    destruct (decide (n < its)) as [Hn|Hn];
      destruct (decide (i < n ∧ i < its)) as [[H1 H2]|H3];
      destruct (decide (i < S n ∧ i < its)) as [[H4 H5]|H6]; try lia; try done.
    + by rewrite list_lookup_alter_ne by lia.
    + assert (i = n) as -> by lia. by rewrite list_lookup_alter_eq.
    + rewrite list_lookup_alter_ne; [done|]. intros ->. apply H6. lia.
Qed.

(** Line [i] of the evaluated residual matrix holds the residuals of
    candidate [i], when the line has room for exactly [nsamples] of them. *)
Lemma evaluated_err_line (its ns : N) (m0 : mem) (i : nat) (l : list flt) :
  (its + 255 < 2 ^ 32)%N → (its + 15 < 2 ^ 32)%N →
  i < N.to_nat its → 9 * N.to_nat its ≤ length (mT m0 Buf.H) →
  mErr m0 !! i = Some l → length l = N.to_nat ns →
  length (corrs m0 (N.to_nat ns)) = N.to_nat ns →
  evaluated_err its ns m0 !! i
  = Some (residuals (solve_h (samples m0 i)) (corrs m0 (N.to_nat ns))).
Proof.
  intros Hs1 Hs2 Hi Hlen Hl Hll Hc. unfold evaluated_err, par_for.
  rewrite eh_fold_lookup, Hl.
  rewrite decide_True.
  - cbn [fmap option_fmap option_map]. f_equal. rewrite H_row_solved by done.
    change (corrs (solved its m0) (N.to_nat ns)) with (corrs m0 (N.to_nat ns)).
    rewrite <-(app_nil_r (residuals _ _)) at 1.
    apply list_inserts_0_l. unfold residuals. rewrite length_fmap, Hll. exact Hc.
  - split; [|done]. rewrite grid_to_nat, divup_to_nat by done.
    destruct (blocks_cover (N.to_nat its)). lia.
Qed.

End ClosedForms.

(** ** A call that returns, on valid input *)

Section Success.
Context `{num : Numerics}.

Lemma ransac_score_frame (m m' : mem) ns thr :
  mT m' Buf.H = mT m Buf.H → mCoord m' = mCoord m →
  ransac_score m' ns thr = ransac_score m ns thr.
Proof.
  intros HH Hco. unfold ransac_score, corrs, corr_at. by rewrite HH, Hco.
Qed.

Lemma corrs_frame (m m' : mem) n : mCoord m' = mCoord m → corrs m' n = corrs m n.
Proof. intros Hco. unfold corrs, corr_at. by rewrite Hco. Qed.

Lemma length_solved (its : N) (m : mem) :
  length (mT (solved its m) Buf.H) = length (mT m Buf.H).
Proof. unfold solved. apply length_compute_homography. Qed.

Lemma take_bestH_row (Hb b0 bH : list T) (w : nat) :
  9 * w + 9 ≤ length Hb → 9 ≤ length b0 →
  bH = list_inserts 0 (H_row Hb w) b0 → take 9 bH = H_row Hb w.
Proof.
  intros HH Hb0 ->. apply take_inserts_0; [|done]. by apply length_H_row.
Qed.

(** A RANSAC call that returns. *)
Lemma ransac_success env its ns thr s0 s1 r :
  valid_order env → well_sized its (s_mem s0) →
  computeH env AF_HOMOGRAPHY_RANSAC its ns thr s0 = (s1, Ok r) →
  let sc := ransac_score (s_mem s1) (N.to_nat ns) thr in
  let w := first_best more_inliers sc (N.to_nat its) in
  is_first_best more_inliers sc (N.to_nat its) w
  ∧ r = cast_int (N.of_nat (sc w))
  ∧ (∃ p, s_trace s1
          = s_trace s0 ++ build_cmds T_dtype AF_HOMOGRAPHY_RANSAC (s_compiled s0)
              ++ setup_cmds AF_HOMOGRAPHY_RANSAC its ns
              ++ ransac_cmds T_dtype p (N.of_nat w) ++ cleanup_cmds)
  ∧ mT (s_mem s1) Buf.bestH
    = list_inserts 0 (H_row (mT (s_mem s1) Buf.H) w) (mT (s_mem s0) Buf.bestH)
  ∧ take 9 (mT (s_mem s1) Buf.bestH) = H_row (mT (s_mem s1) Buf.H) w
  ∧ mT (s_mem s1) Buf.H = mT (solved its (s_mem s0)) Buf.H
  ∧ mErr (s_mem s1) = mErr (s_mem s0)
  ∧ mCoord (s_mem s1) = mCoord (s_mem s0)
  ∧ mRnd (s_mem s1) = mRnd (s_mem s0).
Proof.
  intros Hord (Hpos & H32 & HH & Hb) Hrun sc w.
  apply computeH_returns in Hrun; [|done].
  destruct s0 as [m0 t0 c0]. cbn [s_mem s_trace s_compiled] in *.
  destruct (computeH_ransac_run (fault_free env) (no_faults_fault_free env)
              its ns thr m0 t0 c0 Hpos H32 HH Hb)
    as (m' & p & Hrun' & HbH & HH' & Herr & Hco & Hrnd).
  rewrite Hrun' in Hrun. injection Hrun as <- <-.
  subst w sc. cbn [s_mem s_trace s_compiled].
  assert (Hsc : ransac_score m' (N.to_nat ns) thr
                = ransac_score (solved its m0) (N.to_nat ns) thr).
  { by apply ransac_score_frame. }
  rewrite Hsc, HH'.
  assert (Hfb : is_first_best more_inliers
                  (ransac_score (solved its m0) (N.to_nat ns) thr) (N.to_nat its)
                  (first_best more_inliers
                     (ransac_score (solved its m0) (N.to_nat ns) thr) (N.to_nat its))).
  { apply first_best_spec;
      [apply more_inliers_irrefl|apply more_inliers_trans
      |apply more_inliers_negtrans|lia]. }
  split; [done|]. split; [done|]. split; [by exists p|]. split; [done|].
  split; [|done].
  eapply take_bestH_row; [| |exact HbH]; [|done].
  destruct Hfb as [Hw _].
  rewrite length_solved. lia.
Qed.

Lemma lmeds_score_frame (m : mem) (e : list (list flt)) :
  mErr m = e → lmeds_score m = λ i, median_sorted (default [] (e !! i)).
Proof. intros <-. done. Qed.

(** An LMedS call that returns. *)
Lemma lmeds_success env its ns thr s0 s1 r :
  valid_order env → well_sized its (s_mem s0) → (ns + 255 < 2 ^ 32)%N →
  computeH env AF_HOMOGRAPHY_LMEDS its ns thr s0 = (s1, Ok r) →
  let sc := lmeds_score (s_mem s1) in
  let w := first_best smaller_median sc (N.to_nat its) in
  is_first_best smaller_median sc (N.to_nat its) w
  ∧ r = cast_int (N.of_nat (count_below (take 9 (mT (s_mem s1) Buf.bestH))
                                        (corrs (s_mem s1) (N.to_nat ns)) (sc w)))
  ∧ s_trace s1
    = s_trace s0 ++ build_cmds T_dtype AF_HOMOGRAPHY_LMEDS (s_compiled s0)
        ++ setup_cmds AF_HOMOGRAPHY_LMEDS its ns
        ++ lmeds_cmds T_dtype its ns (N.of_nat w) ++ cleanup_cmds
  ∧ mT (s_mem s1) Buf.bestH
    = list_inserts 0 (H_row (mT (s_mem s1) Buf.H) w) (mT (s_mem s0) Buf.bestH)
  ∧ take 9 (mT (s_mem s1) Buf.bestH) = H_row (mT (s_mem s1) Buf.H) w
  ∧ mT (s_mem s1) Buf.H = mT (solved its (s_mem s0)) Buf.H
  ∧ mErr (s_mem s1) = sort0 (evaluated_err its ns (s_mem s0))
  ∧ mCoord (s_mem s1) = mCoord (s_mem s0)
  ∧ mRnd (s_mem s1) = mRnd (s_mem s0).
Proof.
  intros Hord (Hpos & H32 & HH & Hb) Hns Hrun sc w.
  apply computeH_returns in Hrun; [|done].
  destruct s0 as [m0 t0 c0]. cbn [s_mem s_trace s_compiled] in *.
  destruct (computeH_lmeds_run (fault_free env) (no_faults_fault_free env)
              its ns thr m0 t0 c0 Hpos H32 Hns HH Hb)
    as (m' & Hrun' & HbH & HH' & Herr & Hco & Hrnd).
  rewrite Hrun' in Hrun. injection Hrun as <- <-.
  subst w sc. cbn [s_mem s_trace s_compiled].
  rewrite (lmeds_score_frame m' _ Herr), HH'.
  set (sc' := λ i, median_sorted (default [] (sort0 (evaluated_err its ns m0) !! i))).
  assert (Hfb : is_first_best smaller_median sc' (N.to_nat its)
                  (first_best smaller_median sc' (N.to_nat its))).
  { apply first_best_spec;
      [apply flt_ltb_irrefl|apply flt_ltb_trans|apply flt_ltb_negtrans|lia]. }
  assert (Htake : take 9 (mT m' Buf.bestH)
                  = H_row (mT (solved its m0) Buf.H)
                          (first_best smaller_median sc' (N.to_nat its))).
  { eapply take_bestH_row; [| |exact HbH]; [|done].
    destruct Hfb as [Hw _].
    rewrite length_solved. lia. }
  split; [done|]. split.
  { by rewrite Htake, (corrs_frame m0 m') by done. }
  split; [done|]. done.
Qed.

(** On a substrate without faults a call on sized buffers returns. *)
Lemma computeH_total env htype its ns thr s0 :
  valid_order env → no_faults env → well_sized its (s_mem s0) → (ns + 255 < 2 ^ 32)%N →
  ∃ s1 r, computeH env htype its ns thr s0 = (s1, Ok r).
Proof.
  intros Hord Hnf (Hpos & H32 & HH & Hb) Hns.
  destruct s0 as [m0 t0 c0]. cbn [s_mem s_trace s_compiled] in *.
  rewrite (computeH_order env Hord). destruct htype.
  - destruct (computeH_ransac_run env Hnf its ns thr m0 t0 c0 Hpos H32 HH Hb)
      as (m' & p & Hrun & _). eauto.
  - destruct (computeH_lmeds_run env Hnf its ns thr m0 t0 c0 Hpos H32 Hns HH Hb)
      as (m' & Hrun & _). eauto.
Qed.

End Success.

(** * The claims *)

(** A run is the pair of its final state and its outcome. *)
Lemma run_outcome {A B : Type} (p : A * B) (b : B) : p.2 = b → p = (p.1, b).
Proof. intros <-. by destruct p. Qed.

Lemma valid_order_quiet : valid_order quiet.
Proof. by intros k l. Qed.

Lemma valid_order_backwards : valid_order backwards.
Proof. intros k l. apply reverse_Permutation. Qed.

Lemma well_sized_demo d n : well_sized (num := Z_numerics d) 3 (demo_mem d n).
Proof. repeat split; [simpl; lia|simpl; lia]. Qed.



Lemma length_omap_le {A B : Type} (f : A → option B) (l : list A) :
  length (omap f l) ≤ length l.
Proof.
  induction l as [|x l IH]; [done|].
  change (omap f (x :: l)) with (match f x with Some y => y :: omap f l | None => omap f l end).
  destruct (f x); cbn [length]; lia.
Qed.

Lemma length_corrs_le `{num : Numerics} (m : mem) (n : nat) : length (corrs m n) ≤ n.
Proof.
  unfold corrs. etrans; [apply length_omap_le|]. by rewrite length_seq.
Qed.

Lemma count_inliers_le `{num : Numerics} (h : list T) (m : mem) (n : nat) (thr : flt) :
  count_inliers h (corrs m n) thr ≤ n.
Proof.
  unfold count_inliers. etrans; [apply List.filter_length_le|]. apply length_corrs_le.
Qed.

Lemma count_below_le `{num : Numerics} (h : list T) (m : mem) (n : nat) (scale : flt) :
  count_below h (corrs m n) scale ≤ n.
Proof.
  unfold count_below. etrans; [apply List.filter_length_le|]. apply length_corrs_le.
Qed.

(** C1 (as stated) fails: on five correspondences of which the call is
    handed [nsamples = 4], the RANSAC call returns 2, launches no kernel
    after the index reduction, and three correspondences of the whole set
    are within the threshold under the homography it wrote. *)
Lemma C1_counterexample :
  let run := computeH (num := Z_numerics f32) quiet AF_HOMOGRAPHY_RANSAC 3 4 1%Z
               (demo_state f32 5) in
  run.2 = Ok 2%Z
  ∧ List.filter is_launch (after is_ireduce (s_trace run.1)) = []
  ∧ full_set_inliers (s_mem run.1) 1%Z = 3.
Proof. vm_compute. done. Qed.

(** C1 (amended) — in RANSAC mode no kernel is launched after the index
    reduction that selects the winner: the count returned is the score
    of the winning iteration as the evaluator computed it, the number of
    correspondences with index below [nsamples] whose reprojection error
    under the homography written to [bestH] is at most [inlier_thr], and
    no iteration has a higher count. *)
Theorem C1_ransac_returns_winner_score `{num : Numerics} env its ns thr s0 s1 r :
  valid_order env → well_sized its (s_mem s0) → (ns < 2 ^ 31)%N →
  computeH env AF_HOMOGRAPHY_RANSAC its ns thr s0 = (s1, Ok r) →
  List.filter is_launch (after is_ireduce (drop (length (s_trace s0)) (s_trace s1))) = []
  ∧ r = Z.of_nat (count_inliers (take 9 (mT (s_mem s1) Buf.bestH))
                                (corrs (s_mem s1) (N.to_nat ns)) thr)
  ∧ (∀ j, j < N.to_nat its →
          (Z.of_nat (ransac_score (s_mem s1) (N.to_nat ns) thr j) ≤ r)%Z).
Proof.
  intros Hord Hws Hns Hrun.
  destruct (ransac_success env its ns thr s0 s1 r Hord Hws Hrun)
    as (Hfb & Hr & (p & Ht) & _ & Htake & _).
  set (sc := ransac_score (s_mem s1) (N.to_nat ns) thr) in *.
  set (w := first_best more_inliers sc (N.to_nat its)) in *.
  assert (Hcast : r = Z.of_nat (sc w)).
  { rewrite Hr. apply (cast_int_small _ ns); [|done]. apply count_inliers_le. }
  split; [|split].
  - rewrite Ht, drop_app_length. unfold build_cmds. by destruct (s_compiled s0).
  - rewrite Hcast, Htake. done.
  - intros j Hj. rewrite Hcast. destruct Hfb as (_ & Hno & _). specialize (Hno j Hj).
    unfold more_inliers in Hno. apply bool_decide_eq_false in Hno.
    apply Nat.nlt_ge in Hno. by apply Nat2Z.inj_le.
Qed.

Lemma C1_witness :
  let run := computeH (num := Z_numerics f32) quiet AF_HOMOGRAPHY_RANSAC 3 4 1%Z
               (demo_state f32 4) in
  List.filter is_launch
    (after is_ireduce (drop (length (s_trace (demo_state f32 4))) (s_trace run.1))) = []
  ∧ 2%Z = Z.of_nat (count_inliers (take 9 (mT (s_mem run.1) Buf.bestH))
                                  (corrs (s_mem run.1) (N.to_nat 4)) 1%Z)
  ∧ (∀ j, j < N.to_nat 3 →
          (Z.of_nat (ransac_score (s_mem run.1) (N.to_nat 4) 1%Z j) ≤ 2)%Z).
Proof.
  intros run.
  apply (C1_ransac_returns_winner_score (num := Z_numerics f32) quiet 3 4 1%Z
           (demo_state f32 4) run.1 2%Z).
  - exact valid_order_quiet.
  - exact (well_sized_demo f32 4).
  - reflexivity.
  - apply run_outcome. vm_compute. reflexivity.
Defined.

(** C2 (as stated) fails: on five correspondences of which the call is
    handed [nsamples = 4], the LMedS call returns 2, and three
    correspondences of the whole set have a residual below the winning
    median under the homography it wrote. *)
Lemma C2_counterexample :
  let run := computeH (num := Z_numerics f32) quiet AF_HOMOGRAPHY_LMEDS 3 4 1%Z
               (demo_state f32 5) in
  let m := s_mem run.1 in
  run.2 = Ok 2%Z
  ∧ full_set_below m (lmeds_score m (first_best smaller_median (lmeds_score m) 3)) = 3.
Proof. vm_compute. done. Qed.

(** C2 (amended) — in LMedS mode the winner is the first iteration of
    minimal median; every correspondence with index below [nsamples] is
    flagged exactly when its residual under the homography written to
    [bestH] is below the median of the winner, and the count returned is
    the sum of these flags, the number of such correspondences. *)
Theorem C2_lmeds_returns_count_below_median `{num : Numerics} env its ns thr s0 s1 r :
  valid_order env → well_sized its (s_mem s0) → (ns + 255 < 2 ^ 31)%N →
  computeH env AF_HOMOGRAPHY_LMEDS its ns thr s0 = (s1, Ok r) →
  let m := s_mem s1 in
  let w := first_best smaller_median (lmeds_score m) (N.to_nat its) in
  is_first_best smaller_median (lmeds_score m) (N.to_nat its) w
  ∧ take 9 (mT m Buf.bestH) = H_row (mT m Buf.H) w
  ∧ r = Z.of_nat (sum_list (lmeds_flag m (lmeds_score m w) <$> seq 0 (N.to_nat ns)))
  ∧ r = Z.of_nat (count_below (take 9 (mT m Buf.bestH)) (corrs m (N.to_nat ns))
                              (lmeds_score m w)).
Proof.
  intros Hord Hws Hns Hrun m w.
  destruct (lmeds_success env its ns thr s0 s1 r Hord Hws ltac:(lia) Hrun)
    as (Hfb & Hr & _ & _ & Htake & _).
  fold m in Hfb, Hr, Htake. fold w in Hfb, Hr, Htake.
  assert (Hcast : r = Z.of_nat (count_below (take 9 (mT m Buf.bestH))
                                  (corrs m (N.to_nat ns)) (lmeds_score m w))).
  { rewrite Hr. apply (cast_int_small _ ns); [|lia]. apply count_below_le. }
  split; [done|]. split; [done|]. split; [|done].
  rewrite Hcast. f_equal. symmetry. apply sum_lmeds_flags.
Qed.

Lemma C2_witness :
  let run := computeH (num := Z_numerics f32) quiet AF_HOMOGRAPHY_LMEDS 3 4 1%Z
               (demo_state f32 4) in
  let m := s_mem run.1 in
  let w := first_best smaller_median (lmeds_score m) (N.to_nat 3) in
  is_first_best smaller_median (lmeds_score m) (N.to_nat 3) w
  ∧ take 9 (mT m Buf.bestH) = H_row (mT m Buf.H) w
  ∧ 2%Z = Z.of_nat (sum_list (lmeds_flag m (lmeds_score m w) <$> seq 0 (N.to_nat 4)))
  ∧ 2%Z = Z.of_nat (count_below (take 9 (mT m Buf.bestH)) (corrs m (N.to_nat 4))
                                (lmeds_score m w)).
Proof.
  intros run.
  apply (C2_lmeds_returns_count_below_median (num := Z_numerics f32) quiet 3 4 1%Z
           (demo_state f32 4) run.1 2%Z).
  - exact valid_order_quiet.
  - exact (well_sized_demo f32 4).
  - reflexivity.
  - apply run_outcome. vm_compute. reflexivity.
Defined.

(** C8 — on a call that returns, exactly one command of the call writes
    [bestH]: the copy of [9 * sizeof(T)] bytes from byte offset
    [w * 9 * sizeof(T)] of [H], where [w] is the winning iteration; the
    nine entries of [bestH] are entries [9 w .. 9 w + 8] of the array of
    candidates, element for element. *)
Theorem C8_bestH_copied_once `{num : Numerics} env htype its ns thr s0 s1 r :
  valid_order env → well_sized its (s_mem s0) → (ns + 255 < 2 ^ 31)%N →
  computeH env htype its ns thr s0 = (s1, Ok r) →
  let w := match htype with
           | AF_HOMOGRAPHY_RANSAC =>
               first_best more_inliers (ransac_score (s_mem s1) (N.to_nat ns) thr)
                          (N.to_nat its)
           | AF_HOMOGRAPHY_LMEDS =>
               first_best smaller_median (lmeds_score (s_mem s1)) (N.to_nat its)
           end in
  w < N.to_nat its
  ∧ List.filter (writes_to Buf.bestH) (drop (length (s_trace s0)) (s_trace s1))
    = [EnqueueCopyBuffer Buf.H Buf.bestH
         (N.of_nat w * 9 * sizeof T_dtype) 0 (9 * sizeof T_dtype)]
  ∧ (∀ k, k < 9 → mT (s_mem s1) Buf.bestH !! k = mT (s_mem s1) Buf.H !! (9 * w + k)).
Proof.
  intros Hord Hws Hns31 Hrun w.
  assert (Hns : (ns + 255 < 2 ^ 32)%N) by lia.
  assert (Hcopy : w < N.to_nat its →
                  copy_cmd T_dtype (N.of_nat w)
                  = EnqueueCopyBuffer Buf.H Buf.bestH
                      (N.of_nat w * 9 * sizeof T_dtype) 0 (9 * sizeof T_dtype)).
  { intros Hw. unfold copy_cmd. rewrite wrap32_small; [done|].
    destruct Hws as (_ & H32 & _). lia. }
  assert (Hrow : take 9 (mT (s_mem s1) Buf.bestH) = H_row (mT (s_mem s1) Buf.H) w →
                 ∀ k, k < 9 → mT (s_mem s1) Buf.bestH !! k
                              = mT (s_mem s1) Buf.H !! (9 * w + k)).
  { intros Htake k Hk. rewrite <-(lookup_take_lt _ 9) by done.
    rewrite Htake. unfold H_row. by rewrite lookup_take_lt, lookup_drop by done. }
  destruct htype.
  - destruct (ransac_success env its ns thr s0 s1 r Hord Hws Hrun)
      as (Hfb & _ & (p & Ht) & _ & Htake & _).
    fold w in Hfb, Ht, Htake. destruct Hfb as [Hw _].
    split; [done|]. split; [|by apply Hrow].
    rewrite Ht, drop_app_length, <-Hcopy by done.
    unfold build_cmds. by destruct (s_compiled s0).
  - destruct (lmeds_success env its ns thr s0 s1 r Hord Hws Hns Hrun)
      as (Hfb & _ & Ht & _ & Htake & _).
    fold w in Hfb, Ht, Htake. destruct Hfb as [Hw _].
    split; [done|]. split; [|by apply Hrow].
    rewrite Ht, drop_app_length, <-Hcopy by done.
    unfold build_cmds, lmeds_cmds, median_cmds, min_median_cmds.
    by destruct (s_compiled s0), (1 <? divup its HG_THREADS)%N.
Qed.

Lemma C8_witness :
  let run := computeH (num := Z_numerics f64) quiet AF_HOMOGRAPHY_LMEDS 3 4 1%Z
               (demo_state f64 4) in
  let w := first_best smaller_median (lmeds_score (s_mem run.1)) (N.to_nat 3) in
  w < N.to_nat 3
  ∧ List.filter (writes_to Buf.bestH)
      (drop (length (s_trace (demo_state f64 4))) (s_trace run.1))
    = [EnqueueCopyBuffer Buf.H Buf.bestH (N.of_nat w * 9 * sizeof f64) 0 (9 * sizeof f64)]
  ∧ (∀ k, k < 9 → mT (s_mem run.1) Buf.bestH !! k = mT (s_mem run.1) Buf.H !! (9 * w + k)).
Proof.
  intros run.
  apply (C8_bestH_copied_once (num := Z_numerics f64) quiet AF_HOMOGRAPHY_LMEDS 3 4 1%Z
           (demo_state f64 4) run.1 2%Z).
  - exact valid_order_quiet.
  - exact (well_sized_demo f64 4).
  - reflexivity.
  - apply run_outcome. vm_compute. reflexivity.
Defined.

(** C6 (as stated) fails: with [nsamples = 3], below the minimum of four,
    the call launches its kernels and returns a count. *)
Lemma C6_counterexample :
  let run := computeH (num := Z_numerics f32) quiet AF_HOMOGRAPHY_RANSAC 1 3 1%Z
               (demo_state f32 4) in
  run.2 = Ok 0%Z
  ∧ List.filter is_launch (s_trace run.1)
    = [Launch compute_homography [16; 16]%N [16; 16]%N;
       Launch eval_homography [256%N] [256%N]].
Proof. vm_compute. done. Qed.

(** C6 (amended) — [computeH] checks nothing about its configuration.
    Whatever [iterations], [nsamples] and the coordinate buffers are, the
    first command of a call, after the one-time build, is the launch of
    the solver; and with at least one iteration and room in [H] and
    [bestH], a call on a substrate that raises no error returns a count,
    also when [nsamples] is below four, exceeds the number of
    correspondences, or the coordinate buffers differ in length. *)
Theorem C6_no_configuration_check `{num : Numerics} env htype its ns thr s0 s1 r :
  valid_order env → no_faults env →
  computeH env htype its ns thr s0 = (s1, r) →
  (∃ t, s_trace s1
        = s_trace s0 ++ build_cmds T_dtype htype (s_compiled s0)
            ++ Launch compute_homography
                 [(1 * HG_THREADS_X)%N; (divup its HG_THREADS_Y * HG_THREADS_Y)%N]
                 [HG_THREADS_X; HG_THREADS_Y] :: t)
  ∧ (well_sized its (s_mem s0) → (ns + 255 < 2 ^ 31)%N → ∃ v, r = Ok v).
Proof.
  intros Hord Hnf Hrun. split.
  - by apply (computeH_first_commands env htype its ns thr s0 s1 r).
  - intros Hws Hns31. assert (Hns : (ns + 255 < 2 ^ 32)%N) by lia.
    destruct (computeH_total env htype its ns thr s0 Hord Hnf Hws Hns) as (s1' & v & Hok).
    rewrite Hok in Hrun. injection Hrun as _ <-. by exists v.
Qed.

Lemma no_faults_quiet : no_faults quiet.
Proof. by intros n. Qed.

Lemma C6_witness :
  let s0 := demo_state f32 4 in
  let run := computeH (num := Z_numerics f32) quiet AF_HOMOGRAPHY_RANSAC 1 3 1%Z s0 in
  (∃ t, s_trace run.1
        = s_trace s0 ++ build_cmds f32 AF_HOMOGRAPHY_RANSAC (s_compiled s0)
            ++ Launch compute_homography
                 [(1 * HG_THREADS_X)%N; (divup 1 HG_THREADS_Y * HG_THREADS_Y)%N]
                 [HG_THREADS_X; HG_THREADS_Y] :: t)
  ∧ (well_sized (num := Z_numerics f32) 1 (s_mem s0) → (3 + 255 < 2 ^ 31)%N →
     ∃ v, Ok 0%Z = Ok v).
Proof.
  intros s0 run.
  apply (C6_no_configuration_check (num := Z_numerics f32) quiet AF_HOMOGRAPHY_RANSAC
           1 3 1%Z s0 run.1 (Ok 0%Z)).
  - exact valid_order_quiet.
  - exact no_faults_quiet.
  - apply run_outcome. vm_compute. reflexivity.
Defined.




Section SortedLines.
Context `{num : Numerics}.

#[local] Instance flt_le_total : Total flt_le.
Proof.
  intros a b. unfold flt_le.
  destruct (flt_ltb b a) eqn:Hba; [|by left]. right.
  destruct (flt_ltb a b) eqn:Hab; [|done].
  pose proof (flt_ltb_trans _ _ _ Hba Hab) as Hbb.
  by rewrite flt_ltb_irrefl in Hbb.
Qed.

Lemma sort0_lookup (e : list (list flt)) (i : nat) (l : list flt) :
  e !! i = Some l →
  ∃ line, sort0 e !! i = Some line
        ∧ line = merge_sort flt_le l ∧ Sorted flt_le line ∧ line ≡ₚ l.
Proof.
  intros Hl. exists (merge_sort flt_le l). unfold sort0.
  rewrite list_lookup_fmap, Hl. split; [done|]. split; [done|].
  split; [apply (Sorted_merge_sort flt_le)|apply merge_sort_Permutation].
Qed.

Lemma length_corrs_enough (m : mem) (n : nat) :
  enough_corrs n m → length (corrs m n) = n.
Proof.
  intros (H1 & H2 & H3 & H4). unfold corrs.
  rewrite <-(length_seq n 0) at 2.
  assert (Hall : ∀ j, j ∈ seq 0 n → is_Some (corr_at m j)).
  { intros j Hj%elem_of_seq. unfold corr_at.
    destruct (lookup_lt_is_Some_2 (mCoord m Buf.x_src) j ltac:(lia)) as [x ->].
    destruct (lookup_lt_is_Some_2 (mCoord m Buf.y_src) j ltac:(lia)) as [y ->].
    destruct (lookup_lt_is_Some_2 (mCoord m Buf.x_dst) j ltac:(lia)) as [x' ->].
    destruct (lookup_lt_is_Some_2 (mCoord m Buf.y_dst) j ltac:(lia)) as [y' ->].
    by eexists. }
  induction (seq 0 n) as [|j l IH]; [done|].
  change (omap (corr_at m) (j :: l))
    with (match corr_at m j with
          | Some y => y :: omap (corr_at m) l
          | None => omap (corr_at m) l
          end).
  destruct (Hall j) as [c ->]; [apply elem_of_cons; by left|].
  cbn [length]. f_equal. apply IH. intros k Hk. apply Hall. apply elem_of_cons. by right.
Qed.

(** The line of residuals of iteration [i] that the call sorts. *)
Lemma lmeds_sorted_line env its ns thr s0 s1 r (i : nat) :
  valid_order env → well_sized its (s_mem s0) → (ns + 255 < 2 ^ 32)%N →
  enough_corrs (N.to_nat ns) (s_mem s0) →
  err_shaped (N.to_nat its) (N.to_nat ns) (s_mem s0) →
  computeH env AF_HOMOGRAPHY_LMEDS its ns thr s0 = (s1, Ok r) →
  i < N.to_nat its →
  H_row (mT (s_mem s1) Buf.H) i = solve_h (samples (s_mem s0) i)
  ∧ corrs (s_mem s1) (N.to_nat ns) = corrs (s_mem s0) (N.to_nat ns)
  ∧ ∃ line, mErr (s_mem s1) !! i = Some line
          ∧ line = merge_sort flt_le
                     (residuals (solve_h (samples (s_mem s0) i))
                                (corrs (s_mem s0) (N.to_nat ns)))
          ∧ Sorted flt_le line
          ∧ line ≡ₚ residuals (solve_h (samples (s_mem s0) i))
                              (corrs (s_mem s0) (N.to_nat ns)).
Proof.
  intros Hord Hws Hns Hen Hsh Hrun Hi.
  destruct (lmeds_success env its ns thr s0 s1 r Hord Hws Hns Hrun)
    as (_ & _ & _ & _ & _ & HH & Herr & Hco & _).
  destruct Hws as (Hpos & H32 & HHlen & _).
  split; [rewrite HH; apply H_row_solved; [lia|done..]|].
  split; [by apply corrs_frame|].
  destruct (Hsh i Hi) as (l & Hl & Hll).
  rewrite Herr. apply sort0_lookup.
  apply (evaluated_err_line its ns (s_mem s0) i l); try done; try lia.
  by apply length_corrs_enough.
Qed.

End SortedLines.

(** C10 — in LMedS mode the call sorts the caller's residual buffer in
    place, ascending along dimension 0, before the medians are computed:
    the sort is logged, the launch of [compute_median] is the next
    command, and after the call line [i] of [err] is the sorted line of
    the residuals of candidate [i], which differs from the residuals in
    correspondence order whenever these are not ascending already.  In
    RANSAC mode no sort is logged and [err] is as before the call. *)
Theorem C10_err_sorted_in_place `{num : Numerics} env htype its ns thr s0 s1 r :
  valid_order env → well_sized its (s_mem s0) → (ns + 255 < 2 ^ 31)%N →
  enough_corrs (N.to_nat ns) (s_mem s0) →
  err_shaped (N.to_nat its) (N.to_nat ns) (s_mem s0) →
  computeH env htype its ns thr s0 = (s1, Ok r) →
  let log := drop (length (s_trace s0)) (s_trace s1) in
  match htype with
  | AF_HOMOGRAPHY_LMEDS =>
      List.filter is_sort0 log = [Sort0 Buf.err]
      ∧ (∃ g l, head (after is_sort0 log) = Some (Launch compute_median g l))
      ∧ ∀ i, i < N.to_nat its →
          let res := residuals (H_row (mT (s_mem s1) Buf.H) i)
                               (corrs (s_mem s1) (N.to_nat ns)) in
          ∃ line, mErr (s_mem s1) !! i = Some line
                ∧ Sorted flt_le line ∧ line ≡ₚ res
                ∧ (¬ Sorted flt_le res → line ≠ res)
  | AF_HOMOGRAPHY_RANSAC =>
      List.filter is_sort0 log = [] ∧ mErr (s_mem s1) = mErr (s_mem s0)
  end.
Proof.
  intros Hord Hws Hns31 Hen Hsh Hrun log.
  assert (Hns : (ns + 255 < 2 ^ 32)%N) by lia. destruct htype.
  - destruct (ransac_success env its ns thr s0 s1 r Hord Hws Hrun)
      as (_ & _ & (p & Ht) & _ & _ & _ & Herr & _).
    split; [|done]. unfold log. rewrite Ht, drop_app_length.
    unfold build_cmds. by destruct (s_compiled s0).
  - destruct (lmeds_success env its ns thr s0 s1 r Hord Hws Hns Hrun)
      as (_ & _ & Ht & _).
    assert (Hlog : log = build_cmds T_dtype AF_HOMOGRAPHY_LMEDS (s_compiled s0)
                     ++ setup_cmds AF_HOMOGRAPHY_LMEDS its ns
                     ++ lmeds_cmds T_dtype its ns
                          (N.of_nat (first_best smaller_median (lmeds_score (s_mem s1))
                                                (N.to_nat its)))
                     ++ cleanup_cmds).
    { unfold log. by rewrite Ht, drop_app_length. }
    split; [|split].
    + rewrite Hlog. unfold build_cmds, lmeds_cmds, median_cmds, min_median_cmds.
      by destruct (s_compiled s0), (1 <? divup its HG_THREADS)%N.
    + rewrite Hlog. unfold build_cmds, lmeds_cmds, median_cmds.
      destruct (s_compiled s0); by eexists _, _.
    + intros i Hi res.
      destruct (lmeds_sorted_line env its ns thr s0 s1 r i Hord Hws Hns Hen Hsh Hrun Hi)
        as (Hrow & Hcorrs & line & Hline & _ & Hsorted & Hperm).
      unfold res. rewrite Hrow, Hcorrs.
      exists line. split; [done|]. split; [done|]. split; [done|].
      intros Hns' ->. by apply Hns'.
Qed.

Lemma enough_corrs_demo d : enough_corrs (num := Z_numerics d) 4 (demo_mem d 4).
Proof. repeat split; simpl; lia. Qed.

Lemma err_shaped_demo d n : err_shaped (num := Z_numerics d) 3 4 (demo_mem d n).
Proof.
  intros i Hi. exists (replicate 4 0%Z).
  destruct i as [|[|[|i]]]; [done..|lia].
Qed.

Lemma C10_witness :
  let s0 := demo_state f32 4 in
  let run := computeH (num := Z_numerics f32) quiet AF_HOMOGRAPHY_LMEDS 3 4 1%Z s0 in
  let log := drop (length (s_trace s0)) (s_trace run.1) in
  List.filter is_sort0 log = [Sort0 Buf.err]
  ∧ (∃ g l, head (after is_sort0 log) = Some (Launch compute_median g l))
  ∧ ∀ i, i < N.to_nat 3 →
      let res := residuals (num := Z_numerics f32) (H_row (mT (s_mem run.1) Buf.H) i)
                           (corrs (s_mem run.1) (N.to_nat 4)) in
      ∃ line, mErr (s_mem run.1) !! i = Some line
            ∧ Sorted (flt_le (num := Z_numerics f32)) line ∧ line ≡ₚ res
            ∧ (¬ Sorted (flt_le (num := Z_numerics f32)) res → line ≠ res).
Proof.
  intros s0 run.
  apply (C10_err_sorted_in_place (num := Z_numerics f32) quiet AF_HOMOGRAPHY_LMEDS
           3 4 1%Z s0 run.1 2%Z).
  - exact valid_order_quiet.
  - exact (well_sized_demo f32 4).
  - reflexivity.
  - exact (enough_corrs_demo f32).
  - exact (err_shaped_demo f32 4).
  - apply run_outcome. vm_compute. reflexivity.
Defined.

(** ** Two runs on the same inputs *)

Section Determinism.
Context `{num : Numerics}.

Lemma corr_at_same (m1 m2 : mem) (j : nat) :
  same_inputs m1 m2 → corr_at m1 j = corr_at m2 j.
Proof. intros (H1 & H2 & H3 & H4 & _). unfold corr_at. by rewrite H1, H2, H3, H4. Qed.

Lemma corrs_same (m1 m2 : mem) (n : nat) :
  same_inputs m1 m2 → corrs m1 n = corrs m2 n.
Proof.
  intros Hsame. unfold corrs.
  induction (seq 0 n) as [|j l IH]; [done|].
  cbn [omap list_omap]. by rewrite (corr_at_same m1 m2 j Hsame), IH.
Qed.

Lemma samples_same (m1 m2 : mem) (i : nat) :
  same_inputs m1 m2 → samples m1 i = samples m2 i.
Proof.
  intros Hsame. unfold samples.
  destruct Hsame as (H1 & H2 & H3 & H4 & ->).
  induction (default [] (mRnd m2 !! i)) as [|j l IH]; [done|].
  cbn [omap list_omap]. unfold corr_at at 1 3. by rewrite H1, H2, H3, H4, IH.
Qed.

Lemma enough_corrs_same (m1 m2 : mem) (n : nat) :
  same_inputs m1 m2 → enough_corrs n m1 → enough_corrs n m2.
Proof.
  intros (H1 & H2 & H3 & H4 & _). unfold enough_corrs. by rewrite H1, H2, H3, H4.
Qed.

Lemma is_first_best_ext {A : Type} (better : A → A → bool) (sc sc' : nat → A) n w :
  (∀ j, j < n → sc j = sc' j) →
  is_first_best better sc n w → is_first_best better sc' n w.
Proof.
  intros Heq (Hw & Hno & Hb). split; [done|]. split.
  - intros j Hj. rewrite <-(Heq j Hj), <-(Heq w Hw). by apply Hno.
  - intros j Hj. rewrite <-(Heq j ltac:(lia)), <-(Heq w Hw). by apply Hb.
Qed.

(** The output buffer of exactly nine scalars is the copied row. *)
Lemma bestH_is_row (Hb b0 bH : list T) (w : nat) :
  9 * w + 9 ≤ length Hb → length b0 = 9 →
  bH = list_inserts 0 (H_row Hb w) b0 → bH = H_row Hb w.
Proof.
  intros HH Hb0 HbH. rewrite <-(take_bestH_row Hb b0 bH w HH ltac:(lia) HbH).
  symmetry. apply take_ge. rewrite HbH, length_inserts. lia.
Qed.

End Determinism.



Lemma same_inputs_refl `{num : Numerics} (m : mem) : same_inputs m m.
Proof. by repeat split. Qed.


(** ** The log of any call, returned or thrown *)

Section Logs.
Context `{num : Numerics} (env : Env).

Lemma bind_inv {A B : Type} (m : M A) (f : A → M B) s s1 r :
  (m ≫= f) s = (s1, r) →
  (∃ s' a, m s = (s', Ok a) ∧ f a s' = (s1, r)) ∨ (m s = (s1, Threw) ∧ r = Threw).
Proof.
  unfold mbind, M_bind. destruct (m s) as [s' [a|]]; [left; eauto|].
  intros [= <- <-]. by right.
Qed.

Lemma substrate_call_inv {A : Type} c (f : mem → option (mem * A)) s s1 r :
  substrate_call env c f s = (s1, r) →
  (∃ a, r = Ok a ∧ s_trace s1 = s_trace s ++ [c] ∧ s_compiled s1 = s_compiled s)
  ∨ (r = Threw ∧ s1 = s).
Proof.
  unfold substrate_call. destruct (faults env _); [intros [= <- <-]; by right|].
  destruct (f (s_mem s)) as [[m' a]|]; intros [= <- <-]; [left; by exists a|by right].
Qed.

Lemma bufferFree_inv b s s1 (r : result ()) :
  bufferFree b s = (s1, r) →
  r = Ok () ∧ s_trace s1 = s_trace s ++ [BufferFree b] ∧ s_compiled s1 = s_compiled s.
Proof. by intros [= <- <-]. Qed.

Lemma ret_inv {A : Type} (a : A) s s1 r :
  (mret a : M A) s = (s1, r) → r = Ok a ∧ s1 = s.
Proof. by intros [= <- <-]. Qed.

End Logs.

Ltac unfold_calls :=
  unfold chOp, ehOp, cmOp, fmOp, clOp, launch, bufferAlloc_float, bufferAlloc_unsigned,
    enqueueReadBuffer_float, enqueueReadBuffer_unsigned, enqueueCopyBuffer,
    sort0_call, reduce_call, ireduce_call.

(** One command of a run [H : (m ≫= f) s = (s1, r)]: either it returned,
    and the run goes on, or it threw, and the run ended there. *)
Ltac run_call H :=
  let Hm := fresh "Hm" in
  apply bind_inv in H as [(? & ? & Hm & H)|[Hm ->]];
  [ first [ apply substrate_call_inv in Hm as [(? & _ & ? & ?)|[? _]]; [|discriminate]
          | apply bufferFree_inv in Hm as (_ & ? & ?) ];
    cbv beta in H
  | first [ apply substrate_call_inv in Hm as [(? & ? & _)|[_ ->]]; [discriminate|]
          | apply bufferFree_inv in Hm as (? & _); discriminate ] ].

Ltac chain_logs :=
  first
    [ symmetry; apply app_nil_r
    | repeat match goal with
             | E : s_trace ?s = _ |- context [s_trace ?s] => rewrite E; clear E
             end;
      rewrite <-?app_assoc; reflexivity ].

Ltac chain_flags :=
  repeat match goal with
         | E : s_compiled ?s = _ |- context [s_compiled ?s] => rewrite E; clear E
         end.

(** The run has ended: the log is the script so far, and the command that
    threw is the next one of the script. *)
Ltac end_threw :=
  split; [chain_logs|]; split; [by chain_flags|];
  eexists _, _; split; reflexivity.

Ltac end_ok :=
  split; [chain_logs|]; split; [by chain_flags|]; reflexivity.

Section BranchLogs.
Context `{num : Numerics} (env : Env).

Lemma call_once_build_inv htype s s1 r :
  call_once_build env htype s = (s1, r) →
  (r = Ok () ∧ s_trace s1 = s_trace s ++ build_cmds T_dtype htype (s_compiled s)
   ∧ s_compiled s1 = true)
  ∨ (r = Threw ∧ s1 = s ∧ s_compiled s = false).
Proof.
  unfold call_once_build, build_cmds. destruct (s_compiled s) eqn:Hc.
  - intros [= <- <-]. left. by rewrite app_nil_r.
  - destruct (substrate_call env _ _ s) as [s' [[]|]] eqn:Hs; intros [= <- <-].
    + apply substrate_call_inv in Hs as [(? & _ & ? & ?)|[? _]]; [|discriminate].
      left. done.
    + apply substrate_call_inv in Hs as [(? & ? & _)|[_ ->]]; [discriminate|].
      right. done.
Qed.

Lemma ransac_branch_log s s1 r :
  ransac_branch env s = (s1, r) →
  ∃ p w t, s_trace s1 = s_trace s ++ t ∧ s_compiled s1 = s_compiled s
    ∧ match r with
      | Ok _ => t = ransac_cmds T_dtype p w
      | Threw => ∃ c rest, ransac_cmds T_dtype p w = t ++ c :: rest ∧ is_free c = false
      end.
Proof.
  unfold ransac_branch. unfold_calls. intros H.
  do 9 (run_call H; [|(eexists _, _, _; end_threw)..]).
  apply ret_inv in H as [-> ->].
  eexists _, _, _. end_ok.
  Unshelve. all: exact 0%N.
Qed.

Lemma min_median_log blk s s1 r :
  min_median env blk s = (s1, r) →
  ∃ t, s_trace s1 = s_trace s ++ t ∧ s_compiled s1 = s_compiled s
    ∧ match r with
      | Ok _ => t = min_median_cmds blk
      | Threw => ∃ c rest, min_median_cmds blk = t ++ c :: rest ∧ is_free c = false
      end.
Proof.
  unfold min_median, min_median_cmds. unfold_calls.
  destruct (1 <? blk)%N; intros H.
  - do 7 (run_call H; [|(eexists; end_threw)..]).
    apply ret_inv in H as [-> ->]. eexists. end_ok.
  - do 2 (run_call H; [|(eexists; end_threw)..]).
    apply ret_inv in H as [-> ->]. eexists. end_ok.
Qed.

Lemma lmeds_inliers_log minMedian ns s s1 r :
  lmeds_inliers env minMedian ns s = (s1, r) →
  ∃ t, s_trace s1 = s_trace s ++ t ∧ s_compiled s1 = s_compiled s
    ∧ match r with
      | Ok _ => t = refine_cmds ns
      | Threw => ∃ c rest, refine_cmds ns = t ++ c :: rest ∧ is_free c = false
      end.
Proof.
  unfold lmeds_inliers, refine_cmds. unfold_calls. cbv zeta. intros H.
  do 5 (run_call H; [|(eexists; end_threw)..]).
  apply ret_inv in H as [-> ->]. eexists. end_ok.
Qed.

Lemma lmeds_branch_log its ns s s1 r :
  lmeds_branch env its ns (divup its HG_THREADS)
    [(divup its HG_THREADS * HG_THREADS)%N] [HG_THREADS] s = (s1, r) →
  ∃ w t, s_trace s1 = s_trace s ++ t ∧ s_compiled s1 = s_compiled s
    ∧ match r with
      | Ok _ => t = lmeds_cmds T_dtype its ns w
      | Threw => ∃ c rest, lmeds_cmds T_dtype its ns w = t ++ c :: rest ∧ is_free c = false
      end.
Proof.
  unfold lmeds_branch, lmeds_cmds, median_cmds. unfold_calls. cbv zeta. intros H.
  do 2 (run_call H; [|(eexists _, _; end_threw)..]).
  apply bind_inv in H as [(s' & [minMedian minIdx] & Hm & H)|[Hm ->]].
  - apply min_median_log in Hm as (tm & Htm & Hcm & ->). cbv beta iota in H.
    run_call H; [|eexists _, _; end_threw].
    apply lmeds_inliers_log in H as (tr & Htr & Hcr & Hr).
    exists minIdx. eexists. split; [chain_logs|]. split; [by chain_flags|].
    destruct r as [a|]; [by rewrite Hr|].
    destruct Hr as (c & rest & -> & Hc). exists c, rest. split; [|done].
    by rewrite <-!app_assoc.
  - apply min_median_log in Hm as (tm & Htm & Hcm & c & rest & -> & Hc).
    exists 0%N. eexists. split; [chain_logs|]. split; [by chain_flags|].
    exists c. eexists. split; [|done]. cbn [app]. rewrite <-!app_assoc. reflexivity.
  Unshelve. all: exact 0%N.
Qed.

End BranchLogs.

Section CallLog.
Context `{num : Numerics} (env : Env).

Ltac end_call_threw :=
  split; [chain_logs|]; split;
  [eexists _, _; split; reflexivity|chain_flags; reflexivity].

(** The log of a call is the script of its instantiation followed by the
    three final releases when the call returns, and a proper prefix of the
    script, cut before a command that is not a release, when it throws. *)
Lemma computeH_log htype its ns thr s0 s1 r :
  computeH env htype its ns thr s0 = (s1, r) →
  ∃ p w t, s_trace s1 = s_trace s0 ++ t
    ∧ match r with
      | Ok _ => t = script T_dtype htype (s_compiled s0) its ns p w ++ cleanup_cmds
                ∧ s_compiled s1 = true
      | Threw => (∃ c rest, script T_dtype htype (s_compiled s0) its ns p w = t ++ c :: rest
                            ∧ is_free c = false)
                 ∧ s_compiled s1 = match t with [] => s_compiled s0 | _ => true end
      end.
Proof.
  unfold computeH, script, setup_cmds. unfold_calls. cbv zeta. intros H.
  apply bind_inv in H as [(s' & [] & Hb & H)|[Hb ->]]; cycle 1.
  { apply call_once_build_inv in Hb as [[? _]|(_ & -> & Hc)]; [discriminate|].
    exists 0%N, 0%N, []. rewrite Hc. split; [by rewrite app_nil_r|].
    split; [|done]. eexists _, _. split; reflexivity. }
  apply call_once_build_inv in Hb as [(_ & Hb & Hc)|[? _]]; [|discriminate].
  cbv beta in H.
  assert (Hflag : ∀ t c, match build_cmds T_dtype htype (s_compiled s0) ++ c :: t with
                         | [] => s_compiled s0 | _ => true end = true).
  { intros t c. unfold build_cmds. by destruct (s_compiled s0). }
  destruct htype.
  - run_call H; [|eexists _, _, _; split; [chain_logs|]; split;
                  [eexists _, _; split; [rewrite <-?app_assoc|]; reflexivity|]].
    2:{ rewrite Hc. unfold build_cmds. by destruct (s_compiled s0). }
    do 4 (run_call H; [|eexists _, _, _; split; [chain_logs|]; split;
                        [eexists _, _; split; [rewrite <-?app_assoc|]; reflexivity
                        |chain_flags; symmetry; apply Hflag]]).
    apply bind_inv in H as [(s'' & a & Hm & H)|[Hm ->]].
    + apply ransac_branch_log in Hm as (p & w & tb & Htb & Hcb & ->). cbv beta in H.
      do 3 (run_call H).
      apply ret_inv in H as [-> ->].
      exists p, w. eexists. split; [chain_logs|]. split; [|by chain_flags].
      rewrite <-?app_assoc. reflexivity.
    + apply ransac_branch_log in Hm as (p & w & tb & Htb & Hcb & c & rest & Hs & Hfree).
      exists p, w. eexists. split; [chain_logs|]. split.
      * exists c, rest. split; [|done]. rewrite Hs, <-?app_assoc. reflexivity.
      * chain_flags. symmetry. apply Hflag.
  - run_call H; [|eexists _, _, _; split; [chain_logs|]; split;
                  [eexists _, _; split; [rewrite <-?app_assoc|]; reflexivity|]].
    2:{ rewrite Hc. unfold build_cmds. by destruct (s_compiled s0). }
    do 4 (run_call H; [|eexists _, _, _; split; [chain_logs|]; split;
                        [eexists _, _; split; [rewrite <-?app_assoc|]; reflexivity
                        |chain_flags; symmetry; apply Hflag]]).
    apply bind_inv in H as [(s'' & a & Hm & H)|[Hm ->]].
    + apply lmeds_branch_log in Hm as (w & tb & Htb & Hcb & ->). cbv beta in H.
      do 3 (run_call H).
      apply ret_inv in H as [-> ->].
      exists 0%N, w. eexists. split; [chain_logs|]. split; [|by chain_flags].
      rewrite <-?app_assoc. reflexivity.
    + apply lmeds_branch_log in Hm as (w & tb & Htb & Hcb & c & rest & Hs & Hfree).
      exists 0%N, w. eexists. split; [chain_logs|]. split.
      * exists c, rest. split; [|done]. rewrite Hs, <-?app_assoc. reflexivity.
      * chain_flags. symmetry. apply Hflag.
  Unshelve. all: exact 0%N.
Qed.

End CallLog.

(** ** Temporaries *)

Lemma all_cuts_spec (P : list cmd → bool) (l t rest : list cmd) (c : cmd) :
  all_cuts P l = true → l = t ++ c :: rest → is_free c = false → P t = true.
Proof.
  unfold all_cuts. rewrite forallb_forall. intros Hall -> Hc.
  specialize (Hall (length t)).
  rewrite list_lookup_middle in Hall by done.
  rewrite take_app_length, Hc in Hall. apply Hall.
  apply in_seq. rewrite length_app. cbn [length]. lia.
Qed.

Lemma script_releases `{num : Numerics} htype compiled its ns p w :
  live_after [] (script T_dtype htype compiled its ns p w ++ cleanup_cmds) = Some [].
Proof.
  unfold script, build_cmds, lmeds_cmds, median_cmds, min_median_cmds.
  by destruct htype, compiled, (1 <? divup its HG_THREADS)%N.
Qed.

Lemma script_holds `{num : Numerics} htype compiled its ns p w :
  all_cuts holds_temporaries (script T_dtype htype compiled its ns p w) = true.
Proof.
  unfold script, build_cmds, lmeds_cmds, median_cmds, min_median_cmds.
  by destruct htype, compiled, (1 <? divup its HG_THREADS)%N.
Qed.

(** X1 — a call that returns has released every temporary it allocated:
    replaying the allocations and the releases of its log, starting with
    no buffer in use, never releases a buffer that is not in use (so none
    of the caller's, and none twice), never allocates one that is, and
    ends with no buffer in use.  This holds on any substrate and for any
    sizes. *)
Theorem computeH_releases_temporaries `{num : Numerics} env htype its ns thr s0 s1 r :
  computeH env htype its ns thr s0 = (s1, Ok r) →
  live_after [] (drop (length (s_trace s0)) (s_trace s1)) = Some [].
Proof.
  intros Hrun. apply computeH_log in Hrun as (p & w & t & Ht & -> & _).
  rewrite Ht, drop_app_length. apply script_releases.
Qed.

Lemma computeH_releases_temporaries_witness :
  let s0 := demo_state f32 4 in
  let run := computeH (num := Z_numerics f32) backwards AF_HOMOGRAPHY_LMEDS 3 4 1%Z s0 in
  live_after [] (drop (length (s_trace s0)) (s_trace run.1)) = Some [].
Proof.
  intros s0 run.
  apply (computeH_releases_temporaries (num := Z_numerics f32) backwards
           AF_HOMOGRAPHY_LMEDS 3 4 1%Z s0 run.1 2%Z).
  apply run_outcome. vm_compute. reflexivity.
Defined.

(** X2 — a call that throws releases none of [idx], [inliers], [median],
    [bestInliers], [bestIdx] and [totalInliers]: the handler only rethrows.
    Every buffer the call had allocated is still in use when the exception
    leaves the call, except the two one-element buffers of the median
    reduction, which are released right after they are read. *)
Theorem computeH_throw_keeps_temporaries `{num : Numerics} env htype its ns thr s0 s1 :
  computeH env htype its ns thr s0 = (s1, Threw) →
  let t := drop (length (s_trace s0)) (s_trace s1) in
  ∃ live, live_after [] t = Some live
        ∧ ∀ b, b ∈ allocated t → b ∈ live ∨ b ∈ [Buf.finalMedian; Buf.finalIdx].
Proof.
  intros Hrun t. apply computeH_log in Hrun as (p & w & t' & Ht & (c & rest & Hs & Hc) & _).
  unfold t. rewrite Ht, drop_app_length. clear t.
  pose proof (all_cuts_spec _ _ _ _ _ (script_holds _ _ _ _ _ _) Hs Hc) as Hh.
  unfold holds_temporaries in Hh.
  destruct (live_after [] t') as [live|]; [|done].
  exists live. split; [done|]. intros b Hb.
  rewrite forallb_forall in Hh. specialize (Hh b).
  rewrite orb_true_iff, !bool_decide_eq_true in Hh. apply Hh.
  by apply list_elem_of_In.
Qed.

Lemma computeH_throw_keeps_temporaries_witness :
  let s0 := demo_state f32 4 in
  let run := computeH (num := Z_numerics f32) (faulty_at 6) AF_HOMOGRAPHY_RANSAC 3 4 1%Z s0 in
  let t := drop (length (s_trace s0)) (s_trace run.1) in
  ∃ live, live_after [] t = Some live
        ∧ ∀ b, b ∈ allocated t → b ∈ live ∨ b ∈ [Buf.finalMedian; Buf.finalIdx].
Proof.
  intros s0 run.
  apply (computeH_throw_keeps_temporaries (num := Z_numerics f32) (faulty_at 6)
           AF_HOMOGRAPHY_RANSAC 3 4 1%Z s0 run.1).
  apply run_outcome. vm_compute. reflexivity.
Defined.

(** ** The one-time build *)

Section Builds.
Context `{num : Numerics}.

Lemma script_builds htype compiled its ns p w :
  builds (script T_dtype htype compiled its ns p w ++ cleanup_cmds)
  = (if compiled then 0 else 1).
Proof.
  unfold script, build_cmds, lmeds_cmds, median_cmds, min_median_cmds.
  by destruct htype, compiled, (1 <? divup its HG_THREADS)%N.
Qed.

Lemma script_cut_builds htype compiled its ns p w :
  all_cuts (λ t, builds t =? expected_builds compiled t)
           (script T_dtype htype compiled its ns p w) = true.
Proof.
  unfold script, build_cmds, lmeds_cmds, median_cmds, min_median_cmds.
  by destruct htype, compiled, (1 <? divup its HG_THREADS)%N.
Qed.

Lemma script_head htype its ns p w t c rest :
  script T_dtype htype false its ns p w = t ++ c :: rest → t ≠ [] →
  head t = Some (BuildProgram (compile_options T_dtype htype)).
Proof.
  unfold script, build_cmds. destruct t as [|x t]; [done|].
  cbn [app]. by intros [= <- _] _.
Qed.

(** One call: the program is built exactly when the flag is unset and the
    call issues anything, the build is then the first command, and the
    flag is set from then on. *)
Lemma computeH_build_flag env htype its ns thr s s' r :
  computeH env htype its ns thr s = (s', r) →
  ∃ t, s_trace s' = s_trace s ++ t
     ∧ builds t = expected_builds (s_compiled s) t
     ∧ s_compiled s' = match t with [] => s_compiled s | _ => true end
     ∧ (s_compiled s = false → t ≠ [] →
        head t = Some (BuildProgram (compile_options T_dtype htype))).
Proof.
  intros Hrun. apply computeH_log in Hrun as (p & w & t & Ht & Hr).
  exists t. split; [done|]. destruct r as [a|].
  - destruct Hr as [-> Hc]. split; [|split].
    + rewrite script_builds. unfold expected_builds, script.
      destruct (s_compiled s); [done|]. by destruct htype.
    + rewrite Hc. unfold script, setup_cmds.
      by destruct (build_cmds _ _ _).
    + intros Hc0 _. rewrite Hc0. unfold script, build_cmds. done.
  - destruct Hr as [(c & rest & Hs & Hc) Hflag]. split; [|split; [done|]].
    + pose proof (all_cuts_spec _ _ _ _ _ (script_cut_builds _ _ _ _ _ _) Hs Hc) as Hb.
      by apply Nat.eqb_eq in Hb.
    + intros Hc0 Hne. rewrite Hc0 in Hs. by eapply script_head.
Qed.

End Builds.



(** ** Launch geometry and scratch sizes *)

(** The command sought is one of an explicit list. *)
Ltac pick_cmd := first [left; reflexivity | right; pick_cmd].

Section Geometry.
Context `{num : Numerics}.

(** The commands of a log are commands of the script, or the final
    releases. *)
Lemma computeH_log_Forall (φ : cmd → Prop) env htype its ns thr s0 s1 r :
  (∀ compiled p w, Forall φ (script T_dtype htype compiled its ns p w ++ cleanup_cmds)) →
  computeH env htype its ns thr s0 = (s1, r) →
  Forall φ (drop (length (s_trace s0)) (s_trace s1)).
Proof.
  intros Hφ Hrun. apply computeH_log in Hrun as (p & w & t & Ht & Hr).
  rewrite Ht, drop_app_length. specialize (Hφ (s_compiled s0) p w).
  destruct r as [a|].
  - by destruct Hr as [-> _].
  - destruct Hr as [(c & rest & Hs & _) _]. rewrite Hs in Hφ.
    rewrite !Forall_app in Hφ. by destruct Hφ as [[? _] _].
Qed.

Lemma script_valid_launch htype compiled its ns p w :
  Forall valid_launch (script T_dtype htype compiled its ns p w ++ cleanup_cmds).
Proof.
  unfold script, build_cmds, setup_cmds, lmeds_cmds, median_cmds, min_median_cmds,
    refine_cmds, ransac_cmds, cleanup_cmds, copy_cmd.
  destruct htype, compiled, (1 <? divup its HG_THREADS)%N; cbn [app];
    repeat (apply Forall_cons; split;
            [first [exact I
                   |split; [|reflexivity]; unfold valid_ndrange;
                    repeat (apply List.Forall2_cons;
                            [first [apply N.divide_refl|by eexists]|]);
                    apply List.Forall2_nil]|]);
    apply List.Forall_nil.
Qed.

Lemma divup_covers (a b : N) :
  (0 < b)%N → (a + b - 1 < 2 ^ 32)%N →
  (a ≤ divup a b * b < a + b)%N ∧ ((divup a b * b) mod b = 0)%N.
Proof.
  intros Hb Hs. unfold divup, wrap32. rewrite (N.mod_small _ _ Hs).
  split; [|apply N.Div0.mod_mul].
  pose proof (N.Div0.div_mod (a + b - 1) b) as Hd.
  pose proof (N.mod_upper_bound (a + b - 1) b ltac:(lia)) as Hm.
  generalize dependent ((a + b - 1) mod b)%N. generalize dependent ((a + b - 1) / b)%N.
  intros q r Hd Hm. rewrite (N.mul_comm q b). lia.
Qed.

Lemma script_covers htype compiled its ns p w :
  (its + 255 < 2 ^ 32)%N → (ns + 255 < 2 ^ 32)%N →
  Forall (covers_extent its ns) (script T_dtype htype compiled its ns p w ++ cleanup_cmds).
Proof.
  intros Hits Hns.
  destruct (divup_covers its HG_THREADS_Y) as [Hy Hy']; [done|unfold HG_THREADS_Y; lia|].
  destruct (divup_covers its HG_THREADS) as [Hx Hx']; [done|unfold HG_THREADS; lia|].
  destruct (divup_covers ns HG_THREADS) as [Hc Hc']; [done|unfold HG_THREADS; lia|].
  unfold script, build_cmds, setup_cmds, lmeds_cmds, median_cmds, min_median_cmds,
    refine_cmds, ransac_cmds, cleanup_cmds, copy_cmd.
  destruct htype, compiled, (1 <? divup its HG_THREADS)%N; cbn [app];
    repeat (apply Forall_cons; split;
            [first [exact I|eexists _, _; split; [reflexivity|split; [reflexivity|done]]]|]);
    apply List.Forall_nil.
Qed.

Lemma more_than_one_block (its : N) :
  (its + 255 < 2 ^ 32)%N → (1 <? divup its HG_THREADS)%N = (256 <? its)%N.
Proof.
  intros Hits.
  destruct (divup_covers its HG_THREADS) as [Hx _]; [done|unfold HG_THREADS; lia|].
  unfold HG_THREADS in *.
  destruct (N.ltb_spec 1 (divup its 256)), (N.ltb_spec 256 its); lia.
Qed.

End Geometry.

(** X4 — every kernel launch a call enqueues, whether the call returns or
    throws and whatever [iterations] and [nsamples] are, is over a valid
    ND-range: global and local sizes have the same number of dimensions,
    every global size is a multiple of its local size, and a work-group
    has [HG_THREADS] = 256 work-items (16 x 16 for the solver). *)
Theorem computeH_launches_valid `{num : Numerics} env htype its ns thr s0 s1 r k g l :
  computeH env htype its ns thr s0 = (s1, r) →
  Launch k g l ∈ drop (length (s_trace s0)) (s_trace s1) →
  valid_ndrange g l ∧ group_size l = HG_THREADS.
Proof.
  intros Hrun Hin.
  pose proof (computeH_log_Forall valid_launch env htype its ns thr s0 s1 r
                (λ c p w, script_valid_launch htype c its ns p w) Hrun) as Hall.
  rewrite Forall_forall in Hall. exact (Hall _ Hin).
Qed.

Lemma computeH_launches_valid_witness :
  let s0 := demo_state f32 4 in
  let run := computeH (num := Z_numerics f32) (faulty_at 6) AF_HOMOGRAPHY_RANSAC 3 4 1%Z s0 in
  valid_ndrange [16; 16]%N [16; 16]%N ∧ group_size [16; 16]%N = HG_THREADS.
Proof.
  intros s0 run.
  apply (computeH_launches_valid (num := Z_numerics f32) (faulty_at 6)
           AF_HOMOGRAPHY_RANSAC 3 4 1%Z s0 run.1 Threw compute_homography).
  - apply run_outcome. vm_compute. reflexivity.
  - vm_compute. apply list_elem_of_In. vm_compute. pick_cmd.
Defined.

(** X5 — as long as the block counts times the group size stay in the
    range of [int] ([iterations + 255] and [nsamples + 255] below 2^31, so
    that neither the [unsigned] sum of [divup] nor the [int] product
    wraps), every launch of the solver, the evaluator and the median kernel
    spans all iterations, and the launch of the classification kernel all
    [nsamples] correspondences, in whole work-groups and with less than
    one work-group of idle work-items. *)
Theorem computeH_grids_cover `{num : Numerics} env htype its ns thr s0 s1 r k g l n :
  (its + 255 < 2 ^ 31)%N → (ns + 255 < 2 ^ 31)%N →
  computeH env htype its ns thr s0 = (s1, r) →
  Launch k g l ∈ drop (length (s_trace s0)) (s_trace s1) →
  extent k its ns = Some n →
  ∃ gn ln, last g = Some gn ∧ last l = Some ln
           ∧ (n ≤ gn < n + ln)%N ∧ (gn mod ln = 0)%N.
Proof.
  intros Hits31 Hns31 Hrun Hin Hext.
  assert (Hits : (its + 255 < 2 ^ 32)%N) by lia.
  assert (Hns : (ns + 255 < 2 ^ 32)%N) by lia.
  pose proof (computeH_log_Forall (covers_extent its ns) env htype its ns thr s0 s1 r
                (λ c p w, script_covers htype c its ns p w Hits Hns) Hrun) as Hall.
  rewrite Forall_forall in Hall. specialize (Hall _ Hin).
  unfold covers_extent in Hall. by rewrite Hext in Hall.
Qed.

Lemma computeH_grids_cover_witness :
  let s0 := demo_state f32 4 in
  let run := computeH (num := Z_numerics f32) quiet AF_HOMOGRAPHY_LMEDS 3 4 1%Z s0 in
  ∃ gn ln, last [256%N] = Some gn ∧ last [256%N] = Some ln
           ∧ (4 ≤ gn < 4 + ln)%N ∧ (gn mod ln = 0)%N.
Proof.
  intros s0 run.
  apply (computeH_grids_cover (num := Z_numerics f32) quiet AF_HOMOGRAPHY_LMEDS
           3 4 1%Z s0 run.1 (Ok 2%Z) compute_lmeds_inliers).
  - reflexivity.
  - reflexivity.
  - apply run_outcome. vm_compute. reflexivity.
  - vm_compute. apply list_elem_of_In. vm_compute. pick_cmd.
  - reflexivity.
Defined.

Section Slots.
Context `{num : Numerics}.

Ltac find_cmd :=
  first [ apply elem_of_app; left; find_cmd
        | apply elem_of_app; right; find_cmd
        | apply elem_of_cons; left; reflexivity
        | apply elem_of_cons; right; find_cmd ].

Lemma script_slots htype compiled its ns p w :
  let t := script T_dtype htype compiled its ns p w ++ cleanup_cmds in
  let blk := divup its HG_THREADS in
  Launch eval_homography [(blk * HG_THREADS)%N] [HG_THREADS] ∈ t
  ∧ BufferAlloc Buf.idx (blk * sizeof_unsigned) ∈ t
  ∧ match htype with
    | AF_HOMOGRAPHY_RANSAC =>
        BufferAlloc Buf.inliers (blk * sizeof_unsigned) ∈ t
        ∧ BufferAlloc Buf.median sizeof_float ∈ t
    | AF_HOMOGRAPHY_LMEDS =>
        BufferAlloc Buf.median (blk * sizeof_float) ∈ t
        ∧ Launch compute_lmeds_inliers [(divup ns HG_THREADS * HG_THREADS)%N] [HG_THREADS] ∈ t
        ∧ BufferAlloc Buf.inliers (divup ns HG_THREADS * sizeof_unsigned) ∈ t
    end.
Proof.
  intros t blk. unfold t, blk, script, setup_cmds, lmeds_cmds, refine_cmds.
  rewrite !elements_param_1d.
  destruct htype; repeat split; find_cmd.
Qed.

End Slots.

(** X6 — in a call that returns, with [iterations + 255] and
    [nsamples + 255] below 2^31 so that the [int] products of block count
    and group size do not wrap, each per-work-group scratch buffer has
    exactly one four-byte slot per work-group of the launch it serves:
    [idx] (and [median] in LMedS mode, [inliers] in RANSAC mode) one per
    work-group of the evaluator launch, and [inliers] in LMedS mode one per
    work-group of the classification launch.  In RANSAC mode [median] is a
    single [float]. *)
Theorem computeH_one_slot_per_group `{num : Numerics} env htype its ns thr s0 s1 r :
  (its + 255 < 2 ^ 31)%N → (ns + 255 < 2 ^ 31)%N →
  computeH env htype its ns thr s0 = (s1, Ok r) →
  let t := drop (length (s_trace s0)) (s_trace s1) in
  ∃ g_eh, (g_eh < 2 ^ 31)%N
    ∧ Launch eval_homography [g_eh] [HG_THREADS] ∈ t
    ∧ BufferAlloc Buf.idx (g_eh / HG_THREADS * sizeof_unsigned) ∈ t
    ∧ match htype with
      | AF_HOMOGRAPHY_RANSAC =>
          BufferAlloc Buf.inliers (g_eh / HG_THREADS * sizeof_unsigned) ∈ t
          ∧ BufferAlloc Buf.median sizeof_float ∈ t
      | AF_HOMOGRAPHY_LMEDS =>
          BufferAlloc Buf.median (g_eh / HG_THREADS * sizeof_float) ∈ t
          ∧ ∃ g_cl, (g_cl < 2 ^ 31)%N
                  ∧ Launch compute_lmeds_inliers [g_cl] [HG_THREADS] ∈ t
                  ∧ BufferAlloc Buf.inliers (g_cl / HG_THREADS * sizeof_unsigned) ∈ t
      end.
Proof.
  intros Hits Hns Hrun t. apply computeH_log in Hrun as (p & w & t' & Ht & -> & _).
  unfold t. rewrite Ht, drop_app_length. clear t.
  pose proof (script_slots htype (s_compiled s0) its ns p w) as (Heh & Hidx & Hrest).
  destruct (divup_covers its HG_THREADS) as [Hx _]; [done|unfold HG_THREADS; lia|].
  destruct (divup_covers ns HG_THREADS) as [Hc _]; [done|unfold HG_THREADS; lia|].
  unfold HG_THREADS in Hx, Hc.
  exists (divup its HG_THREADS * HG_THREADS)%N.
  rewrite (N.div_mul _ HG_THREADS) by done.
  split; [unfold HG_THREADS; lia|].
  split; [done|]. split; [done|]. destruct htype; [done|].
  destruct Hrest as (Hmed & Hcl & Hinl). split; [done|].
  exists (divup ns HG_THREADS * HG_THREADS)%N.
  rewrite (N.div_mul _ HG_THREADS) by done.
  split; [unfold HG_THREADS; lia|]. done.
Qed.

Lemma computeH_one_slot_per_group_witness :
  let s0 := demo_state f32 4 in
  let run := computeH (num := Z_numerics f32) quiet AF_HOMOGRAPHY_LMEDS 3 4 1%Z s0 in
  let t := drop (length (s_trace s0)) (s_trace run.1) in
  ∃ g_eh, (g_eh < 2 ^ 31)%N
    ∧ Launch eval_homography [g_eh] [HG_THREADS] ∈ t
    ∧ BufferAlloc Buf.idx (g_eh / HG_THREADS * sizeof_unsigned) ∈ t
    ∧ BufferAlloc Buf.median (g_eh / HG_THREADS * sizeof_float) ∈ t
    ∧ ∃ g_cl, (g_cl < 2 ^ 31)%N
            ∧ Launch compute_lmeds_inliers [g_cl] [HG_THREADS] ∈ t
            ∧ BufferAlloc Buf.inliers (g_cl / HG_THREADS * sizeof_unsigned) ∈ t.
Proof.
  intros s0 run.
  apply (computeH_one_slot_per_group (num := Z_numerics f32) quiet AF_HOMOGRAPHY_LMEDS
           3 4 1%Z s0 run.1 2%Z).
  - reflexivity.
  - reflexivity.
  - apply run_outcome. vm_compute. reflexivity.
Defined.

(** X7 — the kernels a returning call launches, in order: the solver and
    the evaluator in RANSAC mode and nothing else; in LMedS mode also the
    median kernel, then [find_min_median] exactly when there are more than
    256 iterations, then the classification kernel.  [iterations + 255]
    must not wrap. *)
Theorem computeH_kernels_launched `{num : Numerics} env htype its ns thr s0 s1 r :
  (its + 255 < 2 ^ 32)%N →
  computeH env htype its ns thr s0 = (s1, Ok r) →
  launched (drop (length (s_trace s0)) (s_trace s1))
  = match htype with
    | AF_HOMOGRAPHY_RANSAC => [compute_homography; eval_homography]
    | AF_HOMOGRAPHY_LMEDS =>
        [compute_homography; eval_homography; compute_median]
        ++ (if (256 <? its)%N then [find_min_median] else [])
        ++ [compute_lmeds_inliers]
    end.
Proof.
  intros Hits Hrun. apply computeH_log in Hrun as (p & w & t & Ht & -> & _).
  rewrite Ht, drop_app_length. rewrite <-(more_than_one_block its Hits).
  unfold script, build_cmds, lmeds_cmds, median_cmds, min_median_cmds.
  by destruct htype, (s_compiled s0), (1 <? divup its HG_THREADS)%N.
Qed.

Lemma computeH_kernels_launched_witness :
  let s0 := demo_state f32 4 in
  let run := computeH (num := Z_numerics f32) quiet AF_HOMOGRAPHY_LMEDS 3 4 1%Z s0 in
  launched (drop (length (s_trace s0)) (s_trace run.1))
  = [compute_homography; eval_homography; compute_median]
    ++ (if (256 <? 3)%N then [find_min_median] else [])
    ++ [compute_lmeds_inliers].
Proof.
  intros s0 run.
  apply (computeH_kernels_launched (num := Z_numerics f32) quiet AF_HOMOGRAPHY_LMEDS
           3 4 1%Z s0 run.1 2%Z).
  - reflexivity.
  - apply run_outcome. vm_compute. reflexivity.
Defined.

(** ** What a call can do to [bestH] *)

Section OutputFrame.
Context `{num : Numerics}.

Lemma bestH_tail_kept_refl s : bestH_tail_kept s s.
Proof. done. Qed.

Lemma bestH_tail_kept_trans s1 s2 s3 :
  bestH_tail_kept s1 s2 → bestH_tail_kept s2 s3 → bestH_tail_kept s1 s3.
Proof. intros [H1 H2] [H3 H4]. split; congruence. Qed.

Lemma bestH_room_refl s : bestH_room s s.
Proof.
  exists []. split; [by rewrite app_nil_r|]. split; [done|].
  intros [i Hi]. by apply elem_of_nil in Hi.
Qed.

Lemma bestH_room_trans s1 s2 s3 : bestH_room s1 s2 → bestH_room s2 s3 → bestH_room s1 s3.
Proof.
  intros (t1 & Ht1 & Hl1 & Hc1) (t2 & Ht2 & Hl2 & Hc2). exists (t1 ++ t2).
  split; [by rewrite Ht2, Ht1, app_assoc|]. split; [congruence|].
  intros [i Hi]. apply elem_of_app in Hi as [Hi|Hi].
  - apply Hc1. by exists i.
  - rewrite <-Hl1. apply Hc2. by exists i.
Qed.

(** The copy of [computeH]: nine scalars to the start of [bestH]. *)
Lemma copy_T_bestH off (m m' : mem) :
  copy_T Buf.H Buf.bestH off 0 (9 * sizeof T_dtype) m = Some m' →
  9 ≤ length (mT m Buf.bestH)
  ∧ ∃ row, length row = 9 ∧ mT m' Buf.bestH = list_inserts 0 row (mT m Buf.bestH).
Proof.
  unfold copy_T. rewrite (N.div_mul 9) by apply sizeof_nonzero.
  rewrite N.Div0.div_0_l. change (N.to_nat 9) with 9. change (N.to_nat 0) with 0.
  case_decide as Hg; [|done]. intros [= <-]. destruct Hg as [Hs Hd].
  split; [lia|]. eexists. split; [|reflexivity].
  rewrite length_take, length_drop. lia.
Qed.

Lemma inserts_tail_kept (row l : list T) :
  length row = 9 → 9 ≤ length l →
  length (list_inserts 0 row l) = length l
  ∧ drop 9 (list_inserts 0 row l) = drop 9 l.
Proof.
  intros Hrow Hl. split; [apply length_inserts|].
  rewrite <-(take_drop 9 l) at 1.
  rewrite list_inserts_0_r by (rewrite length_take; lia).
  by rewrite drop_app_length' by done.
Qed.

Lemma call_tail_kept {A : Type} env c (f : mem → option (mem * A)) :
  keeps_bestH f → respects bestH_tail_kept (substrate_call env c f).
Proof.
  intros Hf s s' r Hs.
  pose proof (substrate_call_same env c f Hf s s' r Hs) as He.
  unfold same_bestH in He. unfold bestH_tail_kept. by rewrite He.
Qed.

Lemma copy_tail_kept env c off :
  respects bestH_tail_kept
    (substrate_call env c
       (λ m, m' ← copy_T Buf.H Buf.bestH off 0 (9 * sizeof T_dtype) m; Some (m', ()))).
Proof.
  intros s s' r. unfold substrate_call.
  destruct (faults env _); [by intros [= <- _]|].
  destruct (copy_T _ _ _ _ _ _) as [m'|] eqn:Hcopy; cbn [mbind option_bind];
    intros [= <- _]; [|done].
  apply copy_T_bestH in Hcopy as (Hroom & row & Hrow & Hm').
  unfold bestH_tail_kept. cbn [s_mem]. rewrite Hm'. by apply inserts_tail_kept.
Qed.

Lemma call_room {A : Type} env c (f : mem → option (mem * A)) :
  keeps_bestH f → (∀ index, c ≠ copy_cmd T_dtype index) →
  respects bestH_room (substrate_call env c f).
Proof.
  intros Hf Hc s s' r Hs.
  pose proof (substrate_call_same env c f Hf s s' r Hs) as He.
  apply substrate_call_inv in Hs as [(a & _ & Ht & _)|[_ ->]];
    [|apply bestH_room_refl].
  exists [c]. split; [done|]. split; [by rewrite He|].
  intros [i Hi]. apply list_elem_of_singleton in Hi. by destruct (Hc i).
Qed.

Lemma copy_room env c off :
  respects bestH_room
    (substrate_call env c
       (λ m, m' ← copy_T Buf.H Buf.bestH off 0 (9 * sizeof T_dtype) m; Some (m', ()))).
Proof.
  intros s s' r. unfold substrate_call.
  destruct (faults env _); [intros [= <- _]; apply bestH_room_refl|].
  destruct (copy_T _ _ _ _ _ _) as [m'|] eqn:Hcopy; cbn [mbind option_bind];
    intros [= <- _]; [|apply bestH_room_refl].
  apply copy_T_bestH in Hcopy as (Hroom & row & Hrow & Hm').
  exists [c]. cbn [s_mem s_trace]. split; [done|]. split; [|done].
  rewrite Hm'. apply length_inserts.
Qed.

Lemma bufferFree_tail_kept b : respects bestH_tail_kept (bufferFree b).
Proof. by intros s s' r [= <- _]. Qed.

Lemma bufferFree_room b : respects bestH_room (bufferFree b).
Proof.
  intros s s' r [= <- _]. exists [BufferFree b]. split; [done|]. split; [done|].
  intros [i Hi]. by apply list_elem_of_singleton in Hi.
Qed.

Lemma call_once_build_tail_kept env htype :
  respects bestH_tail_kept (call_once_build env htype).
Proof.
  intros s s' r Hs. pose proof (call_once_build_same env htype s s' r Hs) as He.
  unfold same_bestH in He. unfold bestH_tail_kept. by rewrite He.
Qed.

Lemma call_once_build_room env htype : respects bestH_room (call_once_build env htype).
Proof.
  intros s s' r Hs. pose proof (call_once_build_same env htype s s' r Hs) as He.
  apply call_once_build_inv in Hs as [(_ & Ht & _)|(_ & -> & _)];
    [|apply bestH_room_refl].
  eexists. split; [exact Ht|]. split; [by rewrite He|].
  intros [i Hi]. unfold build_cmds in Hi. destruct (s_compiled s).
  - by apply elem_of_nil in Hi.
  - by apply list_elem_of_singleton in Hi.
Qed.

Ltac keeps_effect :=
  first
    [ apply keeps_read
    | apply (keeps_read_as _ N.of_nat)
    | apply keeps_launch; intros;
      first [ reflexivity | apply eval_keeps | apply ireduce_keeps
            | apply find_min_median_keeps ] ].

Ltac tail_step :=
  first
    [ apply (respects_ret bestH_tail_kept bestH_tail_kept_refl)
    | apply bufferFree_tail_kept
    | apply call_once_build_tail_kept
    | apply copy_tail_kept
    | apply call_tail_kept; keeps_effect
    | apply (respects_bind bestH_tail_kept bestH_tail_kept_trans); [|intros ?]
    | lazymatch goal with
      | |- respects _ (if ?c then _ else _) => destruct c
      | |- respects _ (match ?a with _ => _ end) => destruct a
      end ].

Ltac room_step :=
  first
    [ apply (respects_ret bestH_room bestH_room_refl)
    | apply bufferFree_room
    | apply call_once_build_room
    | apply copy_room
    | apply call_room; [keeps_effect|by intros ?]
    | apply (respects_bind bestH_room bestH_room_trans); [|intros ?]
    | lazymatch goal with
      | |- respects _ (if ?c then _ else _) => destruct c
      | |- respects _ (match ?a with _ => _ end) => destruct a
      end ].

Lemma computeH_tail_kept env htype its ns thr :
  respects bestH_tail_kept (computeH env htype its ns thr).
Proof.
  unfold computeH, ransac_branch, lmeds_branch, min_median, lmeds_inliers. unfold_calls.
  destruct htype; cbv beta iota zeta; repeat tail_step.
Qed.

Lemma computeH_room env htype its ns thr :
  respects bestH_room (computeH env htype its ns thr).
Proof.
  unfold computeH, ransac_branch, lmeds_branch, min_median, lmeds_inliers. unfold_calls.
  destruct htype; cbv beta iota zeta; repeat room_step.
Qed.

Lemma script_has_copy htype compiled its ns p w :
  copy_cmd T_dtype w ∈ script T_dtype htype compiled its ns p w ++ cleanup_cmds.
Proof.
  unfold script, lmeds_cmds, ransac_cmds.
  destruct htype; rewrite !elem_of_app, !elem_of_cons; auto 20.
Qed.

End OutputFrame.

(** X8 — whatever happens in a call, [bestH] keeps its length and every
    scalar past its first nine: the only write to it is the copy of nine
    scalars of [T] to byte offset 0. *)
Theorem computeH_writes_first_nine_only `{num : Numerics} env htype its ns thr s0 s1 r :
  computeH env htype its ns thr s0 = (s1, r) →
  length (mT (s_mem s1) Buf.bestH) = length (mT (s_mem s0) Buf.bestH)
  ∧ ∀ k, 9 ≤ k → mT (s_mem s1) Buf.bestH !! k = mT (s_mem s0) Buf.bestH !! k.
Proof.
  intros Hrun. destruct (computeH_tail_kept env htype its ns thr s0 s1 r Hrun) as [Hl Hd].
  split; [done|]. intros k Hk.
  replace k with (9 + (k - 9)) by lia. by rewrite <-!lookup_drop, Hd.
Qed.

Lemma computeH_writes_first_nine_only_witness :
  let s0 := {| s_mem := @Build_mem (Z_numerics f32)
                          (λ b, if decide (b = Buf.bestH) then replicate 11 7%Z
                                else demo_T b)
                          (λ _, []) (λ _, []) (replicate 3 (replicate 4 0%Z))
                          (demo_coord 4) [[3]; [0]; [0]];
               s_trace := []; s_compiled := false |} in
  let run := computeH (num := Z_numerics f32) quiet AF_HOMOGRAPHY_RANSAC 3 4 1%Z s0 in
  length (mT (s_mem run.1) Buf.bestH) = length (mT (s_mem s0) Buf.bestH)
  ∧ ∀ k, 9 ≤ k → mT (s_mem run.1) Buf.bestH !! k = mT (s_mem s0) Buf.bestH !! k.
Proof.
  intros s0 run.
  apply (computeH_writes_first_nine_only (num := Z_numerics f32) quiet
           AF_HOMOGRAPHY_RANSAC 3 4 1%Z s0 run.1 (Ok 2%Z)).
  apply run_outcome. vm_compute. reflexivity.
Defined.

(** X9 — no call returns with a [bestH] of fewer than nine scalars: the
    code checks no size, so the launches, allocations and reads go ahead,
    but the runtime rejects the copy of [9 * sizeof(T)] bytes and the call
    throws. *)
Theorem computeH_short_bestH_throws `{num : Numerics} env htype its ns thr s0 :
  length (mT (s_mem s0) Buf.bestH) < 9 →
  (computeH env htype its ns thr s0).2 = Threw.
Proof.
  intros Hshort. destruct (computeH env htype its ns thr s0) as [s1 [a|]] eqn:Hrun;
    [|done].
  exfalso.
  destruct (computeH_room env htype its ns thr s0 s1 _ Hrun) as (t & Ht & _ & Hroom).
  apply computeH_log in Hrun as (p & w & t' & Ht' & -> & _).
  rewrite Ht in Ht'. apply app_inv_head in Ht' as ->.
  assert (9 ≤ length (mT (s_mem s0) Buf.bestH)); [|lia].
  apply Hroom. exists w. apply script_has_copy.
Qed.

Lemma computeH_short_bestH_throws_witness :
  let s0 := {| s_mem := @Build_mem (Z_numerics f32)
                          (λ b, if decide (b = Buf.bestH) then replicate 8 0%Z
                                else demo_T b)
                          (λ _, []) (λ _, []) (replicate 3 (replicate 4 0%Z))
                          (demo_coord 4) [[3]; [0]; [0]];
               s_trace := []; s_compiled := false |} in
  (computeH (num := Z_numerics f32) quiet AF_HOMOGRAPHY_LMEDS 3 4 1%Z s0).2 = Threw.
Proof.
  intros s0.
  apply (computeH_short_bestH_throws (num := Z_numerics f32) quiet
           AF_HOMOGRAPHY_LMEDS 3 4 1%Z s0).
  vm_compute. lia.
Defined.

(** ** Lifetimes of the temporaries *)

Lemma uses_live_prefix (live : list Buf.t) (t rest : list cmd) :
  uses_live live (t ++ rest) = true → uses_live live t = true.
Proof.
  revert live. induction t as [|c t IH]; intros live; [done|].
  cbn [app uses_live]. rewrite !andb_true_iff. intros [Hc Ht].
  split; [done|]. by apply IH.
Qed.

Lemma script_uses_live `{num : Numerics} htype compiled its ns p w :
  uses_live [] (script T_dtype htype compiled its ns p w ++ cleanup_cmds) = true.
Proof.
  unfold script, build_cmds, lmeds_cmds, median_cmds, min_median_cmds.
  by destruct htype, compiled, (1 <? divup its HG_THREADS)%N.
Qed.

(** X10 — no temporary is used outside its lifetime: in the log of any
    call, returned or thrown, every kernel launch, transfer, sort and
    reduction that is handed one of the buffers [computeH] allocates comes
    after the allocation of that buffer and before its release, and only
    buffers in use are released. *)
Theorem computeH_uses_live_temporaries `{num : Numerics} env htype its ns thr s0 s1 r :
  computeH env htype its ns thr s0 = (s1, r) →
  uses_live [] (drop (length (s_trace s0)) (s_trace s1)) = true.
Proof.
  intros Hrun. apply computeH_log in Hrun as (p & w & t & Ht & Hr).
  rewrite Ht, drop_app_length.
  pose proof (script_uses_live htype (s_compiled s0) its ns p w) as Hs.
  destruct r as [a|].
  - by destruct Hr as [-> _].
  - destruct Hr as [(c & rest & Hcut & _) _]. rewrite Hcut, <-app_assoc in Hs.
    by apply uses_live_prefix in Hs.
Qed.

Lemma computeH_uses_live_temporaries_witness :
  let s0 := demo_state f32 4 in
  let run := computeH (num := Z_numerics f32) (faulty_at 12) AF_HOMOGRAPHY_LMEDS 3 4 1%Z s0 in
  uses_live [] (drop (length (s_trace s0)) (s_trace run.1)) = true.
Proof.
  intros s0 run.
  apply (computeH_uses_live_temporaries (num := Z_numerics f32) (faulty_at 12)
           AF_HOMOGRAPHY_LMEDS 3 4 1%Z s0 run.1 Threw).
  apply run_outcome. vm_compute. reflexivity.
Defined.

Lemma reads_produced_prefix (ready : list Buf.t) (t rest : list cmd) :
  reads_produced ready (t ++ rest) = true → reads_produced ready t = true.
Proof.
  revert ready. induction t as [|c t IH]; intros ready; [done|].
  cbn [app reads_produced].
  destruct c; try apply IH.
  rewrite !andb_true_iff. intros [Hc Ht]. split; [done|]. by apply IH.
Qed.

Lemma script_reads_produced `{num : Numerics} htype compiled its ns p w :
  reads_produced [] (script T_dtype htype compiled its ns p w ++ cleanup_cmds) = true.
Proof.
  unfold script, build_cmds, lmeds_cmds, median_cmds, min_median_cmds.
  by destruct htype, compiled, (1 <? divup its HG_THREADS)%N.
Qed.

(** X11 — the host never reads back a buffer that the device has not been
    given: in the log of any call, returned or thrown, every
    [enqueueReadBuffer] is of a temporary that was an argument of a kernel
    launch or of a reduction after its allocation and before the read. *)
Theorem computeH_reads_after_producer `{num : Numerics} env htype its ns thr s0 s1 r :
  computeH env htype its ns thr s0 = (s1, r) →
  reads_produced [] (drop (length (s_trace s0)) (s_trace s1)) = true.
Proof.
  intros Hrun. apply computeH_log in Hrun as (p & w & t & Ht & Hr).
  rewrite Ht, drop_app_length.
  pose proof (script_reads_produced htype (s_compiled s0) its ns p w) as Hs.
  destruct r as [a|].
  - by destruct Hr as [-> _].
  - destruct Hr as [(c & rest & Hcut & _) _]. rewrite Hcut, <-app_assoc in Hs.
    by apply reads_produced_prefix in Hs.
Qed.

Lemma computeH_reads_after_producer_witness :
  let s0 := demo_state f32 4 in
  let run := computeH (num := Z_numerics f32) quiet AF_HOMOGRAPHY_RANSAC 3 4 1%Z s0 in
  reads_produced [] (drop (length (s_trace s0)) (s_trace run.1)) = true.
Proof.
  intros s0 run.
  apply (computeH_reads_after_producer (num := Z_numerics f32) quiet
           AF_HOMOGRAPHY_RANSAC 3 4 1%Z s0 run.1 (Ok 2%Z)).
  apply run_outcome. vm_compute. reflexivity.
Defined.

(** ** A throw and [bestH] *)

Lemma cuts_hold_spec (P : list cmd → cmd → bool) (l t rest : list cmd) (c : cmd) :
  cuts_hold P l = true → l = t ++ c :: rest → is_free c = false → P t c = true.
Proof.
  unfold cuts_hold. rewrite forallb_forall. intros Hall -> Hc.
  specialize (Hall (length t)).
  rewrite list_lookup_middle in Hall by done.
  rewrite take_app_length, Hc in Hall. apply Hall.
  apply in_seq. rewrite length_app. cbn [length]. lia.
Qed.

Section ThrowAndCopy.
Context `{num : Numerics}.

Abbreviation quiet_cmd := (λ c : cmd, writes_to Buf.bestH c = false).

Lemma emitted_refl (φ : cmd → Prop) s : emitted φ s s.
Proof. exists []. split; [by rewrite app_nil_r|constructor]. Qed.

Lemma emitted_trans (φ : cmd → Prop) s1 s2 s3 :
  emitted φ s1 s2 → emitted φ s2 s3 → emitted φ s1 s3.
Proof.
  intros (t1 & Ht1 & H1) (t2 & Ht2 & H2). exists (t1 ++ t2).
  split; [by rewrite Ht2, Ht1, app_assoc|by apply Forall_app].
Qed.

Lemma settled_refl s : settled s s.
Proof. split; [apply emitted_refl|done]. Qed.

Lemma settled_trans s1 s2 s3 : settled s1 s2 → settled s2 s3 → settled s1 s3.
Proof.
  intros [He1 Hm1] [He2 Hm2]. split; [by eapply emitted_trans|congruence].
Qed.

Lemma call_emitted {A : Type} env (φ : cmd → Prop) c (f : mem → option (mem * A)) :
  φ c → respects (emitted φ) (substrate_call env c f).
Proof.
  intros Hc s s' r Hs.
  apply substrate_call_inv in Hs as [(a & _ & Ht & _)|[_ ->]]; [|apply emitted_refl].
  exists [c]. split; [done|by repeat constructor].
Qed.

Lemma bufferFree_emitted (φ : cmd → Prop) b :
  φ (BufferFree b) → respects (emitted φ) (bufferFree b).
Proof.
  intros Hc s s' r [= <- _]. exists [BufferFree b]. split; [done|by repeat constructor].
Qed.

Lemma call_once_build_emitted env (φ : cmd → Prop) htype :
  φ (BuildProgram (compile_options T_dtype htype)) →
  respects (emitted φ) (call_once_build env htype).
Proof.
  intros Hc s s' r Hs.
  apply call_once_build_inv in Hs as [(_ & Ht & _)|(_ & -> & _)]; [|apply emitted_refl].
  eexists. split; [exact Ht|]. unfold build_cmds.
  destruct (s_compiled s); by repeat constructor.
Qed.

Lemma call_settled {A : Type} env c (f : mem → option (mem * A)) :
  writes_to Buf.bestH c = false → (∀ m m' a, f m = Some (m', a) → mT m' = mT m) →
  respects settled (substrate_call env c f).
Proof.
  intros Hc Hf s s' r Hs. split; [by eapply (call_emitted env quiet_cmd)|].
  unfold substrate_call in Hs. destruct (faults env _); [by injection Hs as <- _|].
  destruct (f (s_mem s)) as [[m' a]|] eqn:Hfm; injection Hs as <- _; [|done].
  by eapply Hf.
Qed.

Lemma bufferFree_settled b : respects settled (bufferFree b).
Proof.
  intros s s' r Hs. split; [by eapply (bufferFree_emitted quiet_cmd)|].
  by injection Hs as <- _.
Qed.

(** A copy leaves in [bestH] the row it was asked for. *)
Lemma copy_call_row env index :
  copies_row (enqueueCopyBuffer env Buf.H Buf.bestH
                (wrap32 (index * 9) * sizeof T_dtype) 0 (9 * sizeof T_dtype)).
Proof.
  intros s s' r. unfold enqueueCopyBuffer, substrate_call.
  destruct (faults env _).
  { intros [= <- _]. exists []. split; [by rewrite app_nil_r|].
    intros i Hi. by apply elem_of_nil in Hi. }
  destruct (copy_T _ _ _ _ _ _) as [m'|] eqn:Hcopy; cbn [mbind option_bind];
    intros [= <- _].
  - eexists. split; [reflexivity|]. intros i Hi%list_elem_of_singleton.
    unfold copy_cmd in Hi. injection Hi as Hi.
    apply N.mul_cancel_r in Hi; [|apply sizeof_nonzero].
    unfold holds_row. cbn [s_mem]. rewrite Hi.
    unfold copy_T in Hcopy. rewrite !N.div_mul in Hcopy by apply sizeof_nonzero.
    rewrite N.Div0.div_0_l in Hcopy.
    change (N.to_nat 9) with 9 in Hcopy. change (N.to_nat 0) with 0 in Hcopy.
    case_decide as Hg; [|done]. injection Hcopy as <-. destruct Hg as [Hs Hd].
    change (mT (set_mT Buf.bestH ?v (s_mem s)) Buf.bestH) with v.
    change (mT (set_mT Buf.bestH ?v (s_mem s)) Buf.H) with (mT (s_mem s) Buf.H).
    apply take_inserts_0; [|lia]. rewrite length_take, length_drop. lia.
  - exists []. split; [by rewrite app_nil_r|].
    intros i Hi. by apply elem_of_nil in Hi.
Qed.

(** Commands that do not write [bestH], then commands that leave the row
    of their copies. *)
Lemma copies_row_after {A B : Type} (m : M A) (f : A → M B) :
  respects (emitted quiet_cmd) m → (∀ a, copies_row (f a)) → copies_row (m ≫= f).
Proof.
  intros Hm Hf s s' r Hrun.
  apply bind_inv in Hrun as [(s1 & a & Hm1 & Hf1)|[Hm1 ->]].
  - destruct (Hm _ _ _ Hm1) as (t1 & Ht1 & Hq).
    destruct (Hf a _ _ _ Hf1) as (t2 & Ht2 & Hrow).
    exists (t1 ++ t2). split; [by rewrite Ht2, Ht1, app_assoc|].
    intros i Hi. apply elem_of_app in Hi as [Hi|Hi]; [|by apply Hrow].
    rewrite Forall_forall in Hq. by specialize (Hq _ Hi).
  - destruct (Hm _ _ _ Hm1) as (t1 & Ht1 & Hq).
    exists t1. split; [done|]. intros i Hi.
    rewrite Forall_forall in Hq. by specialize (Hq _ Hi).
Qed.

(** Commands that leave the row of their copies, then commands that touch
    neither [bestH] nor [H]. *)
Lemma copies_row_before {A B : Type} (m : M A) (f : A → M B) :
  copies_row m → (∀ a, respects settled (f a)) → copies_row (m ≫= f).
Proof.
  intros Hm Hf s s' r Hrun.
  apply bind_inv in Hrun as [(s1 & a & Hm1 & Hf1)|[Hm1 ->]].
  - destruct (Hm _ _ _ Hm1) as (t1 & Ht1 & Hrow).
    destruct (Hf a _ _ _ Hf1) as [(t2 & Ht2 & Hq) HT].
    exists (t1 ++ t2). split; [by rewrite Ht2, Ht1, app_assoc|].
    intros i Hi. apply elem_of_app in Hi as [Hi|Hi].
    + specialize (Hrow i Hi). unfold holds_row in *. by rewrite HT.
    + rewrite Forall_forall in Hq. by specialize (Hq _ Hi).
  - by apply (Hm _ _ _ Hm1).
Qed.

Ltac quiet_step :=
  first
    [ apply (respects_ret (emitted quiet_cmd) (emitted_refl quiet_cmd))
    | apply (bufferFree_emitted quiet_cmd); reflexivity
    | apply (call_once_build_emitted _ quiet_cmd); reflexivity
    | apply (call_emitted _ quiet_cmd); reflexivity
    | apply (respects_bind (emitted quiet_cmd) (emitted_trans quiet_cmd)); [|intros ?]
    | lazymatch goal with
      | |- respects _ (if ?c then _ else _) => destruct c
      end ].

Ltac settled_step :=
  first
    [ apply (respects_ret settled settled_refl)
    | apply bufferFree_settled
    | apply call_settled;
      [reflexivity
      |intros ? ? ?;
       first [by intros [= <- _]
             |let Hf := fresh in
              intros Hf; apply bind_Some in Hf as (? & _ & [= <- _]); done]]
    | apply (respects_bind settled settled_trans); [|intros ?] ].

Lemma computeH_lmeds_copies_row env its ns thr :
  copies_row (computeH env AF_HOMOGRAPHY_LMEDS its ns thr).
Proof.
  unfold computeH. cbv beta iota zeta.
  do 6 (apply copies_row_after; [unfold_calls; quiet_step|intros ?]).
  apply copies_row_before; [|intros ?; repeat settled_step].
  unfold lmeds_branch.
  do 2 (apply copies_row_after; [unfold_calls; quiet_step|intros ?]).
  apply copies_row_after; [unfold min_median; unfold_calls; repeat quiet_step|].
  intros [minMedian minIdx].
  apply copies_row_before; [apply copy_call_row|intros ?].
  unfold lmeds_inliers. unfold_calls. cbv zeta. repeat settled_step.
Qed.

Lemma script_single_copy htype compiled its ns p w :
  Forall (λ c, writes_to Buf.bestH c = true → c = copy_cmd T_dtype w)
         (script T_dtype htype compiled its ns p w).
Proof.
  unfold script, build_cmds, setup_cmds, lmeds_cmds, median_cmds, min_median_cmds,
    refine_cmds, ransac_cmds.
  destruct htype, compiled, (1 <? divup its HG_THREADS)%N; cbn [app];
    repeat (apply Forall_cons; split; [first [by intros [=]|done]|]);
    apply List.Forall_nil.
Qed.

Lemma script_cuts htype compiled its ns p w :
  cuts_hold (λ t c, match htype with
                    | AF_HOMOGRAPHY_RANSAC => negb (has_copy t)
                    | AF_HOMOGRAPHY_LMEDS => Bool.eqb (has_copy t) (is_refine_step c)
                    end)
            (script T_dtype htype compiled its ns p w) = true.
Proof.
  unfold script, build_cmds, lmeds_cmds, median_cmds, min_median_cmds.
  by destruct htype, compiled, (1 <? divup its HG_THREADS)%N.
Qed.

Lemma has_copy_false (t : list cmd) index :
  has_copy t = false → copy_cmd T_dtype index ∉ t.
Proof.
  intros Hno Hin. apply not_true_iff_false in Hno. apply Hno.
  apply existsb_exists. exists (copy_cmd T_dtype index).
  split; [by apply list_elem_of_In|done].
Qed.

End ThrowAndCopy.
(** C5 (as stated) fails: in LMedS mode, when the allocation of
    [totalInliers] fails (the thirteenth call into the substrate), the
    call throws after the winning row has been copied into [bestH]. *)
Lemma C5_counterexample :
  let s0 := demo_state f32 4 in
  let run := computeH (num := Z_numerics f32) (faulty_at 12) AF_HOMOGRAPHY_LMEDS 3 4 1%Z s0 in
  run.2 = Threw
  ∧ length (s_trace run.1) = 12
  ∧ mT (s_mem s0) Buf.bestH = [0; 0; 0; 0; 0; 0; 0; 0; 0]%Z
  ∧ mT (s_mem run.1) Buf.bestH = [1; 0; 0; 0; 1; 0; 0; 0; 1]%Z.
Proof. vm_compute. done. Qed.

(** C5 (amended) — a call that throws has stopped at a fallible command
    [c] of its script.  In RANSAC mode the copy is the last fallible
    command, so no copy is logged and [bestH] is as it was.  In LMedS mode
    the copy precedes the classification launch, the allocation of
    [totalInliers], the reduction and the read of its result: when [c] is
    one of these four, the copy is in the log and [bestH] holds the row of
    [H] that the call selected, although the call fails; when [c] is any
    earlier command, no copy is logged and [bestH] is as it was. *)
Theorem C5_throw_leaves_bestH_unless_copied `{num : Numerics} env htype its ns thr s0 s1 :
  computeH env htype its ns thr s0 = (s1, Threw) →
  let log := drop (length (s_trace s0)) (s_trace s1) in
  ∃ p w c rest,
    script T_dtype htype (s_compiled s0) its ns p w = log ++ c :: rest
    ∧ is_free c = false
    ∧ match htype with
      | AF_HOMOGRAPHY_RANSAC =>
          has_copy log = false
          ∧ mT (s_mem s1) Buf.bestH = mT (s_mem s0) Buf.bestH
      | AF_HOMOGRAPHY_LMEDS =>
          if is_refine_step c
          then copy_cmd T_dtype w ∈ log ∧ holds_row w s1
          else has_copy log = false
               ∧ mT (s_mem s1) Buf.bestH = mT (s_mem s0) Buf.bestH
      end.
Proof.
  intros Hrun log.
  destruct (computeH_log env htype its ns thr s0 s1 Threw Hrun)
    as (p & w & t & Ht & (c & rest & Hs & Hc) & _).
  assert (Hlog : log = t) by (unfold log; by rewrite Ht, drop_app_length).
  rewrite Hlog. clear log Hlog.
  exists p, w, c, rest. split; [done|]. split; [done|].
  pose proof (cuts_hold_spec _ _ _ _ _
                (script_cuts htype (s_compiled s0) its ns p w) Hs Hc) as Hcut.
  cbv beta in Hcut.
  destruct htype.
  - apply negb_true_iff in Hcut. split; [done|].
    exact (computeH_ransac_throws env its ns thr s0 s1 Hrun).
  - apply Bool.eqb_prop in Hcut. destruct (is_refine_step c).
    + apply existsb_exists in Hcut as (x & Hx%list_elem_of_In & Hw).
      pose proof (script_single_copy AF_HOMOGRAPHY_LMEDS (s_compiled s0) its ns p w) as Hone.
      rewrite Hs, Forall_app in Hone. destruct Hone as [Hone _].
      rewrite Forall_forall in Hone. rewrite (Hone x Hx Hw) in Hx.
      split; [done|].
      destruct (computeH_lmeds_copies_row env its ns thr s0 s1 Threw Hrun)
        as (t' & Ht' & Hrow).
      rewrite Ht in Ht'. apply app_inv_head in Ht' as <-. by apply Hrow.
    + split; [done|].
      destruct (computeH_guarded env AF_HOMOGRAPHY_LMEDS its ns thr s0 s1 Threw Hrun)
        as (t' & Ht' & [Hsame|[i Hi]]); [done|].
      rewrite Ht in Ht'. apply app_inv_head in Ht' as <-.
      by apply has_copy_false in Hi.
Qed.

(** The reduction into [totalInliers] fails: the row of iteration 0 is in
    [bestH]. *)
Lemma C5_witness :
  let s0 := demo_state f32 4 in
  let run := computeH (num := Z_numerics f32) (faulty_at 13) AF_HOMOGRAPHY_LMEDS 3 4 1%Z s0 in
  let log := drop (length (s_trace s0)) (s_trace run.1) in
  ∃ p w c rest,
    script f32 AF_HOMOGRAPHY_LMEDS (s_compiled s0) 3 4 p w = log ++ c :: rest
    ∧ is_free c = false
    ∧ if is_refine_step c
      then copy_cmd f32 w ∈ log ∧ holds_row (num := Z_numerics f32) w run.1
      else has_copy log = false
           ∧ mT (s_mem run.1) Buf.bestH = mT (s_mem s0) Buf.bestH.
Proof.
  intros s0 run.
  apply (C5_throw_leaves_bestH_unless_copied (num := Z_numerics f32) (faulty_at 13)
           AF_HOMOGRAPHY_LMEDS 3 4 1%Z s0 run.1).
  apply run_outcome. vm_compute. reflexivity.
Defined.
